(** * unreq: the cancellation registries

    A shallow embedding of [src/inMemoryCancellationRegistry.ts],
    [src/redisCancellationRegistry.ts] and of the registration step of the
    middleware in [src/index.ts], with the properties of the registry
    state machine proved or refuted on it.

    Conventions.
    - A JavaScript object reference is a location in a heap of objects, so
      that a continuation which still holds [entry] after an [await] writes
      to the object it captured, whatever the map holds by then.
    - [setTimeout]/[clearTimeout] act on an explicit table of pending
      timeouts; a timeout may fire once the clock has reached its due time.
      The runtime sets a delay outside [1 .. 2^31 - 1] milliseconds to 1.
    - An [async] method runs synchronously up to its first [await]; every
      [await] is a point where other calls may run. *)

From stdpp Require Import gmap strings list fin_maps pretty.
From Stdlib Require Import ZArith Lia.

Local Open Scope Z_scope.

(** ** Shared vocabulary *)

(** ['active' | 'cancelling' | 'cancelled' | 'finished'] *)
Inductive Status : Type := active | cancelling | cancelled | finished.

#[global] Instance Status_eq_dec : EqDecision Status.
Proof. solve_decision. Defined.

(** [dbIdentifier: any]: an opaque JSON-like value; [undefined] is the
    [None] of [option DbIdentifier]. *)
Inductive DbIdentifier : Type :=
  | DbNull
  | DbNum (n : Z)
  | DbStr (s : string)
  | DbEmpty                                  (* {} *)
  | DbWith (field : string) (value rest : DbIdentifier).

(** [{ status; dbIdentifier? }] *)
Record Entry : Type := mkEntry {
  status : Status;
  dbIdentifier : option DbIdentifier
}.

(** What a JavaScript exception carries here: the [Error] built by
    [associateDbIdentifier], or whatever the hook or the store client
    rejected with. *)
Inductive Exn : Type :=
  | NoEntryFound (requestId : string)
  | External (reason : string).

(** Completion of a synchronous call. *)
Inductive Completion (A : Type) : Type :=
  | Returns (a : A)
  | Throws (e : Exn).
Arguments Returns {A} a.
Arguments Throws {A} e.

(** Settlement of a promise. *)
Inductive Settled (A : Type) : Type :=
  | Fulfilled (a : A)
  | Rejected (e : Exn).
Arguments Fulfilled {A} a.
Arguments Rejected {A} e.

(** Position of a status on the path
    [active -> cancelling -> cancelled -> finished]. *)
Definition rank (s : Status) : nat :=
  match s with
  | active => 0
  | cancelling => 1
  | cancelled => 2
  | finished => 3
  end%nat.

(** [forward s s']: [s'] is [s] or a later status. *)
Definition forward (s s' : Status) : Prop := (rank s <= rank s')%nat.

(** Invocations of the hook, oldest first: [(requestId, dbIdentifier)]. *)
Abbreviation HookLog := (list (string * DbIdentifier)).

(** Number of invocations of the hook for [requestId]. *)
Definition invocations (requestId : string) (log : HookLog) : nat :=
  length (filter (λ c, c.1 = requestId) log).

(** ** The in-memory registry *)

Module InMemory.

(** The closure passed to [setTimeout] in [register]: it captures
    [requestId]; [due] is the clock value from which it may run. *)
Record Timeout : Type := mkTimeout {
  t_requestId : string;
  t_due : Z
}.

(** A call of [markForCancellation] suspended at [await this.hook(...)]:
    the frame keeps [requestId] and the reference [entry]. *)
Record Frame : Type := mkFrame {
  f_requestId : string;
  f_entry : nat
}.

Record Registry : Type := mkRegistry {
  objects : list Entry;           (* the entry objects, by allocation *)
  entries : gmap string nat;      (* this.entries : requestId -> object *)
  timers : gmap string nat;       (* this.timers : requestId -> handle *)
  ttl : Z;                        (* this.ttl, milliseconds *)
  timeouts : gmap nat Timeout;    (* pending timeouts of the runtime *)
  next_handle : nat;
  now : Z;
  calls : HookLog;                (* invocations of this.hook *)
  awaiting : list Frame           (* calls suspended on the hook *)
}.

(** [new InMemoryCancellationRegistry(hook, ttlSeconds)], with
    [ttl_ms = ttlSeconds * 1000]. *)
Definition create (ttl_ms : Z) : Registry :=
  mkRegistry [] ∅ ∅ ttl_ms ∅ 0 0 [] [].

Definition with_objects (o : list Entry) (r : Registry) : Registry :=
  mkRegistry o (entries r) (timers r) (ttl r) (timeouts r)
             (next_handle r) (now r) (calls r) (awaiting r).

Definition with_entries (m : gmap string nat) (r : Registry) : Registry :=
  mkRegistry (objects r) m (timers r) (ttl r) (timeouts r)
             (next_handle r) (now r) (calls r) (awaiting r).

Definition with_timers (m : gmap string nat) (r : Registry) : Registry :=
  mkRegistry (objects r) (entries r) m (ttl r) (timeouts r)
             (next_handle r) (now r) (calls r) (awaiting r).

Definition with_timeouts (q : gmap nat Timeout) (r : Registry) : Registry :=
  mkRegistry (objects r) (entries r) (timers r) (ttl r) q
             (next_handle r) (now r) (calls r) (awaiting r).

Definition with_awaiting (a : list Frame) (r : Registry) : Registry :=
  mkRegistry (objects r) (entries r) (timers r) (ttl r) (timeouts r)
             (next_handle r) (now r) (calls r) a.

(** [entry.status = s] on the object at [l]. *)
Definition set_status (l : nat) (s : Status) (r : Registry) : Registry :=
  with_objects (alter (λ e, mkEntry s (dbIdentifier e)) l (objects r)) r.

(** [entry.dbIdentifier = d] on the object at [l]. *)
Definition set_dbIdentifier (l : nat) (d : option DbIdentifier)
    (r : Registry) : Registry :=
  with_objects (alter (λ e, mkEntry (status e) d) l (objects r)) r.

(** [this.entries.get(requestId)]: the object, when the key is present. *)
Definition get_entry (requestId : string) (r : Registry)
    : option (nat * Entry) :=
  match entries r !! requestId with
  | Some l =>
      match objects r !! l with
      | Some e => Some (l, e)
      | None => None
      end
  | None => None
  end.

(** The delay the runtime gives a timer asked for [ms] milliseconds: a
    delay above [2^31 - 1] or below 1 is set to 1. *)
Definition TIMEOUT_MAX : Z := 2147483647.

Definition delay (ms : Z) : Z :=
  if decide (1 <= ms ∧ ms <= TIMEOUT_MAX) then ms else 1.

(** [setTimeout(cb, this.ttl)]: a fresh handle, due [delay this.ttl] from
    now. *)
Definition setTimeout (requestId : string) (r : Registry)
    : nat * Registry :=
  let h := next_handle r in
  (h, mkRegistry (objects r) (entries r) (timers r) (ttl r)
        (<[h := mkTimeout requestId (now r + delay (ttl r))]> (timeouts r))
        (S h) (now r) (calls r) (awaiting r)).

Definition clearTimeout (h : nat) (r : Registry) : Registry :=
  with_timeouts (delete h (timeouts r)) r.

(** [register(requestId)] *)
Definition register (requestId : string) (r : Registry) : Registry :=
  let l := length (objects r) in
  let r1 := with_entries (<[requestId := l]> (entries r))
              (with_objects (objects r ++ [mkEntry active None]) r) in
  let '(timer, r2) := setTimeout requestId r1 in
  with_timers (<[requestId := timer]> (timers r2)) r2.

(** [markForCancellation(requestId)], up to its first suspension.
    [Some s]: the returned promise is already settled with [s];
    [None]: the hook has been invoked and the call is suspended on its
    promise, its frame is in [awaiting]. (A hook that throws before it
    returns a promise has the effect of a rejection settled at once.) *)
Definition markForCancellation (requestId : string) (r : Registry)
    : Registry * option (Settled unit) :=
  match get_entry requestId r with
  | None => (r, Some (Fulfilled tt))
  | Some (l, entry) =>
      if decide (status entry = active) then
        let r1 := set_status l cancelling r in
        match dbIdentifier entry with
        | Some db =>
            (mkRegistry (objects r1) (entries r1) (timers r1) (ttl r1)
               (timeouts r1) (next_handle r1) (now r1)
               (calls r1 ++ [(requestId, db)])
               (awaiting r1 ++ [mkFrame requestId l]), None)
        | None => (set_status l cancelled r1, Some (Fulfilled tt))
        end
      else (r, Some (Fulfilled tt))
  end.

(** The rest of [markForCancellation] once the hook's promise settles
    with [outcome], for the [k]-th suspended call. A rejection is rethrown
    by the [await]: the assignment of ['cancelled'] is skipped and the
    call's promise rejects. *)
Definition resume (k : nat) (outcome : Settled bool) (r : Registry)
    : Registry * option (Settled unit) :=
  match awaiting r !! k with
  | None => (r, None)
  | Some fr =>
      let r1 := with_awaiting (delete k (awaiting r)) r in
      match outcome with
      | Fulfilled _ => (set_status (f_entry fr) cancelled r1,
                        Some (Fulfilled tt))
      | Rejected e => (r1, Some (Rejected e))
      end
  end.

(** [associateDbIdentifier(requestId, dbIdentifier)] *)
Definition associateDbIdentifier (requestId : string)
    (d : option DbIdentifier) (r : Registry) : Registry * Completion unit :=
  match get_entry requestId r with
  | None => (r, Throws (NoEntryFound requestId))
  | Some (l, _) => (set_dbIdentifier l d r, Returns tt)
  end.

(** [markAsFinished(requestId)] *)
Definition markAsFinished (requestId : string) (r : Registry) : Registry :=
  match get_entry requestId r with
  | None => r
  | Some (l, _) =>
      let r1 := set_status l finished r in
      let r2 := match timers r1 !! requestId with
                | Some timer => clearTimeout timer r1
                | None => r1
                end in
      with_timers (delete requestId (timers r2))
        (with_entries (delete requestId (entries r2)) r2)
  end.

(** [getStatus(requestId)]: [entry?.status ?? 'finished'] *)
Definition getStatus (requestId : string) (r : Registry) : Status :=
  match get_entry requestId r with
  | Some (_, entry) => status entry
  | None => finished
  end.

(** The callback of [register]'s timeout, run by the runtime when the
    timeout [h] is pending and due. *)
Definition fire (h : nat) (r : Registry) : Registry :=
  match timeouts r !! h with
  | Some t =>
      if decide (t_due t <= now r) then
        let r1 := with_timeouts (delete h (timeouts r)) r in
        with_timers (delete (t_requestId t) (timers r1))
          (with_entries (delete (t_requestId t) (entries r1)) r1)
      else r
  | None => r
  end.

(** Time passes. *)
Definition advance (dt : Z) (r : Registry) : Registry :=
  mkRegistry (objects r) (entries r) (timers r) (ttl r) (timeouts r)
             (next_handle r) (now r + Z.max 0 dt) (calls r) (awaiting r).

(** What can happen to a registry, one atomic stretch of code at a time. *)
Inductive Event : Type :=
  | Register (requestId : string)
  | Associate (requestId : string) (d : option DbIdentifier)
  | Mark (requestId : string)
  | Settle (k : nat) (outcome : Settled bool)
  | Finish (requestId : string)
  | Fire (h : nat)
  | Advance (dt : Z).

Definition step (ev : Event) (r : Registry) : Registry :=
  match ev with
  | Register id => register id r
  | Associate id d => (associateDbIdentifier id d r).1
  | Mark id => (markForCancellation id r).1
  | Settle k o => (resume k o r).1
  | Finish id => markAsFinished id r
  | Fire h => fire h r
  | Advance dt => advance dt r
  end.

(** Events applied from left to right. *)
Definition run (evs : list Event) (r : Registry) : Registry :=
  foldl (λ acc ev, step ev acc) r evs.

(** The states a registry created with [create] can be in. *)
Inductive reachable : Registry → Prop :=
  | reachable_create ttl_ms : reachable (create ttl_ms)
  | reachable_step ev r : reachable r → reachable (step ev r).

(** The earliest due time among the pending timeouts that delete
    [requestId]'s entry: when the entry goes if nothing else happens. *)
Definition expiresAt (requestId : string) (r : Registry) : option Z :=
  map_fold (λ _ t acc,
      if decide (t_requestId t = requestId) then
        match acc with
        | Some d => Some (Z.min (t_due t) d)
        | None => Some (t_due t)
        end
      else acc) None (timeouts r).

(** What every event keeps true of a registry: a mapped reference points
    to an allocated object that is not ['finished'], two keys never share
    an object, a suspended call holds an object that left ['active'],
    handles are handed out in increasing order, and [this.timers] has the
    keys of [this.entries]. *)
Record wf (r : Registry) : Prop := mkWf {
  wf_mapped : ∀ id l, entries r !! id = Some l →
    ∃ e, objects r !! l = Some e ∧ status e ≠ finished;
  wf_inj : ∀ id1 id2 l,
    entries r !! id1 = Some l → entries r !! id2 = Some l → id1 = id2;
  wf_awaiting : ∀ fr, fr ∈ awaiting r →
    ∃ e, objects r !! f_entry fr = Some e ∧ status e ≠ active;
  wf_handles : ∀ h t, timeouts r !! h = Some t → (h < next_handle r)%nat;
  wf_timers : ∀ id, timers r !! id = None ↔ entries r !! id = None
}.


(** The events of calls of [markForCancellation(requestId)]: the call
    itself and the settlement of a hook some call waits for. *)
Definition mark_event (requestId : string) (ev : Event) : Prop :=
  match ev with
  | Mark id => id = requestId
  | Settle _ _ => True
  | _ => False
  end.

(** A registry in which [requestId]'s entry, the object at [l], is
    ['active'] and carries an identifier, the hook having run [n] times
    for the id. *)
Definition unmarked (requestId : string) (l n : nat) (r : Registry) : Prop :=
  wf r ∧ entries r !! requestId = Some l ∧
  (∃ e, objects r !! l = Some e ∧ status e = active ∧
        is_Some (dbIdentifier e)) ∧
  invocations requestId (calls r) = n.

(** The same registry once a call has taken the entry out of ['active']:
    the hook has run once more. *)
Definition marked (requestId : string) (l n : nat) (r : Registry) : Prop :=
  entries r !! requestId = Some l ∧
  (∃ e, objects r !! l = Some e ∧ status e ≠ active) ∧
  invocations requestId (calls r) = S n.

End InMemory.

(** ** The Redis registry *)

Module Redis.

(** The key-value store behind [redisClient], the clock of the server and
    the invocations of the hook. A value is the JSON text of an entry,
    [JSON.stringify] and [JSON.parse] being inverse on the records the
    registry writes; it is kept with the time at which the key expires. *)
Record World : Type := mkWorld {
  kv : gmap string (Entry * Z);
  now : Z;                       (* seconds *)
  calls : HookLog
}.

Definition empty : World := mkWorld ∅ 0 [].

(** [GET key]: [null] for a key that is missing or has expired. *)
Definition read (key : string) (w : World) : option Entry :=
  match kv w !! key with
  | Some (v, expiry) => if decide (now w < expiry) then Some v else None
  | None => None
  end.

(** [SET key value EX seconds] *)
Definition write (key : string) (v : Entry) (ex : Z) (w : World) : World :=
  mkWorld (<[key := (v, now w + ex)]> (kv w)) (now w) (calls w).

(** [DEL key] *)
Definition remove (key : string) (w : World) : World :=
  mkWorld (delete key (kv w)) (now w) (calls w).

Definition invoke (requestId : string) (d : DbIdentifier) (w : World)
    : World :=
  mkWorld (kv w) (now w) (calls w ++ [(requestId, d)]).

Definition advance (dt : Z) (w : World) : World :=
  mkWorld (kv w) (now w + Z.max 0 dt) (calls w).

(** When [key] expires, if it is live. *)
Definition expiresAt (key : string) (w : World) : option Z :=
  match kv w !! key with
  | Some (_, expiry) => if decide (now w < expiry) then Some expiry else None
  | None => None
  end.

(** An [async] method body: a tree of awaited commands. The continuation
    of an [await] receives the settlement of the awaited promise. *)
Inductive Task (A : Type) : Type :=
  | Return (a : A)
  | Throw (e : Exn)
  | AwaitGet (key : string) (k : Settled (option Entry) → Task A)
  | AwaitSet (key : string) (v : Entry) (ex : Z) (k : Settled unit → Task A)
  | AwaitDel (key : string) (k : Settled unit → Task A)
  | AwaitHook (requestId : string) (d : DbIdentifier)
      (k : Settled bool → Task A).
Arguments Return {A} a.
Arguments Throw {A} e.
Arguments AwaitGet {A} key k.
Arguments AwaitSet {A} key v ex k.
Arguments AwaitDel {A} key k.
Arguments AwaitHook {A} requestId d k.

(** [await p] outside any [try]: a rejection of [p] is thrown, which
    rejects the promise of the enclosing [async] method. *)
Definition rethrow {X A : Type} (k : X → Task A) (s : Settled X) : Task A :=
  match s with
  | Fulfilled x => k x
  | Rejected e => Throw e
  end.

Definition await_get {A} (key : string) (k : option Entry → Task A)
    : Task A := AwaitGet key (rethrow k).
Definition await_set {A} (key : string) (v : Entry) (ex : Z)
    (k : unit → Task A) : Task A := AwaitSet key v ex (rethrow k).
Definition await_del {A} (key : string) (k : unit → Task A) : Task A :=
  AwaitDel key (rethrow k).
Definition await_hook {A} (requestId : string) (d : DbIdentifier)
    (k : bool → Task A) : Task A := AwaitHook requestId d (rethrow k).

Definition keyPrefix : string := "unreq:".

Definition getKey (requestId : string) : string := keyPrefix +:+ requestId.

Section Methods.
(** [this.ttl], seconds. *)
Variable ttl : Z.

(** [register(requestId)] *)
Definition register (requestId : string) : Task unit :=
  let key := getKey requestId in
  let entry := mkEntry active None in
  await_set key entry ttl (λ _, Return tt).

(** [markForCancellation(requestId)] *)
Definition markForCancellation (requestId : string) : Task unit :=
  let key := getKey requestId in
  await_get key (λ entryJson,
  match entryJson with
  | None => Return tt
  | Some entry =>
      if decide (status entry = active) then
        let entry1 := mkEntry cancelling (dbIdentifier entry) in
        await_set key entry1 ttl (λ _,
        let finish :=
          let entry2 := mkEntry cancelled (dbIdentifier entry1) in
          await_set key entry2 ttl (λ _, Return tt) in
        match dbIdentifier entry1 with
        | Some d => await_hook requestId d (λ _, finish)
        | None => finish
        end)
      else Return tt
  end).

(** [associateDbIdentifier(requestId, dbIdentifier)] *)
Definition associateDbIdentifier (requestId : string)
    (d : option DbIdentifier) : Task unit :=
  let key := getKey requestId in
  await_get key (λ entryJson,
  match entryJson with
  | None => Throw (NoEntryFound requestId)
  | Some entry =>
      let entry1 := mkEntry (status entry) d in
      await_set key entry1 ttl (λ _, Return tt)
  end).

(** [markAsFinished(requestId)] *)
Definition markAsFinished (requestId : string) : Task unit :=
  let key := getKey requestId in
  await_del key (λ _, Return tt).

(** [getStatus(requestId)] *)
Definition getStatus (requestId : string) : Task Status :=
  let key := getKey requestId in
  await_get key (λ entryJson,
  match entryJson with
  | None => Return finished
  | Some entry => Return (status entry)
  end).
End Methods.

(** A command sent to the store. *)
Inductive Op : Type :=
  | OpGet (key : string)
  | OpSet (key : string)
  | OpDel (key : string).

(** The surroundings of a call: which store commands fail and with what
    (a failed command leaves the store as it was), and how the promise of
    the hook settles. *)
Record Env : Type := mkEnv {
  fault : Op → option Exn;
  hook : string → DbIdentifier → Settled bool
}.

(** A store that answers every command. *)
Definition reliable (h : string → DbIdentifier → Settled bool) : Env :=
  mkEnv (λ _, None) h.

(** One awaited command of a task: the command takes effect, the
    continuation runs up to the next [await]. For the hook the step
    stands for its invocation; what follows the settlement of its promise
    is the next command of the task. *)
Definition step {A} (env : Env) (t : Task A) (w : World) : Task A * World :=
  match t with
  | Return _ | Throw _ => (t, w)
  | AwaitGet key k =>
      match fault env (OpGet key) with
      | Some e => (k (Rejected e), w)
      | None => (k (Fulfilled (read key w)), w)
      end
  | AwaitSet key v ex k =>
      match fault env (OpSet key) with
      | Some e => (k (Rejected e), w)
      | None => (k (Fulfilled tt), write key v ex w)
      end
  | AwaitDel key k =>
      match fault env (OpDel key) with
      | Some e => (k (Rejected e), w)
      | None => (k (Fulfilled tt), remove key w)
      end
  | AwaitHook requestId d k =>
      (k (hook env requestId d), invoke requestId d w)
  end.

(** A call run to its end with no other call in between. *)
Fixpoint exec {A} (env : Env) (t : Task A) (w : World) : World * Settled A :=
  match t with
  | Return a => (w, Fulfilled a)
  | Throw e => (w, Rejected e)
  | AwaitGet key k =>
      match fault env (OpGet key) with
      | Some e => exec env (k (Rejected e)) w
      | None => exec env (k (Fulfilled (read key w))) w
      end
  | AwaitSet key v ex k =>
      match fault env (OpSet key) with
      | Some e => exec env (k (Rejected e)) w
      | None => exec env (k (Fulfilled tt)) (write key v ex w)
      end
  | AwaitDel key k =>
      match fault env (OpDel key) with
      | Some e => exec env (k (Rejected e)) w
      | None => exec env (k (Fulfilled tt)) (remove key w)
      end
  | AwaitHook requestId d k =>
      exec env (k (hook env requestId d)) (invoke requestId d w)
  end.

(** Calls in flight together: [interleave env sched (ts, w)] lets the
    task at each index of [sched] perform its next command, in turn. *)
Definition step_at (env : Env) (i : nat) (p : list (Task unit) * World)
    : list (Task unit) * World :=
  match p.1 !! i with
  | Some t => let '(t', w') := step env t p.2 in (<[i := t']> p.1, w')
  | None => p
  end.

Definition interleave (env : Env) (sched : list nat)
    (p : list (Task unit) * World) : list (Task unit) * World :=
  foldl (λ acc i, step_at env i acc) p sched.

(** [n] calls of [markForCancellation(requestId)], one after the other. *)
Fixpoint repeat_mark (env : Env) (ttl : Z) (requestId : string) (n : nat)
    (w : World) : World :=
  match n with
  | O => w
  | S n' =>
      repeat_mark env ttl requestId n'
        (exec env (markForCancellation ttl requestId) w).1
  end.

(** The status a reader finds under [requestId]'s key. *)
Definition status_of (requestId : string) (w : World) : Status :=
  match read (getKey requestId) w with
  | Some entry => status entry
  | None => finished
  end.

End Redis.

(** ** The middleware's use of [register] ([src/index.ts]) *)

Module Middleware.

(** What a registry method hands back: [undefined] for the synchronous
    in-memory methods, a promise for the Redis ones. *)
Inductive Handed : Type :=
  | Void
  | Promise (s : Settled unit).

(** [console.error(label, err)] lines. *)
Abbreviation Console := (list (string * Exn)).

(** [if (result && typeof result.catch === 'function')
       result.catch(err => console.error(label, err))] *)
Definition absorb (label : string) (result : Handed) (console : Console)
    : Console :=
  match result with
  | Promise (Rejected err) => console ++ [(label, err)]
  | Promise (Fulfilled _) => console
  | Void => console
  end.

(** The registration step of [cancellationMiddleware] over a Redis
    registry: call [register], attach the handler, go on. *)
Definition register_redis (env : Redis.Env) (ttl : Z) (requestId : string)
    (w : Redis.World) (console : Console) : Redis.World * Console :=
  let '(w', s) := Redis.exec env (Redis.register ttl requestId) w in
  (w', absorb "Failed to register request ID:" (Promise s) console).

(** The same step over an in-memory registry: [register] returns
    [undefined], no handler is attached. *)
Definition register_inMemory (requestId : string) (r : InMemory.Registry)
    (console : Console) : InMemory.Registry * Console :=
  (InMemory.register requestId r,
   absorb "Failed to register request ID:" Void console).

End Middleware.

(** ** The in-memory registry over time *)

Module Timing.
Import InMemory.

(** What every event keeps true of the timeouts: none is due later than
    the delay of [ttl] from now, and a handle recorded in [this.timers] has
    been handed out. *)
Record timely (r : Registry) : Prop := mkTimely {
  timely_due : ∀ h t, timeouts r !! h = Some t →
    t_due t <= now r + delay (ttl r);
  timely_recorded : ∀ id h, timers r !! id = Some h → (h < next_handle r)%nat
}.


(** The id a call names, for the events that are calls of a method. *)
Definition addressed (ev : Event) : option string :=
  match ev with
  | Register id | Associate id _ | Mark id | Finish id => Some id
  | Settle _ _ | Fire _ | Advance _ => None
  end.

End Timing.

(** ** Calls on the Redis registry, one after the other *)

Module Calls.
Import Redis.

(** A call of one of the methods that write. *)
Inductive Call : Type :=
  | CallRegister (requestId : string)
  | CallMark (requestId : string)
  | CallAssociate (requestId : string) (d : option DbIdentifier)
  | CallFinish (requestId : string).

Definition callee (c : Call) : string :=
  match c with
  | CallRegister id | CallMark id | CallAssociate id _ | CallFinish id => id
  end.

(** The body of the call, for a registry created with [ttl]. *)
Definition perform (ttl : Z) (c : Call) : Task unit :=
  match c with
  | CallRegister id => register ttl id
  | CallMark id => markForCancellation ttl id
  | CallAssociate id d => associateDbIdentifier ttl id d
  | CallFinish id => markAsFinished id
  end.

(** Calls awaited in sequence; a rejected call does not stop the next. *)
Definition sequence (env : Env) (ttl : Z) (cs : list Call) (w : World)
    : World :=
  foldl (λ acc c, (exec env (perform ttl c) acc).1) w cs.

End Calls.

(** ** Choosing and constructing a registry ([src/index.ts]) *)

Module Config.

(** ['in-memory' | 'redis'] *)
Inductive RegistryType : Type := in_memory | redis.

(** What the value given as [redisClient] is, as far as the checks made
    on it can tell. *)
Inductive ClientValue : Type :=
  | ClientNull                              (* null *)
  | ClientObject (set_is_function : bool)   (* an object *)
  | ClientFunction                          (* typeof 'function' *)
  | ClientPrimitive (truthy : bool).        (* string, number, boolean *)

(** [config.registry]; [ttlSeconds] in whole seconds. *)
Record RegistryConfig : Type := mkRegistryConfig {
  type : option RegistryType;
  ttlSeconds : option Z;
  redisClient : option ClientValue
}.

(** A registry as constructed: the in-memory one in its initial state, the
    Redis one with its [ttl]. *)
Inductive Instance : Type :=
  | InMemoryInstance (r : InMemory.Registry)
  | RedisInstance (ttl : Z).

Inductive Construction : Type :=
  | Constructed (i : Instance)
  | Fails (message : string).

(** [!registryConfig.redisClient] *)
Definition falsy (c : option ClientValue) : bool :=
  match c with
  | None | Some ClientNull | Some (ClientPrimitive false) => true
  | _ => false
  end.

(** [new InMemoryCancellationRegistry(hook, ttlSeconds = 3600)] *)
Definition newInMemory (ttlSeconds : option Z) : Instance :=
  InMemoryInstance (InMemory.create (default 3600 ttlSeconds * 1000)).

(** [new RedisCancellationRegistry(hook, redisOptions, ttlSeconds = 3600)] *)
Definition newRedis (redisOptions : option ClientValue)
    (ttlSeconds : option Z) : Construction :=
  match redisOptions with
  | Some (ClientObject true) =>
      Constructed (RedisInstance (default 3600 ttlSeconds))
  | _ => Fails "Redis client must be provided"
  end.

(** [createCancellationRegistry(config)], [registry] being
    [config.registry], [{}] when absent. *)
Definition createCancellationRegistry (registry : option RegistryConfig)
    : Construction :=
  let registryConfig := default (mkRegistryConfig None None None) registry in
  let ttl := ttlSeconds registryConfig in
  let registryType := default in_memory (type registryConfig) in
  match registryType with
  | redis =>
      if falsy (redisClient registryConfig) then
        Fails "Redis client must be provided when using redis registry type"
      else newRedis (redisClient registryConfig) ttl
  | in_memory => Constructed (newInMemory ttl)
  end.

End Config.

(** ** The handler wrappers of the adapters ([withDbCancellation]) *)

Module Adapters.

(** JavaScript truthiness of what [getDbIdentifier] returned. *)
Definition truthy (d : option DbIdentifier) : bool :=
  match d with
  | None | Some DbNull => false
  | Some (DbNum n) => negb (n =? 0)
  | Some (DbStr s) => negb (String.eqb s "")
  | Some DbEmpty | Some (DbWith _ _ _) => true
  end.

(** Truthiness of [req.requestId]: set and not the empty string. *)
Definition present (requestId : option string) : bool :=
  match requestId with
  | Some id => negb (String.eqb id "")
  | None => false
  end.

(** What the wrapper does about the handler it wraps. *)
Inductive Wrapped : Type :=
  | CallsHandler
  | RejectsBeforeHandler (e : Exn).

Definition label : string := "Failed to associate DB identifier:".
Definition label_fastify : string := "Failed to associate DB identifier".

(** Express ([src/adapters/express.ts]) over the in-memory registry, whose
    [associateDbIdentifier] is synchronous: what it throws leaves the
    [async] wrapper before the handler is reached. *)
Definition express_inMemory (requestId : option string)
    (d : option DbIdentifier) (r : InMemory.Registry)
    (console : Middleware.Console)
    : InMemory.Registry * Middleware.Console * Wrapped :=
  if negb (present requestId) then (r, console, CallsHandler)
  else if truthy d then
    match InMemory.associateDbIdentifier (default "" requestId) d r with
    | (r', Returns _) =>
        (r', Middleware.absorb label Middleware.Void console, CallsHandler)
    | (r', Throws e) => (r', console, RejectsBeforeHandler e)
    end
  else (r, console, CallsHandler).

(** Elysia ([src/adapters/elysia.ts]): the registry is looked up in
    [context.app.store]. *)
Definition elysia_inMemory (requestId : option string)
    (d : option DbIdentifier) (store : option InMemory.Registry)
    (console : Middleware.Console)
    : option InMemory.Registry * Middleware.Console * Wrapped :=
  match store with
  | None => (None, console, CallsHandler)
  | Some r =>
      let '(r', console', res) := express_inMemory requestId d r console in
      (Some r', console', res)
  end.

(** Fastify ([src/adapters/fastify.ts]): the call is made and awaited
    inside [try], what it throws is logged. *)
Definition fastify_inMemory (requestId : option string)
    (d : option DbIdentifier) (r : InMemory.Registry)
    (log : Middleware.Console)
    : InMemory.Registry * Middleware.Console * Wrapped :=
  if present requestId && truthy d then
    match InMemory.associateDbIdentifier (default "" requestId) d r with
    | (r', Returns _) => (r', log, CallsHandler)
    | (r', Throws e) => (r', log ++ [(label_fastify, e)], CallsHandler)
    end
  else (r, log, CallsHandler).

(** Express and Elysia over the Redis registry: a handler is attached to
    the promise and the wrapped handler is called without waiting for it;
    the store and console are those once the call has ended. *)
Definition express_redis (env : Redis.Env) (ttl : Z)
    (requestId : option string) (d : option DbIdentifier) (w : Redis.World)
    (console : Middleware.Console)
    : Redis.World * Middleware.Console * Wrapped :=
  if negb (present requestId) then (w, console, CallsHandler)
  else if truthy d then
    let '(w', s) :=
      Redis.exec env
        (Redis.associateDbIdentifier ttl (default "" requestId) d) w in
    (w', Middleware.absorb label (Middleware.Promise s) console, CallsHandler)
  else (w, console, CallsHandler).

(** Fastify over the Redis registry: the call is awaited before the
    handler runs. *)
Definition fastify_redis (env : Redis.Env) (ttl : Z)
    (requestId : option string) (d : option DbIdentifier) (w : Redis.World)
    (log : Middleware.Console)
    : Redis.World * Middleware.Console * Wrapped :=
  if present requestId && truthy d then
    match Redis.exec env
            (Redis.associateDbIdentifier ttl (default "" requestId) d) w with
    | (w', Fulfilled _) => (w', log, CallsHandler)
    | (w', Rejected e) => (w', log ++ [(label_fastify, e)], CallsHandler)
    end
  else (w, log, CallsHandler).

End Adapters.

(** ** The bundled hooks ([src/examples/dbHooks]) *)

Module Hooks.

(** [dbIdentifier.name]: [undefined] on anything but an object that has
    the field. *)
Fixpoint field (name : string) (d : DbIdentifier) : option DbIdentifier :=
  match d with
  | DbWith f v rest => if decide (f = name) then Some v else field name rest
  | _ => None
  end.

(** The guard [!dbIdentifier || typeof dbIdentifier.name !== 'number']
    passed: the number found. *)
Definition number_in (name : string) (d : DbIdentifier) : option Z :=
  if Adapters.truthy (Some d) then
    match field name d with
    | Some (DbNum n) => Some n
    | _ => None
    end
  else None.

(** [console.log], [console.warn], [console.error], with the request id
    the line is about. *)
Inductive Level : Type := log | warn | error.

(** What [pool.query] resolves with, as far as
    [result.rows?.[0]?.pg_cancel_backend === true] can tell. *)
Inductive Row : Type :=
  | RowNullish
  | RowWith (pg_cancel_backend_is_true : bool).
Inductive PgResult : Type :=
  | PgNullish                              (* [result.rows] throws *)
  | PgResultWith (rows : option (list Row)).

Definition pg_success (result : PgResult) : Completion bool :=
  match result with
  | PgNullish => Throws (External "TypeError")
  | PgResultWith (Some (RowWith b :: _)) => Returns b
  | PgResultWith _ => Returns false
  end.

(** The common shape of the three hooks: guard, query, reading of the
    result, all inside one [try] whose [catch] returns [false]. *)
Definition guarded {R : Type} (name : string) (query : Z → Settled R)
    (success : R → Completion bool) (requestId : string) (d : DbIdentifier)
    : list (Level * string) * Settled bool :=
  match number_in name d with
  | None => ([(error, requestId)], Fulfilled false)
  | Some n =>
      match query n with
      | Rejected _ => ([(error, requestId)], Fulfilled false)
      | Fulfilled result =>
          match success result with
          | Throws _ => ([(error, requestId)], Fulfilled false)
          | Returns true => ([(log, requestId)], Fulfilled true)
          | Returns false => ([(warn, requestId)], Fulfilled false)
          end
      end
  end.

(** [createPostgresCancellationHook(pool)], [query pid] being
    [pool.query('SELECT pg_cancel_backend($1)', [pid])]. *)
Definition createPostgresCancellationHook (query : Z → Settled PgResult)
    : string → DbIdentifier → list (Level * string) * Settled bool :=
  guarded "pid" query pg_success.

(** What [pool.execute] resolves with, as far as [const [result] = ...]
    and [!!result] can tell. *)
Inductive MySqlResult : Type :=
  | MyNotIterable                    (* the destructuring throws *)
  | MyFirst (truthy : bool).

Definition mysql_success (result : MySqlResult) : Completion bool :=
  match result with
  | MyNotIterable => Throws (External "TypeError")
  | MyFirst b => Returns b
  end.

(** [createMySqlCancellationHook(pool)], [execute threadId] being
    [pool.execute('KILL QUERY ?', [threadId])]. *)
Definition createMySqlCancellationHook (execute : Z → Settled MySqlResult)
    : string → DbIdentifier → list (Level * string) * Settled bool :=
  guarded "threadId" execute mysql_success.

(** What [db.command] resolves with, as far as [result?.ok === 1] can
    tell. *)
Inductive MongoResult : Type :=
  | MongoNullish
  | MongoWith (ok_is_1 : bool).

Definition mongo_success (result : MongoResult) : Completion bool :=
  match result with
  | MongoNullish => Returns false
  | MongoWith b => Returns b
  end.

(** [createMongoDbCancellationHook(db)], [command op] being
    [db.command({ killOp: 1, op })]. *)
Definition createMongoDbCancellationHook (command : Z → Settled MongoResult)
    : string → DbIdentifier → list (Level * string) * Settled bool :=
  guarded "operationId" command mongo_success.

(** A hook as the registries see it: the settlement of its promise. *)
Definition settlement
    (hook : string → DbIdentifier → list (Level * string) * Settled bool)
    : string → DbIdentifier → Settled bool :=
  λ requestId d, (hook requestId d).2.

End Hooks.

(** ** The tracing integration ([src/otel.ts]) *)

Module OTel.

(** An attribute value; [AttrJson d] is the text [JSON.stringify(d)]. *)
Inductive Attr : Type :=
  | AttrText (s : string)
  | AttrNumber (n : Z)
  | AttrFlag (b : bool)
  | AttrJson (d : option DbIdentifier).

(** [{ code: SpanStatusCode.OK }] or
    [{ code: SpanStatusCode.ERROR, message }] *)
Inductive SpanStatus : Type :=
  | StatusOk
  | StatusError (message : string).

(** What a span was asked to do, in the order of the calls. *)
Inductive SpanOp : Type :=
  | AddEvent (name : string) (attributes : list (string * Attr))
  | SetStatus (s : SpanStatus)
  | RecordException (message : string)
  | End.

#[global] Instance SpanOp_inhabited : Inhabited SpanOp := populate End.

(** A span started by [tracer.startSpan(name, { attributes })]. *)
Record Span : Type := mkSpan {
  span_name : string;
  span_attributes : list (string * Attr);
  span_ops : list SpanOp
}.

(** [OTelIntegration]: the spans started so far, by order of creation,
    and [this.spansByRequestId]. *)
Record Integration : Type := mkIntegration {
  spans : list Span;
  spansByRequestId : gmap string nat
}.

(** [new OTelIntegration()] *)
Definition create : Integration := mkIntegration [] ∅.

(** [span.op(...)] on the span at [l]. *)
Definition tell (l : nat) (ops : list SpanOp) (i : Integration)
    : Integration :=
  mkIntegration
    (alter (λ sp, mkSpan (span_name sp) (span_attributes sp)
                    (span_ops sp ++ ops)) l (spans i))
    (spansByRequestId i).

(** [createRequestSpan(requestId, method, url)] *)
Definition createRequestSpan (requestId method url : string)
    (i : Integration) : Integration :=
  let span := mkSpan ("HTTP " +:+ method)
                [("http.method", AttrText method);
                 ("http.url", AttrText url);
                 ("request.id", AttrText requestId)] [] in
  mkIntegration (spans i ++ [span])
    (<[requestId := length (spans i)]> (spansByRequestId i)).

(** [markRequestCancelled(requestId)], [now] being [Date.now()]. *)
Definition markRequestCancelled (requestId : string) (now : Z)
    (i : Integration) : Integration :=
  match spansByRequestId i !! requestId with
  | None => i
  | Some l =>
      tell l [AddEvent "request.cancelled"
                [("request.id", AttrText requestId);
                 ("cancelled.timestamp", AttrNumber now)]] i
  end.

(** [markDbOperationAssociated(requestId, dbIdentifier)] *)
Definition markDbOperationAssociated (requestId : string)
    (d : option DbIdentifier) (i : Integration) : Integration :=
  match spansByRequestId i !! requestId with
  | None => i
  | Some l =>
      tell l [AddEvent "db.operation.associated"
                [("request.id", AttrText requestId);
                 ("db.identifier", AttrJson d)]] i
  end.

(** [markDbOperationCancelled(requestId, dbIdentifier, success)] *)
Definition markDbOperationCancelled (requestId : string)
    (d : option DbIdentifier) (success : bool) (i : Integration)
    : Integration :=
  match spansByRequestId i !! requestId with
  | None => i
  | Some l =>
      tell l [AddEvent "db.operation.cancellation.attempt"
                [("request.id", AttrText requestId);
                 ("db.identifier", AttrJson d);
                 ("cancellation.success", AttrFlag success)]] i
  end.

(** The status [endRequestSpan] sets: [error] is the message of the
    [Error] given, [statusCode] a whole number. *)
Definition final_status (statusCode : option Z) (error : option string)
    : list SpanOp :=
  match error with
  | Some message => [SetStatus (StatusError message); RecordException message]
  | None =>
      match statusCode with
      | Some n =>
          if negb (n =? 0) && (400 <=? n) then
            [SetStatus (StatusError ("HTTP status code " +:+ pretty n))]
          else [SetStatus StatusOk]
      | None => [SetStatus StatusOk]
      end
  end.

(** [endRequestSpan(requestId, statusCode?, error?)] *)
Definition endRequestSpan (requestId : string) (statusCode : option Z)
    (error : option string) (i : Integration) : Integration :=
  match spansByRequestId i !! requestId with
  | None => i
  | Some l =>
      let i1 := tell l (final_status statusCode error ++ [End]) i in
      mkIntegration (spans i1) (delete requestId (spansByRequestId i1))
  end.

(** A call of one of the methods. *)
Inductive Call : Type :=
  | CreateRequestSpan (requestId method url : string)
  | MarkRequestCancelled (requestId : string) (now : Z)
  | MarkDbOperationAssociated (requestId : string) (d : option DbIdentifier)
  | MarkDbOperationCancelled (requestId : string) (d : option DbIdentifier)
      (success : bool)
  | EndRequestSpan (requestId : string) (statusCode : option Z)
      (error : option string).

Definition call (c : Call) (i : Integration) : Integration :=
  match c with
  | CreateRequestSpan id m u => createRequestSpan id m u i
  | MarkRequestCancelled id now => markRequestCancelled id now i
  | MarkDbOperationAssociated id d => markDbOperationAssociated id d i
  | MarkDbOperationCancelled id d b => markDbOperationCancelled id d b i
  | EndRequestSpan id sc err => endRequestSpan id sc err i
  end.

Definition calls (cs : list Call) (i : Integration) : Integration :=
  foldl (λ acc c, call c acc) i cs.

(** [End] is the last thing a span was asked, if it was asked at all. *)
Definition ended_last (ops : list SpanOp) : Prop :=
  ∀ k, ops !! k = Some End → S k = length ops.

(** What every call keeps true: a tracked span exists and has not been
    ended, two ids never track the same span, and every span is ended at
    most once, last. *)
Record tidy (i : Integration) : Prop := mkTidy {
  tidy_tracked : ∀ id l, spansByRequestId i !! id = Some l →
    ∃ sp, spans i !! l = Some sp ∧ End ∉ span_ops sp;
  tidy_inj : ∀ id1 id2 l, spansByRequestId i !! id1 = Some l →
    spansByRequestId i !! id2 = Some l → id1 = id2;
  tidy_ended : ∀ l sp, spans i !! l = Some sp → ended_last (span_ops sp)
}.

End OTel.

(** ** The Express middleware ([src/index.ts]) over the in-memory registry *)

Module Express.

(** [String.prototype.toLowerCase] on the ASCII letters, which is what it
    does to a header name. *)
Definition lower_ascii (c : Ascii.ascii) : Ascii.ascii :=
  let n := Ascii.nat_of_ascii c in
  if ((65 <=? n) && (n <=? 90))%nat then Ascii.ascii_of_nat (n + 32) else c.

Fixpoint toLowerCase (s : string) : string :=
  match s with
  | EmptyString => EmptyString
  | String c s' => String (lower_ascii c) (toLowerCase s')
  end.

(** The parts of [req] the middleware reads. *)
Record Request : Type := mkRequest {
  headers : gmap string string;
  method : string;
  url : string
}.

(** What the middleware closes over: the registry, the tracing
    integration when [otelTracerProvider] is configured, and the console. *)
Record Server : Type := mkServer {
  registry : InMemory.Registry;
  otel : option OTel.Integration;
  console : Middleware.Console
}.

(** What the middleware leaves on [req] and [res]. *)
Record Handled : Type := mkHandled {
  requestId : string;                     (* req.requestId *)
  response_header : string * string       (* res.setHeader(name, value) *)
}.

(** [headerId || randomUUID()], [uuid] being what [randomUUID()] gives. *)
Definition choose (requestIdHeader uuid : string) (req : Request) : string :=
  match headers req !! toLowerCase requestIdHeader with
  | Some headerId => if String.eqb headerId "" then uuid else headerId
  | None => uuid
  end.

(** [cancellationMiddleware(req, res, next)] up to [next()]. *)
Definition cancellationMiddleware (requestIdHeader : option string)
    (uuid : string) (req : Request) (s : Server) : Server * Handled :=
  let name := default "x-request-id" requestIdHeader in
  let id := choose name uuid req in
  let r := InMemory.register id (registry s) in
  let c := Middleware.absorb "Failed to register request ID:"
             Middleware.Void (console s) in
  let o := OTel.createRequestSpan id (method req) (url req) <$> otel s in
  (mkServer r o c, mkHandled id (name, id)).

(** The listener of [req.on('close', ...)], [now] being [Date.now()]. The
    promise of [markForCancellation] may still be pending; its handler
    runs in [on_settle]. *)
Definition on_close (id : string) (now : Z) (s : Server) : Server :=
  let o := OTel.markRequestCancelled id now <$> otel s in
  let '(r, cancelResult) := InMemory.markForCancellation id (registry s) in
  let c := match cancelResult with
           | Some settled =>
               Middleware.absorb "Failed to mark request for cancellation:"
                 (Middleware.Promise settled) (console s)
           | None => console s
           end in
  mkServer r o c.

(** The hook awaited by the [k]-th suspended call settles: the call goes
    on, and the handler attached in [on_close] sees its outcome. *)
Definition on_settle (k : nat) (outcome : Settled bool) (s : Server)
    : Server :=
  let '(r, cancelResult) := InMemory.resume k outcome (registry s) in
  let c := match cancelResult with
           | Some settled =>
               Middleware.absorb "Failed to mark request for cancellation:"
                 (Middleware.Promise settled) (console s)
           | None => console s
           end in
  mkServer r (otel s) c.

(** The listener of [res.on('finish', ...)]. *)
Definition on_finish (id : string) (statusCode : Z) (s : Server) : Server :=
  let o := OTel.endRequestSpan id (Some statusCode) None <$> otel s in
  let r := InMemory.markAsFinished id (registry s) in
  let c := Middleware.absorb "Failed to mark request as finished:"
             Middleware.Void (console s) in
  mkServer r o c.

End Express.

(** ** Scenarios *)

Module Scenario.

(** [{ pid: 42 }] *)
Definition pid42 : DbIdentifier := DbWith "pid" (DbNum 42) DbEmpty.

(** Hooks that settle the same way whatever they are given. *)
Definition resolves (b : bool) : string → DbIdentifier → Settled bool :=
  λ _ _, Fulfilled b.
Definition rejects (err : Exn) : string → DbIdentifier → Settled bool :=
  λ _ _, Rejected err.

(** A store none of whose commands gets through. *)
Definition store_down (err : Exn) : Redis.Env :=
  Redis.mkEnv (λ _, Some err) (resolves true).

(** In memory, default [ttlSeconds = 3600]: register ["r1"], associate
    [{ pid: 42 }]. *)
Definition mem_r1 : InMemory.Registry :=
  InMemory.run
    [InMemory.Register "r1"; InMemory.Associate "r1" (Some pid42)]
    (InMemory.create 3600000).

(** ... and the disconnect: [markForCancellation("r1")] now waits for the
    hook. *)
Definition mem_r1_marked : InMemory.Registry :=
  InMemory.step (InMemory.Mark "r1") mem_r1.

(** In memory: register ["r2"], cancel it (no identifier, so the call
    completes at once). *)
Definition mem_r2_cancelled : InMemory.Registry :=
  InMemory.run [InMemory.Register "r2"; InMemory.Mark "r2"]
    (InMemory.create 3600000).

(** Redis, default [ttlSeconds = 3600]: register ["r1"], associate
    [{ pid: 42 }]. *)
Definition redis_r1 : Redis.World :=
  let env := Redis.reliable (resolves true) in
  let w := (Redis.exec env (Redis.register 3600 "r1") Redis.empty).1 in
  (Redis.exec env (Redis.associateDbIdentifier 3600 "r1" (Some pid42)) w).1.

(** Two calls of [markForCancellation("r1")] in flight together, each
    performing one command in turn. *)
Definition redis_two_marks : list (Redis.Task unit) * Redis.World :=
  Redis.interleave (Redis.reliable (resolves true))
    [0; 1; 0; 1; 0; 1; 0; 1]%nat
    ([Redis.markForCancellation 3600 "r1";
      Redis.markForCancellation 3600 "r1"], redis_r1).

End Scenario.

(** * Properties *)

(** ** The order of statuses and the count of invocations *)

Lemma forward_refl s : forward s s.
Proof. unfold forward. lia. Qed.

Lemma forward_finished s : forward s finished.
Proof. destruct s; unfold forward; simpl; lia. Qed.

Lemma forward_from_active s : forward active s.
Proof. unfold forward. simpl. lia. Qed.

Lemma invocations_snoc_eq id d log :
  invocations id (log ++ [(id, d)]) = S (invocations id log).
Proof.
  unfold invocations. rewrite filter_app, length_app.
  rewrite filter_cons_True by done. simpl. lia.
Qed.

Lemma invocations_snoc_ne id id' d log :
  id' ≠ id → invocations id (log ++ [(id', d)]) = invocations id log.
Proof.
  intros Hne. unfold invocations. rewrite filter_app, length_app.
  rewrite filter_cons_False by done. simpl. lia.
Qed.

(** ** Facts about the in-memory registry *)

Module InMemoryFacts.
Import InMemory.

Lemma lookup_set_status l s r j :
  objects (set_status l s r) !! j =
  if decide (l = j) then (λ e, mkEntry s (dbIdentifier e)) <$> objects r !! l
  else objects r !! j.
Proof. unfold set_status. simpl. apply list_lookup_alter. Qed.

Lemma lookup_set_dbIdentifier l d r j :
  objects (set_dbIdentifier l d r) !! j =
  if decide (l = j) then (λ e, mkEntry (status e) d) <$> objects r !! l
  else objects r !! j.
Proof. unfold set_dbIdentifier. simpl. apply list_lookup_alter. Qed.

Lemma get_entry_Some id r l e :
  get_entry id r = Some (l, e) ↔
  entries r !! id = Some l ∧ objects r !! l = Some e.
Proof.
  unfold get_entry. split.
  - destruct (entries r !! id) as [l'|]; [|done].
    destruct (objects r !! l') as [e'|] eqn:E; [|done].
    intros [= <- <-]. done.
  - intros [-> ->]. done.
Qed.

Lemma get_entry_wf_None id r :
  wf r → get_entry id r = None → entries r !! id = None.
Proof.
  intros W. unfold get_entry.
  destruct (entries r !! id) as [l|] eqn:E; [|done].
  destruct (wf_mapped r W id l E) as (e & -> & _). done.
Qed.

Lemma getStatus_Some id r l e :
  get_entry id r = Some (l, e) → getStatus id r = status e.
Proof. unfold getStatus. by intros ->. Qed.

Lemma getStatus_None id r :
  get_entry id r = None → getStatus id r = finished.
Proof. unfold getStatus. by intros ->. Qed.

Lemma getStatus_unmapped id r :
  entries r !! id = None → getStatus id r = finished.
Proof. intros H. apply getStatus_None. unfold get_entry. by rewrite H. Qed.

(** *** Well-formedness is an invariant *)

Lemma wf_create ttl_ms : wf (create ttl_ms).
Proof.
  split; simpl.
  - intros id l H. by rewrite lookup_empty in H.
  - intros id1 id2 l H. by rewrite lookup_empty in H.
  - intros fr H. by apply elem_of_nil in H.
  - intros h t H. by rewrite lookup_empty in H.
  - intros id. by rewrite !lookup_empty.
Qed.

Lemma wf_register id r : wf r → wf (register id r).
Proof.
  intros [Hm Hi Ha Hh Ht]. split; simpl.
  - intros id' l. rewrite lookup_insert. case_decide as E.
    + intros [= <-]. exists (mkEntry active None).
      split; [|done]. rewrite lookup_app_r; [|lia].
      by rewrite Nat.sub_diag.
    + intros H. destruct (Hm _ _ H) as (e & He & Hs).
      exists e. split; [|done]. by apply lookup_app_l_Some.
  - intros id1 id2 l. rewrite !lookup_insert.
    case_decide as E1; case_decide as E2; subst; try done.
    + intros [= <-] H. destruct (Hm _ _ H) as (e & He & _).
      apply lookup_lt_Some in He. lia.
    + intros H [= <-]. destruct (Hm _ _ H) as (e & He & _).
      apply lookup_lt_Some in He. lia.
    + apply Hi.
  - intros fr H. destruct (Ha _ H) as (e & He & Hs).
    exists e. split; [|done]. by apply lookup_app_l_Some.
  - intros h t. rewrite lookup_insert. case_decide as E.
    + intros _. subst. lia.
    + intros H. apply Hh in H. lia.
  - intros id'. rewrite !lookup_insert. case_decide; [done|apply Ht].
Qed.

Lemma wf_set_status l s r :
  wf r → s ≠ finished → s ≠ active → wf (set_status l s r).
Proof.
  intros [Hm Hi Ha Hh Ht] Hf Hact. split; simpl; try done.
  - intros id l' H. destruct (Hm _ _ H) as (e & He & Hs).
    rewrite list_lookup_alter. case_decide; subst.
    + rewrite He. simpl. eauto.
    + eauto.
  - intros fr H. destruct (Ha _ H) as (e & He & Hs).
    rewrite list_lookup_alter. case_decide as E.
    + rewrite E, He. simpl. eauto.
    + eauto.
Qed.

Lemma wf_set_dbIdentifier l d r : wf r → wf (set_dbIdentifier l d r).
Proof.
  intros [Hm Hi Ha Hh Ht]. split; simpl; try done.
  - intros id l' H. destruct (Hm _ _ H) as (e & He & Hs).
    rewrite list_lookup_alter. case_decide; subst.
    + rewrite He. simpl. eauto.
    + eauto.
  - intros fr H. destruct (Ha _ H) as (e & He & Hs).
    rewrite list_lookup_alter. case_decide as E.
    + rewrite E, He. simpl. eauto.
    + eauto.
Qed.

Lemma wf_associate id d r : wf r → wf (associateDbIdentifier id d r).1.
Proof.
  intros W. unfold associateDbIdentifier.
  destruct (get_entry id r) as [[l e]|]; simpl; [|done].
  by apply wf_set_dbIdentifier.
Qed.

Lemma wf_mark id r : wf r → wf (markForCancellation id r).1.
Proof.
  intros W. unfold markForCancellation.
  destruct (get_entry id r) as [[l e]|] eqn:G; simpl; [|done].
  case_decide as Hact; simpl; [|done].
  destruct (dbIdentifier e) as [db|] eqn:D; simpl.
  - pose proof (wf_set_status l cancelling r W ltac:(done) ltac:(done))
      as [Hm Hi Ha Hh Ht].
    split; simpl; try done.
    intros fr. rewrite elem_of_app, list_elem_of_singleton.
    intros [H| ->]; [by apply Ha|]. simpl.
    apply get_entry_Some in G as [_ Ho].
    exists (mkEntry cancelling (dbIdentifier e)).
    rewrite list_lookup_alter, decide_True by done.
    rewrite Ho. done.
  - apply wf_set_status; [|done..]. by apply wf_set_status.
Qed.

Lemma wf_with_awaiting a r :
  wf r → a ⊆ awaiting r → wf (with_awaiting a r).
Proof.
  intros [Hm Hi Ha Hh Ht] Hsub. split; simpl; try done.
  intros fr H. apply Ha. by apply Hsub.
Qed.

Lemma wf_resume k o r : wf r → wf (resume k o r).1.
Proof.
  intros W. unfold resume.
  destruct (awaiting r !! k) as [fr|] eqn:E; simpl; [|done].
  assert (wf (with_awaiting (delete k (awaiting r)) r)) as W'.
  { apply wf_with_awaiting; [done|].
    apply sublist_subseteq, sublist_delete. }
  destruct o; simpl; [|done].
  by apply wf_set_status.
Qed.

Lemma wf_finish id r : wf r → wf (markAsFinished id r).
Proof.
  intros W. unfold markAsFinished.
  destruct (get_entry id r) as [[l e]|] eqn:G; [|done].
  apply get_entry_Some in G as [Hl Ho].
  destruct W as [Hm Hi Ha Hh Ht]. simpl.
  destruct (timers r !! id) as [h|]; (split; simpl;
    [ intros id' l'; rewrite lookup_delete; case_decide as E; [done|];
      intros H; destruct (Hm _ _ H) as (e' & He' & Hs');
      rewrite list_lookup_alter; case_decide as E';
      [ subst l'; exfalso; apply E; eapply Hi; eauto | eauto ]
    | intros id1 id2 l'; rewrite !lookup_delete;
      repeat case_decide; try done; apply Hi
    | intros fr H; destruct (Ha _ H) as (e' & He' & Hs');
      rewrite list_lookup_alter; case_decide as E';
      [ rewrite E', He'; simpl; eauto | eauto ]
    |
    | intros id'; rewrite !lookup_delete; case_decide; [done|apply Ht] ]).
  - intros h' t. rewrite lookup_delete. case_decide; [done|apply Hh].
  - apply Hh.
Qed.

Lemma wf_fire h r : wf r → wf (fire h r).
Proof.
  intros W. unfold fire.
  destruct (timeouts r !! h) as [t|]; [|done].
  case_decide; [|done].
  destruct W as [Hm Hi Ha Hh Ht]. split; simpl.
  - intros id' l'. rewrite lookup_delete. case_decide; [done|apply Hm].
  - intros id1 id2 l'. rewrite !lookup_delete.
    repeat case_decide; try done. apply Hi.
  - apply Ha.
  - intros h' t'. rewrite lookup_delete. case_decide; [done|apply Hh].
  - intros id'. rewrite !lookup_delete. case_decide; [done|apply Ht].
Qed.

Lemma wf_advance dt r : wf r → wf (advance dt r).
Proof. intros [Hm Hi Ha Hh Ht]. by split. Qed.

Lemma wf_step ev r : wf r → wf (step ev r).
Proof.
  destruct ev; simpl.
  - apply wf_register.
  - apply wf_associate.
  - apply wf_mark.
  - apply wf_resume.
  - apply wf_finish.
  - apply wf_fire.
  - apply wf_advance.
Qed.

Lemma reachable_wf r : reachable r → wf r.
Proof.
  induction 1 as [ttl_ms|ev r _ IH].
  - apply wf_create.
  - by apply wf_step.
Qed.

Lemma run_cons ev evs r : run (ev :: evs) r = run evs (step ev r).
Proof. done. Qed.

Lemma run_app evs1 evs2 r : run (evs1 ++ evs2) r = run evs2 (run evs1 r).
Proof. unfold run. apply foldl_app. Qed.

Lemma reachable_run evs r : reachable r → reachable (run evs r).
Proof.
  revert r. induction evs as [|ev evs IH]; intros r H; simpl; [done|].
  apply IH. by constructor.
Qed.

Lemma history_wf ttl_ms history : wf (run history (create ttl_ms)).
Proof. apply reachable_wf, reachable_run, reachable_create. Qed.

(** *** The reported status only moves forward *)

Lemma forward_getStatus id r r' :
  wf r →
  entries r' !! id = None ∨
  (entries r' !! id = entries r !! id ∧
   ∀ l e, entries r !! id = Some l → objects r !! l = Some e →
     ∃ e', objects r' !! l = Some e' ∧ forward (status e) (status e')) →
  forward (getStatus id r) (getStatus id r').
Proof.
  intros W [H|[H1 H2]].
  - rewrite (getStatus_unmapped id r') by done. apply forward_finished.
  - unfold getStatus, get_entry. rewrite H1.
    destruct (entries r !! id) as [l|] eqn:E; [|apply forward_refl].
    destruct (wf_mapped r W id l E) as (e & He & _).
    destruct (H2 l e eq_refl He) as (e' & He' & Hf).
    by rewrite He, He'.
Qed.

Lemma getStatus_register_ne id id' r :
  wf r → id ≠ id' → getStatus id (register id' r) = getStatus id r.
Proof.
  intros W Hne. unfold getStatus, get_entry. simpl.
  rewrite lookup_insert_ne by done.
  destruct (entries r !! id) as [l|] eqn:E; [|done].
  destruct (wf_mapped r W id l E) as (e & He & _).
  by rewrite (lookup_app_l_Some _ _ _ _ He), He.
Qed.

Lemma getStatus_register id r : getStatus id (register id r) = active.
Proof.
  unfold getStatus, get_entry. simpl. rewrite lookup_insert_eq.
  rewrite lookup_app_r by lia. by rewrite Nat.sub_diag.
Qed.

Lemma step_forward ev id r :
  wf r → ev ≠ Register id →
  forward (getStatus id r) (getStatus id (step ev r)).
Proof.
  intros W Hev. destruct ev as [id'|id' d|id'|k o|id'|h|dt]; simpl.
  - rewrite getStatus_register_ne; [apply forward_refl|done|congruence].
  - unfold associateDbIdentifier.
    destruct (get_entry id' r) as [[l' e']|]; simpl; [|apply forward_refl].
    apply forward_getStatus; [done|]. right. split; [done|].
    intros l e _ He. rewrite lookup_set_dbIdentifier. case_decide as E.
    + subst. rewrite He. simpl. eexists. split; [done|]. apply forward_refl.
    + eexists. split; [done|]. apply forward_refl.
  - unfold markForCancellation.
    destruct (get_entry id' r) as [[l' e']|] eqn:G; simpl;
      [|apply forward_refl].
    apply get_entry_Some in G as [Hl' He'].
    case_decide as Hact; simpl; [|apply forward_refl].
    apply forward_getStatus; [done|]. right.
    destruct (dbIdentifier e') as [db|]; simpl; (split; [done|]);
      intros l e _ He; simpl; rewrite list_lookup_alter.
    + case_decide as E.
      * subst. rewrite He. simpl. eexists. split; [done|].
        assert (e = e') as -> by congruence.
        rewrite Hact. unfold forward. simpl. lia.
      * eexists. split; [done|]. apply forward_refl.
    + case_decide as E.
      * subst. rewrite list_lookup_alter, decide_True by done.
        rewrite He. simpl. eexists. split; [done|].
        assert (e = e') as -> by congruence.
        rewrite Hact. unfold forward. simpl. lia.
      * rewrite list_lookup_alter, decide_False by done.
        eexists. split; [done|]. apply forward_refl.
  - unfold resume.
    destruct (awaiting r !! k) as [fr|]; simpl; [|apply forward_refl].
    destruct o as [b|err]; simpl.
    + apply forward_getStatus; [done|]. right. split; [done|].
      intros l e Hl He. simpl. rewrite list_lookup_alter. case_decide as E.
      * rewrite E, He. simpl. eexists. split; [done|].
        destruct (wf_mapped r W id l Hl) as (e0 & He0 & Hs).
        assert (e0 = e) as -> by congruence.
        unfold forward. destruct (status e); simpl; try lia. done.
      * eexists. split; [done|]. apply forward_refl.
    + apply forward_getStatus; [done|]. right. split; [done|].
      intros l e _ He. simpl. eexists. split; [done|]. apply forward_refl.
  - unfold markAsFinished.
    destruct (get_entry id' r) as [[l' e']|] eqn:G; [|apply forward_refl].
    apply get_entry_Some in G as [Hl' He'].
    apply forward_getStatus; [done|].
    destruct (decide (id' = id)) as [->|Hne].
    + left. simpl. destruct (timers r !! id); simpl; apply lookup_delete_eq.
    + right. simpl.
      assert (∀ l e, entries r !! id = Some l → objects r !! l = Some e →
        ∃ e0, alter (λ e1, mkEntry finished (dbIdentifier e1)) l'
                (objects r) !! l = Some e0 ∧ forward (status e) (status e0))
        as K.
      { intros l e Hl He. rewrite list_lookup_alter. case_decide as E.
        - subst. exfalso. apply Hne. eapply (wf_inj r W); eauto.
        - eexists. split; [done|]. apply forward_refl. }
      destruct (timers r !! id'); simpl;
        (split; [by rewrite lookup_delete_ne|done]).
  - unfold fire. destruct (timeouts r !! h) as [t|]; [|apply forward_refl].
    case_decide; [|apply forward_refl].
    apply forward_getStatus; [done|]. simpl.
    destruct (decide (t_requestId t = id)) as [->|Hne].
    + left. apply lookup_delete_eq.
    + right. split; [by rewrite lookup_delete_ne|].
      intros l e _ He. eexists. split; [done|]. apply forward_refl.
  - apply forward_refl.
Qed.

(** *** Counting the invocations of the hook *)

Section OneRequest.
Variables (requestId : string) (l : nat) (n : nat).

Lemma mark_first r :
  unmarked requestId l n r →
  marked requestId l n (markForCancellation requestId r).1.
Proof.
  intros (W & Hl & (e & He & Hs & [d Hd]) & Hn).
  unfold markForCancellation, get_entry. rewrite Hl, He.
  rewrite decide_True by done. rewrite Hd. simpl.
  split; [done|]. split.
  - exists (mkEntry cancelling (dbIdentifier e)). split; [|done].
    simpl. by rewrite list_lookup_alter, decide_True, He.
  - simpl. by rewrite invocations_snoc_eq, Hn.
Qed.

Lemma mark_again r :
  marked requestId l n r → (markForCancellation requestId r).1 = r.
Proof.
  intros (Hl & (e & He & Hs) & Hn).
  unfold markForCancellation, get_entry. rewrite Hl, He.
  by rewrite decide_False.
Qed.

Lemma settle_before k o r :
  unmarked requestId l n r → unmarked requestId l n (resume k o r).1.
Proof.
  intros (W & Hl & (e & He & Hs & Hd) & Hn).
  split; [by apply wf_resume|].
  unfold resume. destruct (awaiting r !! k) as [fr|] eqn:E; simpl;
    [|by eauto 10].
  destruct o as [b|err]; simpl; [|by eauto 10].
  split; [done|]. split; [|done].
  exists e. split; [|done]. simpl.
  rewrite list_lookup_alter, decide_False; [done|].
  intros <-. apply list_elem_of_lookup_2 in E.
  destruct (wf_awaiting r W fr E) as (e' & He' & Hs').
  congruence.
Qed.

Lemma settle_after k o r :
  marked requestId l n r → marked requestId l n (resume k o r).1.
Proof.
  intros (Hl & (e & He & Hs) & Hn).
  unfold resume. destruct (awaiting r !! k) as [fr|] eqn:E; simpl;
    [|by (split; [|split]; eauto)].
  destruct o as [b|err]; simpl; [|by (split; [|split]; eauto)].
  split; [done|]. split; [|done].
  destruct (decide (f_entry fr = l)) as [E'|E'].
  - exists (mkEntry cancelled (dbIdentifier e)). split; [|done]. simpl.
    rewrite list_lookup_alter, decide_True by done. by rewrite E', He.
  - exists e. split; [|done]. simpl.
    by rewrite list_lookup_alter, decide_False.
Qed.

Lemma run_after evs r :
  marked requestId l n r → Forall (mark_event requestId) evs →
  marked requestId l n (run evs r).
Proof.
  revert r. induction evs as [|ev evs IH]; intros r Ha Hevs; [done|].
  inversion Hevs as [|? ? Hev Hevs']; subst.
  rewrite run_cons. apply IH; [|done].
  destruct ev; simpl in Hev; try done; unfold step.
  - subst. by rewrite mark_again.
  - by apply settle_after.
Qed.

Lemma run_before evs r :
  unmarked requestId l n r → Forall (mark_event requestId) evs →
  Mark requestId ∈ evs → marked requestId l n (run evs r).
Proof.
  revert r. induction evs as [|ev evs IH]; intros r Hb Hevs Hin.
  { by apply elem_of_nil in Hin. }
  inversion Hevs as [|? ? Hev Hevs']; subst. rewrite run_cons.
  destruct ev; simpl in Hev; try done; unfold step.
  - subst. apply run_after; [|done]. by apply mark_first.
  - apply IH; [by apply settle_before|done|].
    apply elem_of_cons in Hin as [?|?]; [done|done].
Qed.

Lemma once_per_request evs r e :
  wf r → get_entry requestId r = Some (l, e) → status e = active →
  is_Some (dbIdentifier e) → invocations requestId (calls r) = n →
  Forall (mark_event requestId) evs → Mark requestId ∈ evs →
  invocations requestId (calls (run evs r)) = S n.
Proof.
  intros W G Hs Hd Hn Hevs Hin.
  apply get_entry_Some in G as [Hl He].
  apply (run_before evs r); [|done..].
  split; [done|]. split; [done|]. split; [|done]. eauto.
Qed.
End OneRequest.

(** *** Absent entries *)

Lemma unmapped_step ev id r :
  entries r !! id = None → ev ≠ Register id →
  entries (step ev r) !! id = None.
Proof.
  intros H Hev. destruct ev as [id'|id' d|id'|k o|id'|h|dt]; simpl.
  - rewrite lookup_insert_ne; [done|congruence].
  - unfold associateDbIdentifier.
    by destruct (get_entry id' r) as [[? ?]|].
  - unfold markForCancellation.
    destruct (get_entry id' r) as [[l e]|]; [|done].
    case_decide; [|done]. by destruct (dbIdentifier e).
  - unfold resume. destruct (awaiting r !! k); [|done]. by destruct o.
  - unfold markAsFinished. destruct (get_entry id' r) as [[l e]|]; [|done].
    simpl. destruct (timers r !! id'); simpl;
      rewrite lookup_delete; by case_decide.
  - unfold fire. destruct (timeouts r !! h); [|done].
    case_decide; [|done]. simpl. rewrite lookup_delete. by case_decide.
  - done.
Qed.

Lemma unmapped_run evs id r :
  entries r !! id = None → Forall (λ ev, ev ≠ Register id) evs →
  entries (run evs r) !! id = None.
Proof.
  revert r. induction evs as [|ev evs IH]; intros r H Hevs; [done|].
  inversion Hevs; subst. rewrite run_cons. apply IH; [|done].
  by apply unmapped_step.
Qed.

Lemma fire_expires h t r :
  timeouts r !! h = Some t → t_due t <= now r →
  getStatus (t_requestId t) (fire h r) = finished.
Proof.
  intros H Hdue. unfold fire. rewrite H, decide_True by done.
  apply getStatus_unmapped. simpl. apply lookup_delete_eq.
Qed.

(** *** [markAsFinished] *)

Lemma get_entry_finish id r : get_entry id (markAsFinished id r) = None.
Proof.
  unfold markAsFinished. destruct (get_entry id r) as [[l e]|] eqn:G; [|done].
  unfold get_entry. simpl.
  destruct (timers r !! id); simpl; by rewrite lookup_delete_eq.
Qed.

Lemma finish_absent id r : get_entry id r = None → markAsFinished id r = r.
Proof. unfold markAsFinished. by intros ->. Qed.

Lemma finish_idem id r :
  markAsFinished id (markAsFinished id r) = markAsFinished id r.
Proof. apply finish_absent, get_entry_finish. Qed.

Lemma finish_unmapped id r :
  wf r →
  entries (markAsFinished id r) !! id = None ∧
  timers (markAsFinished id r) !! id = None.
Proof.
  intros W. unfold markAsFinished.
  destruct (get_entry id r) as [[l e]|] eqn:G.
  - simpl. destruct (timers r !! id); simpl; by rewrite !lookup_delete_eq.
  - apply (get_entry_wf_None _ _ W) in G. split; [done|].
    by apply (wf_timers r W).
Qed.

Lemma finish_clears id h r :
  timers r !! id = Some h → is_Some (get_entry id r) →
  timeouts (markAsFinished id r) !! h = None.
Proof.
  intros Ht [[l e] G]. unfold markAsFinished. rewrite G. simpl.
  rewrite Ht. simpl. apply lookup_delete_eq.
Qed.

(** *** [register] on a key that is taken *)




Lemma get_entry_register id r :
  get_entry id (register id r) = Some (length (objects r), mkEntry active None).
Proof.
  unfold get_entry. simpl. rewrite lookup_insert_eq.
  rewrite lookup_app_r by lia. by rewrite Nat.sub_diag.
Qed.


(** *** [associateDbIdentifier] *)

Lemma get_entry_set_dbIdentifier id l e d r :
  get_entry id r = Some (l, e) →
  get_entry id (set_dbIdentifier l d r) = Some (l, mkEntry (status e) d).
Proof.
  intros [Hl He]%get_entry_Some. apply get_entry_Some. simpl.
  split; [done|]. by rewrite list_lookup_alter, decide_True, He.
Qed.

Lemma associate_found id d l e r :
  get_entry id r = Some (l, e) →
  associateDbIdentifier id d r = (set_dbIdentifier l d r, Returns tt).
Proof. unfold associateDbIdentifier. by intros ->. Qed.

Lemma associate_missing id d r :
  get_entry id r = None →
  associateDbIdentifier id d r = (r, Throws (NoEntryFound id)).
Proof. unfold associateDbIdentifier. by intros ->. Qed.

(** *** [markForCancellation] *)

Lemma get_entry_set_status id l e s r :
  get_entry id r = Some (l, e) →
  get_entry id (set_status l s r) = Some (l, mkEntry s (dbIdentifier e)).
Proof.
  intros [Hl He]%get_entry_Some. apply get_entry_Some. simpl.
  split; [done|]. by rewrite list_lookup_alter, decide_True, He.
Qed.

Lemma mark_noop id r :
  getStatus id r ≠ active → markForCancellation id r = (r, Some (Fulfilled tt)).
Proof.
  unfold getStatus, markForCancellation.
  destruct (get_entry id r) as [[l e]|]; [|done].
  intros H. by rewrite decide_False.
Qed.

Lemma mark_plain id l e r :
  get_entry id r = Some (l, e) → status e = active → dbIdentifier e = None →
  markForCancellation id r =
  (set_status l cancelled (set_status l cancelling r), Some (Fulfilled tt)).
Proof.
  intros G Hs Hd. unfold markForCancellation.
  by rewrite G, decide_True, Hd.
Qed.

Lemma mark_suspends id l e d r :
  get_entry id r = Some (l, e) → status e = active →
  dbIdentifier e = Some d →
  let r1 := (markForCancellation id r).1 in
  (markForCancellation id r).2 = None ∧
  awaiting r1 = awaiting r ++ [mkFrame id l] ∧
  calls r1 = calls r ++ [(id, d)] ∧
  get_entry id r1 = Some (l, mkEntry cancelling (Some d)).
Proof.
  intros G Hs Hd. unfold markForCancellation.
  rewrite G, decide_True, Hd by done. simpl.
  repeat split. rewrite <- Hd.
  apply (get_entry_set_status id l e cancelling r G).
Qed.

Lemma resume_last fr o r a :
  awaiting r = a ++ [fr] →
  resume (length a) o r =
  match o with
  | Fulfilled _ =>
      (set_status (f_entry fr) cancelled (with_awaiting a r),
       Some (Fulfilled tt))
  | Rejected err => (with_awaiting a r, Some (Rejected err))
  end.
Proof.
  intros Ha. unfold resume. rewrite Ha.
  rewrite lookup_app_r, Nat.sub_diag by lia. simpl.
  assert (delete (length a) (a ++ [fr]) = a) as ->.
  { rewrite delete_middle. apply app_nil_r. }
  by destruct o.
Qed.

End InMemoryFacts.

(** ** Facts about the Redis registry *)

Module RedisFacts.
Import Redis.

Lemma getKey_inj a b : getKey a = getKey b → a = b.
Proof. unfold getKey. apply String.app_inj. Qed.

Lemma read_write_eq key v ex w :
  0 < ex → read key (write key v ex w) = Some v.
Proof.
  intros H. unfold read, write. simpl. rewrite lookup_insert_eq.
  rewrite decide_True; [done|lia].
Qed.

Lemma read_write_ne key key' v ex w :
  key ≠ key' → read key' (write key v ex w) = read key' w.
Proof. intros H. unfold read, write. simpl. by rewrite lookup_insert_ne. Qed.

Lemma read_remove_eq key w : read key (remove key w) = None.
Proof. unfold read, remove. simpl. by rewrite lookup_delete_eq. Qed.

Lemma read_remove_ne key key' w :
  key ≠ key' → read key' (remove key w) = read key' w.
Proof. intros H. unfold read, remove. simpl. by rewrite lookup_delete_ne. Qed.

Lemma read_invoke key id d w : read key (invoke id d w) = read key w.
Proof. done. Qed.

Lemma status_of_write id id' v ex w :
  status_of id (write (getKey id') v ex w) =
  if decide (id = id') then (if decide (0 < ex) then status v else finished)
  else status_of id w.
Proof.
  unfold status_of. case_decide as E.
  - subst. unfold read, write. simpl. rewrite lookup_insert_eq.
    case_decide; [by rewrite decide_True by lia|by rewrite decide_False by lia].
  - rewrite read_write_ne; [done|]. intros H. by apply getKey_inj in H.
Qed.

Lemma status_of_remove id id' w :
  status_of id (remove (getKey id') w) =
  if decide (id = id') then finished else status_of id w.
Proof.
  unfold status_of. case_decide as E.
  - subst. by rewrite read_remove_eq.
  - rewrite read_remove_ne; [done|]. intros H. by apply getKey_inj in H.
Qed.

Lemma status_of_invoke id id' d w :
  status_of id (invoke id' d w) = status_of id w.
Proof. done. Qed.

(** *** Calls run alone against a store that answers *)

Section Reliable.
Variables (h : string → DbIdentifier → Settled bool) (ttl : Z).

Lemma exec_register id w :
  exec (reliable h) (register ttl id) w =
  (write (getKey id) (mkEntry active None) ttl w, Fulfilled tt).
Proof. done. Qed.

Lemma exec_getStatus id w :
  exec (reliable h) (getStatus id) w = (w, Fulfilled (status_of id w)).
Proof.
  unfold getStatus, status_of. simpl. by destruct (read (getKey id) w).
Qed.

Lemma exec_finish id w :
  exec (reliable h) (markAsFinished id) w =
  (remove (getKey id) w, Fulfilled tt).
Proof. done. Qed.

Lemma exec_associate_found id d e w :
  read (getKey id) w = Some e →
  exec (reliable h) (associateDbIdentifier ttl id d) w =
  (write (getKey id) (mkEntry (status e) d) ttl w, Fulfilled tt).
Proof. intros H. unfold associateDbIdentifier. simpl. by rewrite H. Qed.

Lemma exec_associate_missing id d w :
  read (getKey id) w = None →
  exec (reliable h) (associateDbIdentifier ttl id d) w =
  (w, Rejected (NoEntryFound id)).
Proof. intros H. unfold associateDbIdentifier. simpl. by rewrite H. Qed.

Lemma exec_mark_noop id w :
  status_of id w ≠ active →
  exec (reliable h) (markForCancellation ttl id) w = (w, Fulfilled tt).
Proof.
  unfold status_of, markForCancellation. simpl.
  destruct (read (getKey id) w) as [e|]; [|done]. simpl.
  intros H. by rewrite decide_False.
Qed.

Lemma exec_mark_plain id w :
  read (getKey id) w = Some (mkEntry active None) →
  exec (reliable h) (markForCancellation ttl id) w =
  (write (getKey id) (mkEntry cancelled None) ttl
     (write (getKey id) (mkEntry cancelling None) ttl w), Fulfilled tt).
Proof. intros H. unfold markForCancellation. simpl. by rewrite H. Qed.

Lemma exec_mark_hook id d w :
  read (getKey id) w = Some (mkEntry active (Some d)) →
  exec (reliable h) (markForCancellation ttl id) w =
  let w1 := invoke id d
              (write (getKey id) (mkEntry cancelling (Some d)) ttl w) in
  match h id d with
  | Fulfilled _ =>
      (write (getKey id) (mkEntry cancelled (Some d)) ttl w1, Fulfilled tt)
  | Rejected err => (w1, Rejected err)
  end.
Proof.
  intros H. unfold markForCancellation. simpl. rewrite H. simpl.
  by destruct (h id d).
Qed.

Lemma repeat_mark_S env id n w :
  repeat_mark env ttl id (S n) w =
  repeat_mark env ttl id n (exec env (markForCancellation ttl id) w).1.
Proof. done. Qed.

Lemma repeat_mark_noop id n w :
  status_of id w ≠ active → repeat_mark (reliable h) ttl id n w = w.
Proof.
  intros H. induction n as [|n IH]; [done|].
  by rewrite repeat_mark_S, exec_mark_noop.
Qed.

Lemma repeat_mark_once id d n w :
  0 < ttl → read (getKey id) w = Some (mkEntry active (Some d)) →
  invocations id (calls (repeat_mark (reliable h) ttl id (S n) w)) =
  S (invocations id (calls w)).
Proof.
  intros Httl H. rewrite repeat_mark_S, (exec_mark_hook id d w H).
  destruct (h id d) as [b|err]; simpl; rewrite repeat_mark_noop.
  - simpl. apply invocations_snoc_eq.
  - rewrite status_of_write, decide_True, decide_True by done. done.
  - simpl. apply invocations_snoc_eq.
  - rewrite status_of_invoke, status_of_write.
    rewrite decide_True, decide_True by done. done.
Qed.
End Reliable.

(** *** Calls run alone, whatever the store and the hook do *)

Section AnyEnv.
Variables (env : Env) (ttl : Z).

Lemma mark_forward id id' w :
  forward (status_of id w)
    (status_of id (exec env (markForCancellation ttl id') w).1).
Proof.
  unfold markForCancellation. simpl.
  destruct (fault env (OpGet (getKey id'))); simpl; [apply forward_refl|].
  destruct (read (getKey id') w) as [e|] eqn:R; simpl;
    [|apply forward_refl].
  case_decide as Hact; simpl; [|apply forward_refl].
  destruct (decide (id = id')) as [->|Hne].
  - unfold status_of at 1. rewrite R, Hact. unfold forward. simpl. lia.
  - assert (∀ v w0, status_of id (write (getKey id') v ttl w0)
                    = status_of id w0) as Hw.
    { intros v w0. by rewrite status_of_write, decide_False. }
    destruct (fault env (OpSet (getKey id'))) eqn:F; simpl;
      [apply forward_refl|].
    destruct (dbIdentifier e) as [d|]; simpl.
    + destruct (hook env id' d); simpl; rewrite ?F; simpl;
        rewrite ?Hw, ?status_of_invoke, ?Hw; apply forward_refl.
    + rewrite F. simpl. rewrite !Hw. apply forward_refl.
Qed.

Lemma associate_forward id id' d w :
  forward (status_of id w)
    (status_of id (exec env (associateDbIdentifier ttl id' d) w).1).
Proof.
  unfold associateDbIdentifier. simpl.
  destruct (fault env (OpGet (getKey id'))); simpl; [apply forward_refl|].
  destruct (read (getKey id') w) as [e|] eqn:R; simpl;
    [|apply forward_refl].
  destruct (fault env (OpSet (getKey id'))); simpl;
    [apply forward_refl|].
  rewrite status_of_write. case_decide as E; [|apply forward_refl].
  subst. case_decide; [|apply forward_finished].
  unfold status_of. rewrite R. apply forward_refl.
Qed.

Lemma finish_forward id id' w :
  forward (status_of id w)
    (status_of id (exec env (markAsFinished id') w).1).
Proof.
  unfold markAsFinished. simpl.
  destruct (fault env (OpDel (getKey id'))); simpl; [apply forward_refl|].
  rewrite status_of_remove.
  case_decide; [apply forward_finished|apply forward_refl].
Qed.

Lemma advance_forward id dt w :
  forward (status_of id w) (status_of id (advance dt w)).
Proof.
  unfold status_of, read, advance. simpl.
  destruct (kv w !! getKey id) as [[v expiry]|]; [|apply forward_refl].
  destruct (decide (now w < expiry)).
  - case_decide; [apply forward_refl|apply forward_finished].
  - rewrite decide_False by lia. apply forward_refl.
Qed.

Lemma associate_calls id d w :
  calls (exec env (associateDbIdentifier ttl id d) w).1 = calls w.
Proof.
  unfold associateDbIdentifier. simpl.
  destruct (fault env (OpGet (getKey id))); simpl; [done|].
  destruct (read (getKey id) w) as [e|]; simpl; [|done].
  by destruct (fault env (OpSet (getKey id))).
Qed.

Lemma mark_noop_world id w :
  status_of id w ≠ active →
  (exec env (markForCancellation ttl id) w).1 = w.
Proof.
  unfold status_of, markForCancellation. simpl.
  destruct (fault env (OpGet (getKey id))); simpl; [done|].
  destruct (read (getKey id) w) as [e|]; [|done]. simpl.
  intros H. by rewrite decide_False.
Qed.

Lemma getStatus_outcomes id w :
  read (getKey id) w = None →
  exec env (getStatus id) w = (w, Fulfilled finished) ∨
  ∃ err, fault env (OpGet (getKey id)) = Some err ∧
         exec env (getStatus id) w = (w, Rejected err).
Proof.
  intros R. unfold getStatus. simpl.
  destruct (fault env (OpGet (getKey id))) as [err|]; simpl.
  - right. by exists err.
  - left. by rewrite R.
Qed.

Lemma finish_outcomes id w :
  exec env (markAsFinished id) w = (remove (getKey id) w, Fulfilled tt) ∨
  ∃ err, fault env (OpDel (getKey id)) = Some err ∧
         exec env (markAsFinished id) w = (w, Rejected err).
Proof.
  unfold markAsFinished. simpl.
  destruct (fault env (OpDel (getKey id))) as [err|]; simpl.
  - right. by exists err.
  - by left.
Qed.

Lemma register_fault id err w :
  fault env (OpSet (getKey id)) = Some err →
  exec env (register ttl id) w = (w, Rejected err).
Proof. intros H. unfold register. simpl. by rewrite H. Qed.
End AnyEnv.

Lemma remove_remove key w : remove key (remove key w) = remove key w.
Proof. unfold remove. simpl. by rewrite delete_delete_eq. Qed.

Lemma expiresAt_write key v ex w :
  0 < ex → expiresAt key (write key v ex w) = Some (now w + ex).
Proof.
  intros H. unfold expiresAt, write. simpl. rewrite lookup_insert_eq.
  rewrite decide_True; [done|lia].
Qed.

Lemma advance_expires key expiry dt w :
  expiresAt key w = Some expiry → expiry <= now w + Z.max 0 dt →
  read key (advance dt w) = None.
Proof.
  unfold expiresAt, read, advance. simpl.
  destruct (kv w !! key) as [[v x]|]; [|done].
  case_decide; [|done]. intros [= ->] Hle. rewrite decide_False; [done|lia].
Qed.


End RedisFacts.

(** ** The in-memory registry: ids, timeouts and the clock *)

Module TimingFacts.
Import InMemory Timing InMemoryFacts.

Lemma timely_create ttl_ms : timely (create ttl_ms).
Proof.
  split; simpl.
  - intros h t H. by rewrite lookup_empty in H.
  - intros id h H. by rewrite lookup_empty in H.
Qed.

(** The events that touch neither maps nor clock. *)
Lemma quiet_fields ev r :
  match ev with
  | Associate _ _ | Mark _ | Settle _ _ => True
  | _ => False
  end →
  entries (step ev r) = entries r ∧ timers (step ev r) = timers r ∧
  timeouts (step ev r) = timeouts r ∧ now (step ev r) = now r ∧
  ttl (step ev r) = ttl r ∧ next_handle (step ev r) = next_handle r.
Proof.
  destruct ev as [id|id d|id|k o|id|h|dt]; simpl; try done; intros _.
  - unfold associateDbIdentifier. by destruct (get_entry id r) as [[l e]|].
  - unfold markForCancellation.
    destruct (get_entry id r) as [[l e]|]; [|done].
    case_decide; [|done]. by destruct (dbIdentifier e).
  - unfold resume. destruct (awaiting r !! k); [|done]. by destruct o.
Qed.

Lemma ttl_step ev r : ttl (step ev r) = ttl r.
Proof.
  destruct ev as [id|id d|id|k o|id|h|dt];
    try (by apply quiet_fields); simpl; try done.
  - unfold markAsFinished. destruct (get_entry id r) as [[l e]|]; [|done].
    simpl. by destruct (timers r !! id).
  - unfold fire. destruct (timeouts r !! h); [|done]. by case_decide.
Qed.

Lemma now_step ev r : now r <= now (step ev r).
Proof.
  destruct ev as [id|id d|id|k o|id|h|dt].
  - simpl. lia.
  - destruct (quiet_fields (Associate id d) r I) as (_ & _ & _ & -> & _). lia.
  - destruct (quiet_fields (Mark id) r I) as (_ & _ & _ & -> & _). lia.
  - destruct (quiet_fields (Settle k o) r I) as (_ & _ & _ & -> & _). lia.
  - simpl. unfold markAsFinished.
    destruct (get_entry id r) as [[l e]|]; [|lia].
    simpl. destruct (timers r !! id); simpl; lia.
  - simpl. unfold fire. destruct (timeouts r !! h); [|lia].
    case_decide; simpl; lia.
  - simpl. lia.
Qed.

Lemma now_run evs r : now r <= now (run evs r).
Proof.
  revert r. induction evs as [|ev evs IH]; intros r; [simpl; lia|].
  rewrite run_cons. pose proof (now_step ev r). pose proof (IH (step ev r)).
  lia.
Qed.

Lemma timely_step ev r : timely r → timely (step ev r).
Proof.
  intros [Hd Hr].
  destruct ev as [id|id d|id|k o|id|h|dt].
  - split; simpl.
    + intros h t. rewrite lookup_insert. case_decide.
      * intros [= <-]. simpl. lia.
      * apply Hd.
    + intros id' h. rewrite lookup_insert. case_decide.
      * intros [= <-]. lia.
      * intros Hx. apply Hr in Hx. lia.
  - destruct (quiet_fields (Associate id d) r I) as (_ & E2 & E3 & E4 & E5 & E6).
    split; rewrite ?E2, ?E3, ?E4, ?E5, ?E6; done.
  - destruct (quiet_fields (Mark id) r I) as (_ & E2 & E3 & E4 & E5 & E6).
    split; rewrite ?E2, ?E3, ?E4, ?E5, ?E6; done.
  - destruct (quiet_fields (Settle k o) r I) as (_ & E2 & E3 & E4 & E5 & E6).
    split; rewrite ?E2, ?E3, ?E4, ?E5, ?E6; done.
  - simpl. unfold markAsFinished.
    destruct (get_entry id r) as [[l e]|]; [|by split]. simpl.
    destruct (timers r !! id) as [h|]; split; simpl.
    + intros h' t. rewrite lookup_delete. case_decide; [done|apply Hd].
    + intros id' h'. rewrite lookup_delete. case_decide; [done|apply Hr].
    + apply Hd.
    + intros id' h'. rewrite lookup_delete. case_decide; [done|apply Hr].
  - simpl. unfold fire. destruct (timeouts r !! h) as [t|]; [|by split].
    case_decide; [|by split]. split; simpl.
    + intros h' t'. rewrite lookup_delete. case_decide; [done|apply Hd].
    + intros id' h'. rewrite lookup_delete. case_decide; [done|apply Hr].
  - split; simpl.
    + intros h t H. apply Hd in H. lia.
    + apply Hr.
Qed.

Lemma history_timely ttl_ms history : timely (run history (create ttl_ms)).
Proof.
  assert (∀ evs r, timely r → timely (run evs r)) as K.
  { induction evs as [|ev evs IH]; intros r H; [done|].
    rewrite run_cons. by apply IH, timely_step. }
  apply K, timely_create.
Qed.

(** What [expiresAt] computes: the least due time among the pending
    timeouts of the id. *)
Lemma expiresAt_spec id r :
  match expiresAt id r with
  | Some D =>
      (∃ h t, timeouts r !! h = Some t ∧ t_requestId t = id ∧ t_due t = D) ∧
      (∀ h t, timeouts r !! h = Some t → t_requestId t = id → D <= t_due t)
  | None => ∀ h t, timeouts r !! h = Some t → t_requestId t ≠ id
  end.
Proof.
  unfold expiresAt.
  apply (map_fold_weak_ind (λ acc m,
    match acc with
    | Some D =>
        (∃ h t, m !! h = Some t ∧ t_requestId t = id ∧ t_due t = D) ∧
        (∀ h t, m !! h = Some t → t_requestId t = id → D <= t_due t)
    | None => ∀ h t, m !! h = Some t → t_requestId t ≠ id
    end)).
  - intros h t H. by rewrite lookup_empty in H.
  - intros i x m acc Hi IH. case_decide as E.
    + destruct acc as [D|].
      * destruct IH as [(h & t & Ht & Hid & Hdue) Hmin]. split.
        -- destruct (Z.min_spec (t_due x) D) as [[_ ->]|[_ ->]].
           ++ exists i, x. by rewrite lookup_insert_eq.
           ++ exists h, t. rewrite lookup_insert_ne; [done|]. congruence.
        -- intros h' t'. rewrite lookup_insert. case_decide.
           ++ intros [= <-] _. lia.
           ++ intros H1 H2. specialize (Hmin _ _ H1 H2). lia.
      * split.
        -- exists i, x. by rewrite lookup_insert_eq.
        -- intros h' t'. rewrite lookup_insert. case_decide.
           ++ intros [= <-] _. lia.
           ++ intros H1 H2. by destruct (IH _ _ H1).
    + destruct acc as [D|].
      * destruct IH as [(h & t & Ht & Hid & Hdue) Hmin]. split.
        -- exists h, t. rewrite lookup_insert_ne; [done|]. congruence.
        -- intros h' t'. rewrite lookup_insert. case_decide.
           ++ intros [= <-] ?. done.
           ++ apply Hmin.
      * intros h' t'. rewrite lookup_insert. case_decide.
        -- by intros [= <-].
        -- apply IH.
Qed.

(** *** An entry always has a timeout pending *)





(** *** A call leaves the other ids alone *)

Lemma get_entry_alter_ne id l' f r r' :
  entries r' = entries r → objects r' = alter f l' (objects r) →
  entries r !! id ≠ Some l' → get_entry id r' = get_entry id r.
Proof.
  intros He Ho Hne. unfold get_entry. rewrite He, Ho.
  destruct (entries r !! id) as [l|]; [|done].
  rewrite list_lookup_alter_ne; [done|]. congruence.
Qed.

Lemma step_elsewhere ev id id' r :
  wf r → addressed ev = Some id' → id ≠ id' →
  get_entry id (step ev r) = get_entry id r ∧
  timers (step ev r) !! id = timers r !! id.
Proof.
  intros W Hev Hne.
  assert (∀ l', entries r !! id' = Some l' → entries r !! id ≠ Some l') as K.
  { intros l' H' H. apply Hne. by apply (wf_inj r W id id' l'). }
  destruct ev as [x|x d|x|k o|x|h|dt]; simpl in Hev; try done;
    injection Hev as ->; simpl.
  - split; [|by rewrite lookup_insert_ne].
    unfold get_entry. simpl. rewrite lookup_insert_ne by done.
    destruct (entries r !! id) as [l|] eqn:E; [|done].
    destruct (wf_mapped r W id l E) as (e & He & _).
    by rewrite (lookup_app_l_Some _ _ _ _ He), He.
  - unfold associateDbIdentifier.
    destruct (get_entry id' r) as [[l' e']|] eqn:G; [|done].
    apply get_entry_Some in G as [Hl' _]. simpl. split; [|done].
    by apply (get_entry_alter_ne id l' (λ e, mkEntry (status e) d)), K.
  - unfold markForCancellation.
    destruct (get_entry id' r) as [[l' e']|] eqn:G; [|done].
    apply get_entry_Some in G as [Hl' _]. specialize (K l' Hl').
    case_decide; [|done].
    assert (get_entry id (set_status l' cancelling r) = get_entry id r) as E1
      by by apply (get_entry_alter_ne id l'
                     (λ e, mkEntry cancelling (dbIdentifier e))).
    destruct (dbIdentifier e'); simpl; (split; [|done]).
    + exact E1.
    + rewrite <- E1.
      by apply (get_entry_alter_ne id l'
                  (λ e, mkEntry cancelled (dbIdentifier e))).
  - unfold markAsFinished.
    destruct (get_entry id' r) as [[l' e']|] eqn:G; [|done].
    apply get_entry_Some in G as [Hl' _]. specialize (K l' Hl'). simpl.
    assert (∀ q, get_entry id
              (with_timers (delete id' (timers r))
                 (with_entries (delete id' (entries r))
                    (with_timeouts q (set_status l' finished r))))
            = get_entry id r) as E1.
    { intros q. unfold get_entry. simpl. rewrite lookup_delete_ne by done.
      destruct (entries r !! id) as [l|]; [|done].
      rewrite list_lookup_alter_ne; [done|]. congruence. }
    destruct (timers r !! id') as [h|]; simpl;
      (split; [apply E1|by rewrite lookup_delete_ne]).
Qed.

(** *** An entry is not removed by a timer before it is due *)

Lemma kept_step ev id D r :
  is_Some (entries r !! id) →
  (∀ h t, timeouts r !! h = Some t → t_requestId t = id → D <= t_due t) →
  D <= now r + delay (ttl r) →
  ev ≠ Finish id → now (step ev r) < D →
  is_Some (entries (step ev r) !! id) ∧
  (∀ h t, timeouts (step ev r) !! h = Some t → t_requestId t = id →
          D <= t_due t) ∧
  D <= now (step ev r) + delay (ttl (step ev r)).
Proof.
  intros Hin Hmin Hbound Hev Hnow.
  destruct ev as [x|x d|x|k o|x|h|dt].
  - simpl in *. repeat apply conj; [| |done].
    + rewrite lookup_insert. by case_decide.
    + intros h t. rewrite lookup_insert. case_decide.
      * intros [= <-] _. simpl. lia.
      * apply Hmin.
  - destruct (quiet_fields (Associate x d) r I) as (-> & _ & -> & -> & -> & _).
    done.
  - destruct (quiet_fields (Mark x) r I) as (-> & _ & -> & -> & -> & _).
    done.
  - destruct (quiet_fields (Settle k o) r I) as (-> & _ & -> & -> & -> & _).
    done.
  - assert (x ≠ id) as Hne by congruence.
    simpl in *. unfold markAsFinished in *.
    destruct (get_entry x r) as [[l e]|]; [|done]. simpl in *.
    destruct (timers r !! x) as [h|]; simpl in *;
      (repeat apply conj; [by rewrite lookup_delete_ne| |done]).
    + intros h' t. rewrite lookup_delete. case_decide; [done|apply Hmin].
    + apply Hmin.
  - simpl in *. unfold fire in *.
    destruct (timeouts r !! h) as [t|] eqn:Ht; [|done].
    case_decide as Hdue; [|done]. simpl in *.
    assert (t_requestId t ≠ id) as Hne.
    { intros E. specialize (Hmin h t Ht E). lia. }
    repeat apply conj; [by rewrite lookup_delete_ne| |done].
    intros h' t'. rewrite lookup_delete. case_decide; [done|apply Hmin].
  - simpl in *. repeat apply conj; [done|done|lia].
Qed.

Lemma kept_run evs id D r :
  is_Some (entries r !! id) →
  (∀ h t, timeouts r !! h = Some t → t_requestId t = id → D <= t_due t) →
  D <= now r + delay (ttl r) →
  Forall (λ ev, ev ≠ Finish id) evs → now (run evs r) < D →
  is_Some (entries (run evs r) !! id).
Proof.
  revert r. induction evs as [|ev evs IH]; intros r Hin Hmin Hb Hevs Hnow;
    [done|].
  inversion Hevs as [|? ? Hev Hevs']; subst. rewrite run_cons in *.
  pose proof (now_run evs (step ev r)) as Hmono.
  destruct (kept_step ev id D r Hin Hmin Hb Hev ltac:(lia)) as (H1 & H2 & H3).
  by apply IH.
Qed.

(** *** A timeout stays pending until it fires *)

Lemma pending_step ev id h t r :
  timeouts r !! h = Some t → (h < next_handle r)%nat →
  (∀ id', timers r !! id' = Some h → id' = id) →
  ev ≠ Fire h → ev ≠ Finish id →
  timeouts (step ev r) !! h = Some t ∧ (h < next_handle (step ev r))%nat ∧
  (∀ id', timers (step ev r) !! id' = Some h → id' = id).
Proof.
  intros Ht Hlt Hrec Hfire Hfin.
  destruct ev as [x|x d|x|k o|x|h'|dt].
  - simpl. repeat apply conj.
    + rewrite lookup_insert_ne; [done|lia].
    + lia.
    + intros id'. rewrite lookup_insert. case_decide.
      * intros [= E]. lia.
      * apply Hrec.
  - destruct (quiet_fields (Associate x d) r I) as (_ & -> & -> & _ & _ & ->).
    done.
  - destruct (quiet_fields (Mark x) r I) as (_ & -> & -> & _ & _ & ->).
    done.
  - destruct (quiet_fields (Settle k o) r I) as (_ & -> & -> & _ & _ & ->).
    done.
  - assert (x ≠ id) as Hne by congruence.
    simpl. unfold markAsFinished.
    destruct (get_entry x r) as [[l e]|]; [|done]. simpl.
    destruct (timers r !! x) as [h0|] eqn:Hx; simpl;
      (repeat apply conj; [|done|]).
    + rewrite lookup_delete_ne; [done|]. intros ->. by apply Hne, Hrec.
    + intros id'. rewrite lookup_delete. case_decide; [done|apply Hrec].
    + done.
    + intros id'. rewrite lookup_delete. case_decide; [done|apply Hrec].
  - assert (h' ≠ h) as Hne by congruence.
    simpl. unfold fire. destruct (timeouts r !! h') as [t'|]; [|done].
    case_decide; [|done]. simpl. repeat apply conj; [|done|].
    + by rewrite lookup_delete_ne.
    + intros id'. rewrite lookup_delete. case_decide; [done|apply Hrec].
  - done.
Qed.

Lemma pending_run evs id h t r :
  timeouts r !! h = Some t → (h < next_handle r)%nat →
  (∀ id', timers r !! id' = Some h → id' = id) →
  Forall (λ ev, ev ≠ Fire h ∧ ev ≠ Finish id) evs →
  timeouts (run evs r) !! h = Some t.
Proof.
  revert r. induction evs as [|ev evs IH]; intros r Ht Hlt Hrec Hevs; [done|].
  inversion Hevs as [|? ? [Hf1 Hf2] Hevs']; subst. rewrite run_cons.
  destruct (pending_step ev id h t r Ht Hlt Hrec Hf1 Hf2) as (H1 & H2 & H3).
  by apply IH.
Qed.

Lemma register_pending id r :
  timely r →
  let r1 := register id r in
  let h := next_handle r in
  timeouts r1 !! h = Some (mkTimeout id (now r + delay (ttl r))) ∧
  (h < next_handle r1)%nat ∧
  (∀ id', timers r1 !! id' = Some h → id' = id).
Proof.
  intros [_ Hr] r1 h. simpl. repeat apply conj.
  - apply lookup_insert_eq.
  - lia.
  - intros id'. rewrite lookup_insert. case_decide; [done|].
    intros Hx. apply Hr in Hx. lia.
Qed.

End TimingFacts.

(** * The claims *)

Import Scenario.

(** ** C1: a hook that fails *)

(** C1, as stated, fails: with ["r1"] registered and [{ pid: 42 }]
    associated, in either backend, a hook that rejects makes
    [markForCancellation("r1")] reject with the hook's error and leaves the
    entry ['cancelling']; the call does not return normally and the status
    does not reach ['cancelled']. *)
Lemma C1_hook_rejection_reaches_caller :
  let err := External "hook failed" in
  let mem := InMemory.resume 0 (Rejected err) mem_r1_marked in
  let red := Redis.exec (Redis.reliable (rejects err))
               (Redis.markForCancellation 3600 "r1") redis_r1 in
  (mem.2 = Some (Rejected err) ∧ InMemory.getStatus "r1" mem.1 = cancelling) ∧
  (red.2 = Rejected err ∧ Redis.status_of "r1" red.1 = cancelling) ∧
  ¬ (mem.2 = Some (Fulfilled tt) ∧ InMemory.getStatus "r1" mem.1 = cancelled) ∧
  ¬ (red.2 = Fulfilled tt ∧ Redis.status_of "r1" red.1 = cancelled).
Proof.
  repeat split; try reflexivity; intros [H _]; discriminate H.
Qed.

(** C1, amended: on an ['active'] entry that carries an identifier,
    [markForCancellation] invokes the hook and waits. If the hook's promise
    is fulfilled, with [true] or with [false], the status becomes
    ['cancelled'] and the call is fulfilled. If it is rejected, the call
    rejects with the same error and the status stays ['cancelling'], in
    both backends. The middleware's handler turns such a rejection into a
    console line. *)
Theorem C1_hook_outcome
    (id : string) (l : nat) (e : Entry) (d : DbIdentifier)
    (r : InMemory.Registry)
    (ttl : Z) (w : Redis.World) (h : string → DbIdentifier → Settled bool)
    (label : string) (console : Middleware.Console) :
  InMemory.get_entry id r = Some (l, e) → status e = active →
  dbIdentifier e = Some d →
  0 < ttl → Redis.read (Redis.getKey id) w = Some (mkEntry active (Some d)) →
  let r1 := (InMemory.markForCancellation id r).1 in
  let k := length (InMemory.awaiting r) in
  let red := Redis.exec (Redis.reliable h)
               (Redis.markForCancellation ttl id) w in
  ((InMemory.markForCancellation id r).2 = None ∧
   InMemory.getStatus id r1 = cancelling ∧
   (∀ b, (InMemory.resume k (Fulfilled b) r1).2 = Some (Fulfilled tt) ∧
         InMemory.getStatus id (InMemory.resume k (Fulfilled b) r1).1
         = cancelled) ∧
   (∀ err, (InMemory.resume k (Rejected err) r1).2 = Some (Rejected err) ∧
           InMemory.getStatus id (InMemory.resume k (Rejected err) r1).1
           = cancelling)) ∧
  match h id d with
  | Fulfilled _ => red.2 = Fulfilled tt ∧ Redis.status_of id red.1 = cancelled
  | Rejected err =>
      red.2 = Rejected err ∧ Redis.status_of id red.1 = cancelling
  end ∧
  (∀ err, Middleware.absorb label (Middleware.Promise (Rejected err)) console
          = console ++ [(label, err)]).
Proof.
  intros G Hs Hd Httl R r1 k red.
  destruct (InMemoryFacts.mark_suspends id l e d r G Hs Hd)
    as (Hnone & Haw & Hcalls & G1).
  fold r1 in Haw, Hcalls, G1.
  split; [|split; [|done]].
  - split; [done|]. split.
    { by rewrite (InMemoryFacts.getStatus_Some _ _ _ _ G1). }
    split.
    + intros b. subst k.
      rewrite (InMemoryFacts.resume_last _ _ _ _ Haw). simpl.
      split; [done|].
      rewrite (InMemoryFacts.getStatus_Some id _ l
                 (mkEntry cancelled (Some d))); [done|].
      apply (InMemoryFacts.get_entry_set_status id l
               (mkEntry cancelling (Some d)) cancelled).
      apply InMemoryFacts.get_entry_Some in G1 as [? ?].
      by apply InMemoryFacts.get_entry_Some.
    + intros err. subst k.
      rewrite (InMemoryFacts.resume_last _ _ _ _ Haw). simpl.
      split; [done|].
      rewrite (InMemoryFacts.getStatus_Some id _ l
                 (mkEntry cancelling (Some d))); [done|].
      apply InMemoryFacts.get_entry_Some in G1 as [? ?].
      by apply InMemoryFacts.get_entry_Some.
  - subst red. rewrite (RedisFacts.exec_mark_hook h ttl id d w R).
    destruct (h id d) as [b|err]; simpl; (split; [done|]).
    + by rewrite RedisFacts.status_of_write, !decide_True.
    + rewrite RedisFacts.status_of_invoke, RedisFacts.status_of_write.
      by rewrite !decide_True.
Qed.

Lemma C1_hook_outcome_witness :
  InMemory.getStatus "r1" mem_r1 = active ∧
  Redis.status_of "r1" redis_r1 = active ∧
  InMemory.getStatus "r1"
    (InMemory.resume 0 (Fulfilled false) mem_r1_marked).1 = cancelled ∧
  Redis.status_of "r1"
    (Redis.exec (Redis.reliable (resolves false))
       (Redis.markForCancellation 3600 "r1") redis_r1).1 = cancelled.
Proof.
  split; [reflexivity|]. split; [reflexivity|].
  pose proof (C1_hook_outcome "r1" 0%nat (mkEntry active (Some pid42)) pid42
    mem_r1 3600 redis_r1 (resolves false) "Failed to mark request for cancellation:" []
    eq_refl eq_refl eq_refl ltac:(lia) eq_refl) as [[_ [_ [Hm _]]] [Hr _]].
  split.
  - exact (proj2 (Hm false)).
  - exact (proj2 Hr).
Defined.

(** ** C2: how often the hook runs *)

(** C2, as stated, fails in the Redis backend: with ["r1"] registered
    and [{ pid: 42 }] associated, a second [markForCancellation("r1")]
    issued while the first is in progress reads the entry before the first
    has written ['cancelling']; both calls find it ['active'] and both
    invoke the hook. *)
Lemma C2_redis_hook_invoked_twice :
  Redis.status_of "r1" redis_r1 = active ∧
  Redis.calls redis_r1 = [] ∧
  redis_two_marks.1 = [Redis.Return tt; Redis.Return tt] ∧
  Redis.calls redis_two_marks.2 = [("r1", pid42); ("r1", pid42)] ∧
  invocations "r1" (Redis.calls redis_two_marks.2) ≠ 1%nat.
Proof. repeat split; try reflexivity. vm_compute. discriminate. Qed.

(** C2, amended: in the in-memory backend, for an ['active'] entry with an
    identifier, any sequence of [markForCancellation(requestId)] calls and
    hook settlements that has at least one call, interleaved in any way,
    invokes the hook exactly once for that id. In the Redis backend, calls
    made one after the other invoke it exactly once, and a call that reads
    the entry as anything but ['active'] ends on that read, with no write
    and no invocation; two calls that both read the entry before either
    has written ['cancelling'] invoke it twice. *)
Theorem C2_hook_invoked_once
    (ttl_ms : Z) (history evs : list InMemory.Event) (id : string)
    (l : nat) (e : Entry)
    (ttl : Z) (w w0 : Redis.World) (d : DbIdentifier) (n : nat)
    (h : string → DbIdentifier → Settled bool) (env : Redis.Env) :
  let r := InMemory.run history (InMemory.create ttl_ms) in
  InMemory.get_entry id r = Some (l, e) → status e = active →
  is_Some (dbIdentifier e) →
  Forall (InMemory.mark_event id) evs → InMemory.Mark id ∈ evs →
  0 < ttl → Redis.read (Redis.getKey id) w = Some (mkEntry active (Some d)) →
  Redis.status_of id w0 ≠ active →
  Redis.fault env (Redis.OpGet (Redis.getKey id)) = None →
  invocations id (InMemory.calls (InMemory.run evs r))
  = S (invocations id (InMemory.calls r)) ∧
  invocations id
    (Redis.calls (Redis.repeat_mark (Redis.reliable h) ttl id (S n) w))
  = S (invocations id (Redis.calls w)) ∧
  Redis.step env (Redis.markForCancellation ttl id) w0 = (Redis.Return tt, w0).
Proof.
  intros r G Hs Hd Hevs Hin Httl R Hw0 Hget.
  split; [|split].
  - apply (InMemoryFacts.once_per_request id l _ evs r e); try done.
    apply InMemoryFacts.history_wf.
  - by apply (RedisFacts.repeat_mark_once h ttl id d n w).
  - unfold Redis.markForCancellation, Redis.await_get, Redis.step.
    rewrite Hget. unfold Redis.status_of in Hw0. simpl.
    destruct (Redis.read (Redis.getKey id) w0) as [e0|]; [|done].
    by rewrite decide_False.
Qed.

Lemma C2_hook_invoked_once_witness :
  InMemory.getStatus "r1" mem_r1 = active ∧
  invocations "r1" (InMemory.calls mem_r1) = 0%nat ∧
  invocations "r1"
    (InMemory.calls
       (InMemory.run
          [InMemory.Mark "r1"; InMemory.Mark "r1";
           InMemory.Settle 0 (Fulfilled true); InMemory.Mark "r1"] mem_r1))
  = 1%nat ∧
  invocations "r1"
    (Redis.calls
       (Redis.repeat_mark (Redis.reliable (resolves true)) 3600 "r1" 3
          redis_r1))
  = 1%nat.
Proof.
  split; [reflexivity|]. split; [reflexivity|].
  pose proof (C2_hook_invoked_once 3600000
    [InMemory.Register "r1"; InMemory.Associate "r1" (Some pid42)]
    [InMemory.Mark "r1"; InMemory.Mark "r1";
     InMemory.Settle 0 (Fulfilled true); InMemory.Mark "r1"]
    "r1" 0%nat (mkEntry active (Some pid42))
    3600 redis_r1 Redis.empty pid42 2%nat (resolves true)
    (Redis.reliable (resolves true))
    eq_refl eq_refl ltac:(by eexists)
    ltac:(repeat constructor) ltac:(constructor) ltac:(lia) eq_refl
    ltac:(discriminate) eq_refl) as (Hm & Hr & _).
  split; [exact Hm|exact Hr].
Defined.

(** ** C3: the direction of status changes *)

(** C3, as stated, fails: [register] on an id whose entry is
    ['cancelled'] replaces the entry by an ['active'] one, so the status
    reported for the id goes from a later state back to the first. *)
Lemma C3_register_reverts_status :
  InMemory.getStatus "r2" mem_r2_cancelled = cancelled ∧
  InMemory.getStatus "r2" (InMemory.register "r2" mem_r2_cancelled) = active ∧
  ¬ forward (InMemory.getStatus "r2" mem_r2_cancelled)
      (InMemory.getStatus "r2" (InMemory.register "r2" mem_r2_cancelled)).
Proof.
  repeat split; try reflexivity. vm_compute. lia.
Qed.

(** C3, amended: the status reported for an id only moves forward along
    [active -> cancelling -> cancelled -> finished] (the last reachable
    from each of the others) under [associateDbIdentifier],
    [markForCancellation], the settlement of a hook, [markAsFinished], the
    firing of a timeout and the passing of time: in the in-memory backend
    for every history and every interleaving, in the Redis backend for
    every call run alone, whatever the store and the hook do. [register]
    always installs an ['active'] entry, whatever was there. *)
Theorem C3_status_moves_forward
    (ttl_ms : Z) (history : list InMemory.Event) (ev : InMemory.Event)
    (id id' : string) (d : option DbIdentifier)
    (env : Redis.Env) (h : string → DbIdentifier → Settled bool)
    (ttl dt : Z) (w : Redis.World) :
  let r := InMemory.run history (InMemory.create ttl_ms) in
  ev ≠ InMemory.Register id → 0 < ttl →
  forward (InMemory.getStatus id r) (InMemory.getStatus id (InMemory.step ev r)) ∧
  InMemory.getStatus id (InMemory.register id r) = active ∧
  forward (Redis.status_of id w)
    (Redis.status_of id
       (Redis.exec env (Redis.markForCancellation ttl id') w).1) ∧
  forward (Redis.status_of id w)
    (Redis.status_of id
       (Redis.exec env (Redis.associateDbIdentifier ttl id' d) w).1) ∧
  forward (Redis.status_of id w)
    (Redis.status_of id (Redis.exec env (Redis.markAsFinished id') w).1) ∧
  forward (Redis.status_of id w) (Redis.status_of id (Redis.advance dt w)) ∧
  Redis.status_of id
    (Redis.exec (Redis.reliable h) (Redis.register ttl id) w).1 = active.
Proof.
  intros r Hev Httl. repeat split.
  - apply InMemoryFacts.step_forward; [|done].
    apply InMemoryFacts.history_wf.
  - apply InMemoryFacts.getStatus_register.
  - apply RedisFacts.mark_forward.
  - apply RedisFacts.associate_forward.
  - apply RedisFacts.finish_forward.
  - apply RedisFacts.advance_forward.
  - rewrite RedisFacts.exec_register. simpl.
    by rewrite RedisFacts.status_of_write, !decide_True.
Qed.

Lemma C3_status_moves_forward_witness :
  InMemory.getStatus "r1" mem_r1_marked = cancelling ∧
  forward cancelling
    (InMemory.getStatus "r1"
       (InMemory.step (InMemory.Finish "r1") mem_r1_marked)) ∧
  forward (Redis.status_of "r1" redis_r1)
    (Redis.status_of "r1"
       (Redis.exec (store_down (External "ECONNREFUSED"))
          (Redis.markForCancellation 3600 "r1") redis_r1).1).
Proof.
  split; [reflexivity|].
  pose proof (C3_status_moves_forward 3600000
    [InMemory.Register "r1"; InMemory.Associate "r1" (Some pid42);
     InMemory.Mark "r1"]
    (InMemory.Finish "r1") "r1" "r1" None
    (store_down (External "ECONNREFUSED")) (resolves true) 3600 0 redis_r1
    ltac:(discriminate) ltac:(lia)) as (Hm & _ & Hr & _).
  split; [exact Hm|exact Hr].
Defined.

(** ** C4: what an absent entry reports *)

(** C4: an id that no [register] of the history named, an id just removed
    by [markAsFinished], an id whose timeout has fired, and in general an
    id that is not a key of [this.entries], all report ['finished'] in
    memory; in Redis a key that is missing or has expired, and one just
    deleted by [markAsFinished], read as ['finished'] when the store
    answers the read. [getStatus] has no outcome of its own for them other
    than ['finished']: the only rejection is that of the store's [GET]. *)
Theorem C4_absent_reads_finished
    (ttl_ms : Z) (evs : list InMemory.Event) (id : string)
    (r rf rt : InMemory.Registry) (timer : nat) (t : InMemory.Timeout)
    (w wf we : Redis.World) (expiry dt : Z)
    (h : string → DbIdentifier → Settled bool) (env : Redis.Env) :
  Forall (λ ev, ev ≠ InMemory.Register id) evs →
  InMemory.entries r !! id = None →
  InMemory.timeouts rt !! timer = Some t →
  InMemory.t_due t <= InMemory.now rt →
  Redis.read (Redis.getKey id) w = None →
  Redis.expiresAt (Redis.getKey id) we = Some expiry →
  expiry <= Redis.now we + Z.max 0 dt →
  InMemory.getStatus id (InMemory.run evs (InMemory.create ttl_ms)) = finished ∧
  InMemory.getStatus id r = finished ∧
  InMemory.getStatus id (InMemory.markAsFinished id rf) = finished ∧
  InMemory.getStatus (InMemory.t_requestId t) (InMemory.fire timer rt)
  = finished ∧
  Redis.exec (Redis.reliable h) (Redis.getStatus id) w
  = (w, Fulfilled finished) ∧
  Redis.exec (Redis.reliable h) (Redis.getStatus id) Redis.empty
  = (Redis.empty, Fulfilled finished) ∧
  (Redis.exec (Redis.reliable h) (Redis.getStatus id)
     (Redis.exec (Redis.reliable h) (Redis.markAsFinished id) wf).1).2
  = Fulfilled finished ∧
  (Redis.exec (Redis.reliable h) (Redis.getStatus id)
     (Redis.advance dt we)).2 = Fulfilled finished ∧
  (Redis.exec env (Redis.getStatus id) w = (w, Fulfilled finished) ∨
   ∃ err, Redis.fault env (Redis.OpGet (Redis.getKey id)) = Some err ∧
          Redis.exec env (Redis.getStatus id) w = (w, Rejected err)).
Proof.
  intros Hevs Hr Ht Hdue Hw Hexp Hdt. repeat apply conj.
  - apply InMemoryFacts.getStatus_unmapped.
    by apply InMemoryFacts.unmapped_run.
  - by apply InMemoryFacts.getStatus_unmapped.
  - apply InMemoryFacts.getStatus_None, InMemoryFacts.get_entry_finish.
  - by apply InMemoryFacts.fire_expires.
  - rewrite RedisFacts.exec_getStatus. unfold Redis.status_of. by rewrite Hw.
  - by rewrite RedisFacts.exec_getStatus.
  - rewrite RedisFacts.exec_getStatus, RedisFacts.exec_finish. simpl.
    by rewrite RedisFacts.status_of_remove, decide_True.
  - rewrite RedisFacts.exec_getStatus. simpl. unfold Redis.status_of.
    by rewrite (RedisFacts.advance_expires _ _ _ _ Hexp Hdt).
  - by apply RedisFacts.getStatus_outcomes.
Qed.

Lemma C4_absent_reads_finished_witness :
  InMemory.getStatus "r1" mem_r1 = active ∧
  InMemory.getStatus "r1"
    (InMemory.run
       [InMemory.Register "r2"; InMemory.Mark "r2"; InMemory.Finish "r1"]
       (InMemory.create 3600000)) = finished ∧
  InMemory.getStatus "r1" (InMemory.create 3600000) = finished ∧
  InMemory.getStatus "r1"
    (InMemory.fire 0 (InMemory.advance 3600000 mem_r1)) = finished ∧
  (Redis.exec (Redis.reliable (resolves true)) (Redis.getStatus "r1")
     (Redis.advance 3600 redis_r1)).2 = Fulfilled finished.
Proof.
  split; [reflexivity|].
  pose proof (C4_absent_reads_finished 3600000
    [InMemory.Register "r2"; InMemory.Mark "r2"; InMemory.Finish "r1"] "r1"
    (InMemory.create 3600000) mem_r1 (InMemory.advance 3600000 mem_r1)
    0%nat (InMemory.mkTimeout "r1" 3600000)
    Redis.empty redis_r1 redis_r1 3600 3600 (resolves true)
    (Redis.reliable (resolves true))
    ltac:(repeat constructor; discriminate) eq_refl eq_refl
    ltac:(by vm_compute) eq_refl eq_refl ltac:(by vm_compute))
    as (Hnever & Hnew & _ & Hfire & _ & _ & _ & Hexp & _).
  split; [exact Hnever|]. split; [exact Hnew|].
  split; [exact Hfire|exact Hexp].
Defined.

(** ** C5: when [associateDbIdentifier] fails *)

(** C5, as stated, fails when the entry exists but is no longer
    ['active']: ["r2"] is ['cancelled'], so no active entry exists for it,
    yet [associateDbIdentifier("r2", { pid: 42 })] attaches the identifier
    and returns instead of signalling that nothing was found. *)
Lemma C5_associate_on_cancelled_entry :
  let res := InMemory.associateDbIdentifier "r2" (Some pid42)
               mem_r2_cancelled in
  let red := Redis.exec (Redis.reliable (resolves true))
               (Redis.associateDbIdentifier 3600 "r1" (Some (DbNum 7)))
               redis_two_marks.2 in
  InMemory.getStatus "r2" mem_r2_cancelled = cancelled ∧
  res.2 = Returns tt ∧
  InMemory.get_entry "r2" res.1
  = Some (0%nat, mkEntry cancelled (Some pid42)) ∧
  res.2 ≠ Throws (NoEntryFound "r2") ∧
  Redis.status_of "r1" redis_two_marks.2 = cancelled ∧
  red.2 = Fulfilled tt ∧ red.2 ≠ Rejected (NoEntryFound "r1").
Proof. repeat apply conj; try reflexivity; discriminate. Qed.

(** C5, amended: [associateDbIdentifier] throws "No entry found" exactly
    when no entry exists under the id, whatever status an existing entry
    has; on an existing entry it stores the identifier, keeps the status and
    succeeds. In Redis the same holds of the key, when the store answers. *)
Theorem C5_not_found_iff_no_entry
    (ttl_ms : Z) (history : list InMemory.Event) (id : string)
    (d : option DbIdentifier) (ttl : Z) (w : Redis.World)
    (h : string → DbIdentifier → Settled bool) :
  let r := InMemory.run history (InMemory.create ttl_ms) in
  let res := InMemory.associateDbIdentifier id d r in
  let red := Redis.exec (Redis.reliable h)
               (Redis.associateDbIdentifier ttl id d) w in
  match InMemory.entries r !! id with
  | None => res = (r, Throws (NoEntryFound id))
  | Some l =>
      res.2 = Returns tt ∧
      ∃ e, InMemory.objects r !! l = Some e ∧
           InMemory.get_entry id res.1 = Some (l, mkEntry (status e) d)
  end ∧
  match Redis.read (Redis.getKey id) w with
  | None => red = (w, Rejected (NoEntryFound id))
  | Some e =>
      red = (Redis.write (Redis.getKey id) (mkEntry (status e) d) ttl w,
             Fulfilled tt)
  end.
Proof.
  intros r res red. split.
  - pose proof (InMemoryFacts.history_wf ttl_ms history) as W. fold r in W.
    destruct (InMemory.entries r !! id) as [l|] eqn:E.
    + destruct (InMemory.wf_mapped r W id l E) as (e & He & _).
      assert (InMemory.get_entry id r = Some (l, e)) as G
        by by apply InMemoryFacts.get_entry_Some.
      subst res. rewrite (InMemoryFacts.associate_found id d l e r G).
      split; [done|]. exists e. split; [done|].
      by apply InMemoryFacts.get_entry_set_dbIdentifier.
    + apply InMemoryFacts.associate_missing.
      unfold InMemory.get_entry. by rewrite E.
  - destruct (Redis.read (Redis.getKey id) w) as [e|] eqn:R.
    + by apply RedisFacts.exec_associate_found.
    + by apply RedisFacts.exec_associate_missing.
Qed.

(** ** C6: [markForCancellation] off the active path *)

(** C6: when the id reports anything but ['active'] (its entry is absent,
    ['cancelling'], ['cancelled'] or ['finished']), [markForCancellation]
    returns at once with the registry, the pending calls and the hook's
    log as they were; in Redis it reads the key and returns when the store
    answers the read, and whatever the store does it leaves the store and
    the log as they were. *)
Theorem C6_mark_is_noop_unless_active
    (id : string) (r : InMemory.Registry) (ttl : Z) (w : Redis.World)
    (h : string → DbIdentifier → Settled bool) (env : Redis.Env) :
  InMemory.getStatus id r ≠ active → Redis.status_of id w ≠ active →
  InMemory.markForCancellation id r = (r, Some (Fulfilled tt)) ∧
  Redis.exec (Redis.reliable h) (Redis.markForCancellation ttl id) w
  = (w, Fulfilled tt) ∧
  (Redis.exec env (Redis.markForCancellation ttl id) w).1 = w.
Proof.
  intros Hr Hw. repeat apply conj.
  - by apply InMemoryFacts.mark_noop.
  - by apply RedisFacts.exec_mark_noop.
  - by apply RedisFacts.mark_noop_world.
Qed.

Lemma C6_mark_is_noop_unless_active_witness :
  InMemory.getStatus "r1" mem_r1_marked = cancelling ∧
  Redis.status_of "r1" Redis.empty = finished ∧
  InMemory.markForCancellation "r1" mem_r1_marked
  = (mem_r1_marked, Some (Fulfilled tt)) ∧
  Redis.exec (Redis.reliable (resolves true))
    (Redis.markForCancellation 3600 "r1") Redis.empty
  = (Redis.empty, Fulfilled tt).
Proof.
  split; [reflexivity|]. split; [reflexivity|].
  pose proof (C6_mark_is_noop_unless_active "r1" mem_r1_marked 3600
    Redis.empty (resolves true) (store_down (External "ECONNREFUSED"))
    ltac:(by vm_compute) ltac:(by vm_compute)) as (Hm & Hr & _).
  split; [exact Hm|exact Hr].
Defined.

(** ** C7: [register] when the store fails *)

(** C7, as stated, fails for the Redis backend: when [SET] fails,
    [register("r1")] hands its caller a promise rejected with the store's
    error; it does not return as a call that did nothing would. *)
Lemma C7_redis_register_rejects :
  let err := External "ECONNREFUSED" in
  let res := Redis.exec (store_down err) (Redis.register 3600 "r1")
               Redis.empty in
  res = (Redis.empty, Rejected err) ∧ res.2 ≠ Fulfilled tt.
Proof. split; [reflexivity|discriminate]. Qed.

(** C7, amended: on a failed store write the promise returned by the
    Redis [register] rejects with the store's error and the store is
    unchanged; the middleware that called it attaches a handler which
    writes the error to the console under "Failed to register request
    ID:" and goes on. The in-memory [register] writes to no store and
    hands back nothing to handle. *)
Theorem C7_register_failure_is_logged_by_middleware
    (env : Redis.Env) (ttl : Z) (id : string) (w : Redis.World) (err : Exn)
    (console : Middleware.Console) (r : InMemory.Registry) :
  Redis.fault env (Redis.OpSet (Redis.getKey id)) = Some err →
  Redis.exec env (Redis.register ttl id) w = (w, Rejected err) ∧
  Middleware.register_redis env ttl id w console
  = (w, console ++ [("Failed to register request ID:", err)]) ∧
  Middleware.register_inMemory id r console
  = (InMemory.register id r, console).
Proof.
  intros H. repeat apply conj.
  - by apply RedisFacts.register_fault.
  - unfold Middleware.register_redis.
    by rewrite (RedisFacts.register_fault env ttl id err w H).
  - done.
Qed.

Lemma C7_register_failure_is_logged_by_middleware_witness :
  let err := External "ECONNREFUSED" in
  Redis.fault (store_down err) (Redis.OpSet (Redis.getKey "r1")) = Some err ∧
  Middleware.register_redis (store_down err) 3600 "r1" Redis.empty []
  = (Redis.empty, [("Failed to register request ID:", err)]).
Proof.
  split; [reflexivity|].
  exact (proj1 (proj2 (C7_register_failure_is_logged_by_middleware
    (store_down (External "ECONNREFUSED")) 3600 "r1" Redis.empty
    (External "ECONNREFUSED") [] (InMemory.create 0) eq_refl))).
Defined.

(** ** C8: [register] called again *)



(** ** C9: [markAsFinished] *)

(** C9, at the failing input: in memory, with [ttlSeconds = 3600],
    [register("a")], one second later [register("a")] again, then
    [markAsFinished("a")]. The id reads ['finished'] and no timer is
    recorded for it, but [register] had overwritten the handle of the first
    timeout without clearing it, so [markAsFinished] has cleared the second
    timeout only: the first is still pending, due at 3600000. When ["a"] is
    registered again at 3599000, that timeout fires at 3600000 and deletes
    the new entry, whose own timeout is due at 7199000: the id reads
    ['finished'] one second after its registration. *)
Theorem C9_stale_timeout_survives_markAsFinished :
  let r := InMemory.run
             [InMemory.Register "a"; InMemory.Advance 1000;
              InMemory.Register "a"; InMemory.Finish "a"]
             (InMemory.create 3600000) in
  let again := InMemory.run
                 [InMemory.Advance 3598000; InMemory.Register "a";
                  InMemory.Advance 1000] r in
  (InMemory.getStatus "a" r = finished ∧
   InMemory.timers r !! "a" = None ∧
   InMemory.timeouts r !! 1%nat = None ∧
   InMemory.timeouts r !! 0%nat = Some (InMemory.mkTimeout "a" 3600000) ∧
   InMemory.expiresAt "a" r = Some 3600000) ∧
  (InMemory.now again = 3600000 ∧
   InMemory.getStatus "a" again = active ∧
   InMemory.timers again !! "a" = Some 2%nat ∧
   InMemory.timeouts again !! 2%nat
   = Some (InMemory.mkTimeout "a" 7199000) ∧
   InMemory.getStatus "a" (InMemory.fire 0 again) = finished ∧
   InMemory.entries (InMemory.fire 0 again) !! "a" = None).
Proof. vm_compute. repeat split. Qed.

(** C9, what holds: in memory, [markAsFinished] is a total function with
    no [throw] on any path. After it the id has no entry and reports
    ['finished'], no timer is recorded for it and the timeout that was
    recorded is no longer pending; on an id with no entry it changes
    nothing; a second call changes nothing more. In Redis, when the store
    answers, it deletes the key, after which the id reads as ['finished'],
    and a second call leaves the store as the first left it; the method has
    no [throw] of its own, its only rejection is that of the store's
    [DEL]. *)
Theorem C9_markAsFinished_idempotent
    (ttl_ms : Z) (history : list InMemory.Event) (id : string)
    (w : Redis.World) (h : string → DbIdentifier → Settled bool)
    (env : Redis.Env) :
  let r := InMemory.run history (InMemory.create ttl_ms) in
  let r' := InMemory.markAsFinished id r in
  let red := Redis.exec (Redis.reliable h) (Redis.markAsFinished id) w in
  (InMemory.getStatus id r' = finished ∧
   InMemory.entries r' !! id = None ∧
   InMemory.timers r' !! id = None ∧
   match InMemory.timers r !! id with
   | Some timer => InMemory.timeouts r' !! timer = None
   | None => r' = r
   end ∧
   InMemory.markAsFinished id r' = r') ∧
  (red.2 = Fulfilled tt ∧
   Redis.read (Redis.getKey id) red.1 = None ∧
   Redis.status_of id red.1 = finished ∧
   Redis.exec (Redis.reliable h) (Redis.markAsFinished id) red.1
   = (red.1, Fulfilled tt) ∧
   (Redis.exec env (Redis.markAsFinished id) w
    = (Redis.remove (Redis.getKey id) w, Fulfilled tt) ∨
    ∃ err, Redis.fault env (Redis.OpDel (Redis.getKey id)) = Some err ∧
           Redis.exec env (Redis.markAsFinished id) w = (w, Rejected err))).
Proof.
  intros r r' red.
  pose proof (InMemoryFacts.history_wf ttl_ms history) as W. fold r in W.
  split; repeat apply conj.
  - apply InMemoryFacts.getStatus_None, InMemoryFacts.get_entry_finish.
  - by apply InMemoryFacts.finish_unmapped.
  - by apply InMemoryFacts.finish_unmapped.
  - destruct (InMemory.timers r !! id) as [timer|] eqn:T.
    + apply (InMemoryFacts.finish_clears id timer r T).
      destruct (InMemory.entries r !! id) as [l|] eqn:E.
      * destruct (InMemory.wf_mapped r W id l E) as (e & He & _).
        exists (l, e). by apply InMemoryFacts.get_entry_Some.
      * apply (InMemory.wf_timers r W) in E. congruence.
    + apply InMemoryFacts.finish_absent.
      apply (InMemory.wf_timers r W) in T.
      unfold InMemory.get_entry. by rewrite T.
  - apply InMemoryFacts.finish_idem.
  - done.
  - subst red. rewrite RedisFacts.exec_finish. apply RedisFacts.read_remove_eq.
  - subst red. rewrite RedisFacts.exec_finish. simpl.
    by rewrite RedisFacts.status_of_remove, decide_True.
  - subst red. rewrite !RedisFacts.exec_finish. simpl.
    by rewrite RedisFacts.remove_remove.
  - apply RedisFacts.finish_outcomes.
Qed.

(** ** C10: what [associateDbIdentifier] leaves alone *)

(** C10: on an existing entry, whatever its status,
    [associateDbIdentifier] returns with the status as it was, the hook's
    log as it was and no call left waiting; in Redis the status written
    back is the one read, and no run of the method, whatever the store
    does, invokes the hook. *)
Theorem C10_associate_keeps_status
    (id : string) (d : option DbIdentifier) (l : nat) (e e' : Entry)
    (r : InMemory.Registry) (ttl : Z) (w : Redis.World)
    (h : string → DbIdentifier → Settled bool) (env : Redis.Env) :
  InMemory.get_entry id r = Some (l, e) →
  Redis.read (Redis.getKey id) w = Some e' → 0 < ttl →
  let res := InMemory.associateDbIdentifier id d r in
  let red := Redis.exec (Redis.reliable h)
               (Redis.associateDbIdentifier ttl id d) w in
  (res.2 = Returns tt ∧
   InMemory.getStatus id res.1 = status e ∧
   InMemory.calls res.1 = InMemory.calls r ∧
   InMemory.awaiting res.1 = InMemory.awaiting r) ∧
  (red.2 = Fulfilled tt ∧
   Redis.status_of id red.1 = status e' ∧
   Redis.calls red.1 = Redis.calls w ∧
   Redis.calls (Redis.exec env (Redis.associateDbIdentifier ttl id d) w).1
   = Redis.calls w).
Proof.
  intros G R Httl res red. split; repeat apply conj.
  - subst res. by rewrite (InMemoryFacts.associate_found id d l e r G).
  - subst res. rewrite (InMemoryFacts.associate_found id d l e r G). simpl.
    rewrite (InMemoryFacts.getStatus_Some id _ l (mkEntry (status e) d));
      [done|].
    by apply InMemoryFacts.get_entry_set_dbIdentifier.
  - subst res. by rewrite (InMemoryFacts.associate_found id d l e r G).
  - subst res. by rewrite (InMemoryFacts.associate_found id d l e r G).
  - subst red. by rewrite (RedisFacts.exec_associate_found h ttl id d e' w R).
  - subst red. rewrite (RedisFacts.exec_associate_found h ttl id d e' w R).
    simpl. by rewrite RedisFacts.status_of_write, !decide_True.
  - subst red. by rewrite (RedisFacts.exec_associate_found h ttl id d e' w R).
  - apply RedisFacts.associate_calls.
Qed.

Lemma C10_associate_keeps_status_witness :
  InMemory.getStatus "r1" mem_r1_marked = cancelling ∧
  Redis.status_of "r1" redis_r1 = active ∧
  InMemory.getStatus "r1"
    (InMemory.associateDbIdentifier "r1" (Some (DbNum 7)) mem_r1_marked).1
  = cancelling ∧
  InMemory.calls
    (InMemory.associateDbIdentifier "r1" (Some (DbNum 7)) mem_r1_marked).1
  = [("r1", pid42)] ∧
  Redis.status_of "r1"
    (Redis.exec (Redis.reliable (resolves true))
       (Redis.associateDbIdentifier 3600 "r1" (Some (DbNum 7))) redis_r1).1
  = active.
Proof.
  split; [reflexivity|]. split; [reflexivity|].
  pose proof (C10_associate_keeps_status "r1" (Some (DbNum 7)) 0%nat
    (mkEntry cancelling (Some pid42)) (mkEntry active (Some pid42))
    mem_r1_marked 3600 redis_r1 (resolves true)
    (Redis.reliable (resolves true)) eq_refl eq_refl ltac:(lia))
    as [(_ & Hs & Hc & _) (_ & Hr & _)].
  split; [exact Hs|]. split; [exact Hc|exact Hr].
Defined.

(** * Further properties of the registries *)

(** ** Calls on the Redis registry run alone *)

Module CallsFacts.
Import Redis Calls.

Lemma kv_write_ne key key' v ex w :
  key ≠ key' → kv (write key v ex w) !! key' = kv w !! key'.
Proof. intros H. simpl. by rewrite lookup_insert_ne. Qed.

Lemma kv_remove_ne key key' w :
  key ≠ key' → kv (remove key w) !! key' = kv w !! key'.
Proof. intros H. simpl. by rewrite lookup_delete_ne. Qed.

(** A call changes no key but its own, and not the clock. *)
Lemma perform_elsewhere env ttl c key w :
  key ≠ getKey (callee c) →
  kv (exec env (perform ttl c) w).1 !! key = kv w !! key ∧
  now (exec env (perform ttl c) w).1 = now w.
Proof.
  intros Hne. destruct c as [id|id|id d|id]; simpl in *.
  - unfold register. simpl.
    destruct (fault env (OpSet (getKey id))); simpl; [done|].
    by rewrite lookup_insert_ne.
  - unfold markForCancellation. simpl.
    destruct (fault env (OpGet (getKey id))); simpl; [done|].
    destruct (read (getKey id) w) as [e|]; simpl; [|done].
    case_decide; simpl; [|done].
    destruct (fault env (OpSet (getKey id))) eqn:F; simpl; [done|].
    destruct (dbIdentifier e) as [d|]; simpl.
    + destruct (hook env id d); simpl; rewrite ?F; simpl;
        by rewrite ?lookup_insert_ne.
    + rewrite F. simpl. by rewrite !lookup_insert_ne.
  - unfold associateDbIdentifier. simpl.
    destruct (fault env (OpGet (getKey id))); simpl; [done|].
    destruct (read (getKey id) w) as [e|]; simpl; [|done].
    destruct (fault env (OpSet (getKey id))); simpl; [done|].
    by rewrite lookup_insert_ne.
  - unfold markAsFinished. simpl.
    destruct (fault env (OpDel (getKey id))); simpl; [done|].
    by rewrite lookup_delete_ne.
Qed.

Lemma read_same key w w' :
  kv w' !! key = kv w !! key → now w' = now w →
  read key w' = read key w ∧ expiresAt key w' = expiresAt key w.
Proof. intros Hk Hn. unfold read, expiresAt. by rewrite Hk, Hn. Qed.

End CallsFacts.

(** ** X1: calls on one id leave the others alone *)

(** X1: a call of [register], [associateDbIdentifier],
    [markForCancellation] or [markAsFinished] for one id leaves the entry
    (status and identifier) and the recorded timer of every other id as
    they were, in memory for every history; in Redis it leaves the stored
    value and the expiry of every other id's key as they were, whatever
    the store and the hook do. *)
Theorem X1_other_ids_untouched
    (ttl_ms : Z) (history : list InMemory.Event) (ev : InMemory.Event)
    (id id' : string) (env : Redis.Env) (ttl : Z) (c : Calls.Call)
    (w : Redis.World) :
  let r := InMemory.run history (InMemory.create ttl_ms) in
  let w' := (Redis.exec env (Calls.perform ttl c) w).1 in
  Timing.addressed ev = Some id' → Calls.callee c = id' → id ≠ id' →
  (InMemory.get_entry id (InMemory.step ev r) = InMemory.get_entry id r ∧
   InMemory.timers (InMemory.step ev r) !! id = InMemory.timers r !! id) ∧
  (Redis.read (Redis.getKey id) w' = Redis.read (Redis.getKey id) w ∧
   Redis.expiresAt (Redis.getKey id) w'
   = Redis.expiresAt (Redis.getKey id) w).
Proof.
  intros r w' Hev Hc Hne. split.
  - apply (TimingFacts.step_elsewhere ev id id'); try done.
    apply InMemoryFacts.history_wf.
  - destruct (CallsFacts.perform_elsewhere env ttl c (Redis.getKey id) w)
      as [Hk Hn].
    { rewrite Hc. intros E. by apply RedisFacts.getKey_inj in E. }
    by apply CallsFacts.read_same.
Qed.

Lemma X1_other_ids_untouched_witness :
  InMemory.get_entry "r1"
    (InMemory.step (InMemory.Finish "r2")
       (InMemory.step (InMemory.Register "r2") mem_r1))
  = InMemory.get_entry "r1" (InMemory.step (InMemory.Register "r2") mem_r1) ∧
  Redis.read (Redis.getKey "r1")
    (Redis.exec (Redis.reliable (resolves true))
       (Redis.register 3600 "r2") redis_r1).1
  = Some (mkEntry active (Some pid42)).
Proof.
  pose proof (X1_other_ids_untouched 3600000
    [InMemory.Register "r1"; InMemory.Associate "r1" (Some pid42);
     InMemory.Register "r2"] (InMemory.Finish "r2") "r1" "r2"
    (Redis.reliable (resolves true)) 3600 (Calls.CallRegister "r2") redis_r1
    eq_refl eq_refl ltac:(discriminate)) as [[Hm _] [Hr _]].
  split; [exact Hm|exact Hr].
Defined.

(** ** X2: no expiry before the due time *)

(** X2: in memory, while the clock is below the earliest due time among
    the pending timeouts of an id, no sequence of events without
    [markAsFinished] of that id removes its entry: the id keeps an entry
    and does not read ['finished']. New registrations, cancellations, hook
    settlements, other ids' calls and other timers do not shorten its
    life. *)
Theorem X2_no_expiry_before_due
    (ttl_ms : Z) (history evs : list InMemory.Event) (id : string) (D : Z) :
  let r := InMemory.run history (InMemory.create ttl_ms) in
  is_Some (InMemory.entries r !! id) →
  InMemory.expiresAt id r = Some D →
  Forall (λ ev, ev ≠ InMemory.Finish id) evs →
  InMemory.now (InMemory.run evs r) < D →
  is_Some (InMemory.entries (InMemory.run evs r) !! id) ∧
  InMemory.getStatus id (InMemory.run evs r) ≠ finished.
Proof.
  intros r Hin Hexp Hevs Hnow.
  pose proof (TimingFacts.expiresAt_spec id r) as Hspec.
  rewrite Hexp in Hspec. destruct Hspec as [(h & t & Ht & Hid & Hdue) Hmin].
  pose proof (TimingFacts.history_timely ttl_ms history) as [Hb _].
  fold r in Hb. specialize (Hb h t Ht).
  assert (is_Some (InMemory.entries (InMemory.run evs r) !! id)) as Hkept.
  { apply (TimingFacts.kept_run evs id D r); try done. lia. }
  split; [done|].
  destruct Hkept as [l Hl].
  pose proof (InMemoryFacts.history_wf ttl_ms (history ++ evs)) as W.
  rewrite InMemoryFacts.run_app in W. fold r in W.
  destruct (InMemory.wf_mapped _ W id l Hl) as (e & He & Hs).
  rewrite (InMemoryFacts.getStatus_Some id _ l e); [done|].
  by apply InMemoryFacts.get_entry_Some.
Qed.

Lemma X2_no_expiry_before_due_witness :
  InMemory.expiresAt "r1" mem_r1 = Some 3600000 ∧
  InMemory.getStatus "r1"
    (InMemory.run
       [InMemory.Advance 3599999; InMemory.Fire 0; InMemory.Mark "r1";
        InMemory.Register "r1"; InMemory.Fire 0] mem_r1) ≠ finished.
Proof.
  split; [reflexivity|].
  exact (proj2 (X2_no_expiry_before_due 3600000
    [InMemory.Register "r1"; InMemory.Associate "r1" (Some pid42)]
    [InMemory.Advance 3599999; InMemory.Fire 0; InMemory.Mark "r1";
     InMemory.Register "r1"; InMemory.Fire 0] "r1" 3600000
    ltac:(by eexists) eq_refl ltac:(repeat constructor; discriminate)
    ltac:(by vm_compute))).
Defined.

(** ** X3: the timeout of a registration *)

(** X3: in memory, the timeout set by [register(id)] stays pending, due
    at the time of that registration plus the delay the runtime gives the
    timer ([ttl] when it lies in [1 .. 2^31 - 1] milliseconds, 1
    millisecond otherwise), through every later event other than its own
    firing and [markAsFinished(id)] - [register(id)] called again does not
    clear it. Once the clock has reached its due
    time, its firing leaves the id without entry, so the id reads
    ['finished'], also when the entry it removes was installed by a later
    [register(id)]. *)
Theorem X3_registration_timeout_fires
    (ttl_ms : Z) (history evs : list InMemory.Event) (id : string) :
  let r := InMemory.run history (InMemory.create ttl_ms) in
  let h := InMemory.next_handle r in
  let D := InMemory.now r + InMemory.delay (InMemory.ttl r) in
  let r' := InMemory.run evs (InMemory.register id r) in
  Forall (λ ev, ev ≠ InMemory.Fire h ∧ ev ≠ InMemory.Finish id) evs →
  D <= InMemory.now r' →
  InMemory.timeouts r' !! h = Some (InMemory.mkTimeout id D) ∧
  InMemory.getStatus id (InMemory.fire h r') = finished ∧
  InMemory.entries (InMemory.fire h r') !! id = None.
Proof.
  intros r h D r' Hevs Hnow.
  pose proof (TimingFacts.history_timely ttl_ms history) as T. fold r in T.
  destruct (TimingFacts.register_pending id r T) as (H1 & H2 & H3).
  assert (InMemory.timeouts r' !! h = Some (InMemory.mkTimeout id D)) as Hp
    by by apply (TimingFacts.pending_run evs id).
  split; [done|]. split.
  - by apply (InMemoryFacts.fire_expires h (InMemory.mkTimeout id D) r').
  - unfold InMemory.fire. rewrite Hp. simpl. rewrite decide_True by done.
    simpl. apply lookup_delete_eq.
Qed.

Lemma X3_registration_timeout_fires_witness :
  let r' := InMemory.run
              [InMemory.Advance 3000000; InMemory.Register "r1";
               InMemory.Advance 600000] (InMemory.register "r1"
                                           (InMemory.create 3600000)) in
  InMemory.getStatus "r1" r' = active ∧
  InMemory.expiresAt "r1" r' = Some 3600000 ∧
  InMemory.getStatus "r1" (InMemory.fire 0 r') = finished.
Proof.
  split; [reflexivity|]. split; [reflexivity|].
  exact (proj1 (proj2 (X3_registration_timeout_fires 3600000 []
    [InMemory.Advance 3000000; InMemory.Register "r1";
     InMemory.Advance 600000] "r1"
    ltac:(repeat constructor; discriminate) ltac:(by vm_compute)))).
Defined.

(** ** Association and cancellation together *)

Module AssociationFacts.
Import InMemory InMemoryFacts.

(** While an entry has left ['active'], calls of [markForCancellation] for
    its id and hook settlements leave the hook's log alone. *)
Lemma late_step ev id l r :
  entries r !! id = Some l →
  (∃ e, objects r !! l = Some e ∧ status e ≠ active) →
  mark_event id ev →
  entries (step ev r) !! id = Some l ∧
  (∃ e, objects (step ev r) !! l = Some e ∧ status e ≠ active) ∧
  calls (step ev r) = calls r.
Proof.
  intros Hl (e & He & Hs) Hev.
  destruct ev as [x|x d|x|k o|x|h|dt]; simpl in Hev; try done.
  - subst x. simpl. rewrite mark_noop; [by eauto|].
    rewrite (getStatus_Some id r l e); [done|]. by apply get_entry_Some.
  - simpl. unfold resume. destruct (awaiting r !! k) as [fr|]; [|by eauto].
    destruct o as [b|err]; simpl; [|by eauto].
    repeat apply conj; [done| |done].
    destruct (decide (f_entry fr = l)) as [E|E].
    + exists (mkEntry cancelled (dbIdentifier e)). split; [|done].
      rewrite list_lookup_alter, decide_True by done. by rewrite E, He.
    + exists e. split; [|done]. by rewrite list_lookup_alter, decide_False.
Qed.

Lemma late_run evs id l r :
  entries r !! id = Some l →
  (∃ e, objects r !! l = Some e ∧ status e ≠ active) →
  Forall (mark_event id) evs → calls (run evs r) = calls r.
Proof.
  revert r. induction evs as [|ev evs IH]; intros r Hl He Hevs; [done|].
  inversion Hevs as [|? ? Hev Hevs']; subst. rewrite run_cons.
  destruct (late_step ev id l r Hl He Hev) as (H1 & H2 & H3).
  by rewrite IH, H3.
Qed.

(** An id without entry: no event but its registration makes the hook
    run for it. *)
Lemma absent_calls_step ev id r :
  entries r !! id = None → ev ≠ Register id →
  invocations id (calls (step ev r)) = invocations id (calls r).
Proof.
  intros Hid Hev. destruct ev as [x|x d|x|k o|x|h|dt]; simpl.
  - done.
  - unfold associateDbIdentifier. by destruct (get_entry x r) as [[l e]|].
  - unfold markForCancellation.
    destruct (get_entry x r) as [[l e]|] eqn:G; [|done].
    case_decide; [|done]. destruct (dbIdentifier e) as [db|]; [|done].
    simpl. apply invocations_snoc_ne. intros ->.
    apply get_entry_Some in G as [G _]. congruence.
  - unfold resume. destruct (awaiting r !! k); [|done]. by destruct o.
  - unfold markAsFinished. destruct (get_entry x r) as [[l e]|]; [|done].
    simpl. by destruct (timers r !! x).
  - unfold fire. destruct (timeouts r !! h); [|done]. by case_decide.
  - done.
Qed.

Lemma absent_calls_run evs id r :
  entries r !! id = None → Forall (λ ev, ev ≠ Register id) evs →
  invocations id (calls (run evs r)) = invocations id (calls r).
Proof.
  revert r. induction evs as [|ev evs IH]; intros r Hid Hevs; [done|].
  inversion Hevs as [|? ? Hev Hevs']; subst. rewrite run_cons.
  rewrite IH; [by apply absent_calls_step| |done].
  by apply unmapped_step.
Qed.

End AssociationFacts.

(** ** X4: which identifier the hook is given *)

(** X4: [markForCancellation] on an ['active'] entry passes the hook the
    identifier given to the latest [associateDbIdentifier], whatever was
    associated before. When that identifier is [undefined] the hook is not
    invoked at all: the entry goes to ['cancelled'] and the call is
    fulfilled at once. *)
Theorem X4_hook_gets_latest_identifier
    (id : string) (l : nat) (e e' : Entry) (d : option DbIdentifier)
    (r : InMemory.Registry) (ttl : Z) (w : Redis.World)
    (h : string → DbIdentifier → Settled bool) :
  InMemory.get_entry id r = Some (l, e) → status e = active →
  Redis.read (Redis.getKey id) w = Some e' → status e' = active → 0 < ttl →
  let mem := InMemory.markForCancellation id
               (InMemory.associateDbIdentifier id d r).1 in
  let red := Redis.exec (Redis.reliable h) (Redis.markForCancellation ttl id)
               (Redis.exec (Redis.reliable h)
                  (Redis.associateDbIdentifier ttl id d) w).1 in
  match d with
  | Some x =>
      mem.2 = None ∧
      InMemory.calls mem.1 = InMemory.calls r ++ [(id, x)] ∧
      InMemory.getStatus id mem.1 = cancelling ∧
      Redis.calls red.1 = Redis.calls w ++ [(id, x)]
  | None =>
      mem.2 = Some (Fulfilled tt) ∧
      InMemory.calls mem.1 = InMemory.calls r ∧
      InMemory.awaiting mem.1 = InMemory.awaiting r ∧
      InMemory.getStatus id mem.1 = cancelled ∧
      red.2 = Fulfilled tt ∧
      Redis.calls red.1 = Redis.calls w ∧
      Redis.status_of id red.1 = cancelled
  end.
Proof.
  intros G Hs R Hs' Httl mem red.
  pose proof (InMemoryFacts.get_entry_set_dbIdentifier id l e d r G) as G1.
  rewrite Hs in G1.
  assert (Redis.read (Redis.getKey id)
            (Redis.exec (Redis.reliable h)
               (Redis.associateDbIdentifier ttl id d) w).1
          = Some (mkEntry active d)) as R1.
  { rewrite (RedisFacts.exec_associate_found h ttl id d e' w R). simpl.
    rewrite Hs'. by apply RedisFacts.read_write_eq. }
  assert (mem = InMemory.markForCancellation id
                  (InMemory.set_dbIdentifier l d r)) as Hmem.
  { subst mem. by rewrite (InMemoryFacts.associate_found id d l e r G). }
  assert (Redis.calls
            (Redis.exec (Redis.reliable h)
               (Redis.associateDbIdentifier ttl id d) w).1
          = Redis.calls w) as Hcalls.
  { by rewrite (RedisFacts.exec_associate_found h ttl id d e' w R). }
  destruct d as [x|].
  - destruct (InMemoryFacts.mark_suspends id l _ x _ G1 eq_refl eq_refl)
      as (H1 & _ & H3 & H4).
    rewrite Hmem. repeat apply conj; [done|done| |].
    + by rewrite (InMemoryFacts.getStatus_Some _ _ _ _ H4).
    + subst red. rewrite (RedisFacts.exec_mark_hook h ttl id x _ R1).
      destruct (h id x);
        cbn [fst Redis.calls Redis.write Redis.invoke]; by rewrite Hcalls.
  - rewrite Hmem.
    rewrite (InMemoryFacts.mark_plain id l _ _ G1 eq_refl eq_refl).
    subst red. rewrite (RedisFacts.exec_mark_plain h ttl id _ R1).
    repeat apply conj; try done.
    + rewrite (InMemoryFacts.getStatus_Some id _ l (mkEntry cancelled None));
        [done|].
      apply (InMemoryFacts.get_entry_set_status id l
               (mkEntry cancelling None) cancelled).
      by apply (InMemoryFacts.get_entry_set_status id l
                  (mkEntry active None) cancelling).
    + simpl. by rewrite RedisFacts.status_of_write, !decide_True.
Qed.

Lemma X4_hook_gets_latest_identifier_witness :
  InMemory.calls
    (InMemory.markForCancellation "r1"
       (InMemory.associateDbIdentifier "r1" (Some (DbNum 7)) mem_r1).1).1
  = [("r1", DbNum 7)] ∧
  Redis.calls
    (Redis.exec (Redis.reliable (resolves true))
       (Redis.markForCancellation 3600 "r1")
       (Redis.exec (Redis.reliable (resolves true))
          (Redis.associateDbIdentifier 3600 "r1" (Some (DbNum 7)))
          redis_r1).1).1
  = [("r1", DbNum 7)].
Proof.
  pose proof (X4_hook_gets_latest_identifier "r1" 0%nat
    (mkEntry active (Some pid42)) (mkEntry active (Some pid42))
    (Some (DbNum 7)) mem_r1 3600 redis_r1 (resolves true)
    eq_refl eq_refl eq_refl eq_refl ltac:(lia)) as (_ & Hm & _ & Hr).
  split; [exact Hm|exact Hr].
Defined.

(** ** X5: an identifier that comes too late *)

(** X5: an identifier associated with an entry that has already left
    ['active'] (cancellation has begun or is over) is never passed to the
    hook: in memory no sequence of [markForCancellation] calls for the id
    and hook settlements after it adds to the hook's log; in Redis no
    number of later calls does. *)
Theorem X5_late_identifier_never_reaches_hook
    (id : string) (l : nat) (e e' : Entry) (d : option DbIdentifier)
    (r : InMemory.Registry) (evs : list InMemory.Event)
    (ttl : Z) (w : Redis.World) (n : nat)
    (h : string → DbIdentifier → Settled bool) :
  InMemory.get_entry id r = Some (l, e) → status e ≠ active →
  Forall (InMemory.mark_event id) evs →
  Redis.read (Redis.getKey id) w = Some e' → status e' ≠ active → 0 < ttl →
  InMemory.calls
    (InMemory.run evs (InMemory.associateDbIdentifier id d r).1)
  = InMemory.calls r ∧
  Redis.calls
    (Redis.repeat_mark (Redis.reliable h) ttl id n
       (Redis.exec (Redis.reliable h)
          (Redis.associateDbIdentifier ttl id d) w).1)
  = Redis.calls w.
Proof.
  intros G Hs Hevs R Hs' Httl. split.
  - pose proof (InMemoryFacts.get_entry_set_dbIdentifier id l e d r G) as G1.
    rewrite (InMemoryFacts.associate_found id d l e r G). simpl.
    apply InMemoryFacts.get_entry_Some in G1 as [Hl Ho].
    rewrite (AssociationFacts.late_run evs id l); try done.
    by exists (mkEntry (status e) d).
  - rewrite RedisFacts.repeat_mark_noop.
    + by rewrite (RedisFacts.exec_associate_found h ttl id d e' w R).
    + rewrite (RedisFacts.exec_associate_found h ttl id d e' w R). simpl.
      by rewrite RedisFacts.status_of_write, !decide_True.
Qed.

Lemma X5_late_identifier_never_reaches_hook_witness :
  InMemory.getStatus "r1" mem_r1_marked = cancelling ∧
  InMemory.calls
    (InMemory.run
       [InMemory.Mark "r1"; InMemory.Settle 0 (Fulfilled true);
        InMemory.Mark "r1"]
       (InMemory.associateDbIdentifier "r1" (Some (DbNum 7))
          mem_r1_marked).1) = [("r1", pid42)] ∧
  Redis.calls
    (Redis.repeat_mark (Redis.reliable (resolves true)) 3600 "r1" 2
       (Redis.exec (Redis.reliable (resolves true))
          (Redis.associateDbIdentifier 3600 "r1" (Some (DbNum 7)))
          redis_two_marks.2).1)
  = [("r1", pid42); ("r1", pid42)].
Proof.
  split; [reflexivity|].
  exact (X5_late_identifier_never_reaches_hook "r1" 0%nat
    (mkEntry cancelling (Some pid42)) (mkEntry cancelled (Some pid42))
    (Some (DbNum 7)) mem_r1_marked
    [InMemory.Mark "r1"; InMemory.Settle 0 (Fulfilled true);
     InMemory.Mark "r1"]
    3600 redis_two_marks.2 2%nat (resolves true)
    eq_refl ltac:(discriminate) ltac:(repeat constructor)
    eq_refl ltac:(discriminate) ltac:(lia)).
Defined.

(** ** X6: an id that is finished stays finished *)

(** X6: in memory, once [markAsFinished(id)] has run, the id reads
    ['finished'] and the hook is not invoked for it under every later
    sequence of events that has no [register(id)]: a hook that settles
    afterwards writes to the entry object it captured, which is no longer
    in the map, and a timeout left pending finds nothing to bring back. *)
Theorem X6_finished_stays_finished
    (ttl_ms : Z) (history evs : list InMemory.Event) (id : string) :
  let r := InMemory.markAsFinished id
             (InMemory.run history (InMemory.create ttl_ms)) in
  Forall (λ ev, ev ≠ InMemory.Register id) evs →
  InMemory.getStatus id (InMemory.run evs r) = finished ∧
  invocations id (InMemory.calls (InMemory.run evs r))
  = invocations id (InMemory.calls r).
Proof.
  intros r Hevs.
  assert (InMemory.entries r !! id = None) as Hid.
  { apply InMemoryFacts.finish_unmapped, InMemoryFacts.history_wf. }
  split.
  - apply InMemoryFacts.getStatus_unmapped.
    by apply InMemoryFacts.unmapped_run.
  - by apply AssociationFacts.absent_calls_run.
Qed.

Lemma X6_finished_stays_finished_witness :
  InMemory.getStatus "r1" mem_r1_marked = cancelling ∧
  InMemory.getStatus "r1"
    (InMemory.run
       [InMemory.Settle 0 (Fulfilled true); InMemory.Mark "r1";
        InMemory.Advance 3600000; InMemory.Fire 0]
       (InMemory.markAsFinished "r1" mem_r1_marked)) = finished.
Proof.
  split; [reflexivity|].
  exact (proj1 (X6_finished_stays_finished 3600000
    [InMemory.Register "r1"; InMemory.Associate "r1" (Some pid42);
     InMemory.Mark "r1"]
    [InMemory.Settle 0 (Fulfilled true); InMemory.Mark "r1";
     InMemory.Advance 3600000; InMemory.Fire 0] "r1"
    ltac:(repeat constructor; discriminate))).
Defined.

(** ** Redis calls in flight together *)

Module RaceFacts.
Import Redis.

Lemma interleave_cons env i sched p :
  interleave env (i :: sched) p = interleave env sched (step_at env i p).
Proof. done. Qed.

Lemma interleave_nil env p : interleave env [] p = p.
Proof. done. Qed.

Lemma step_at_lookup env i t ts w :
  ts !! i = Some t →
  step_at env i (ts, w) = (<[i := (step env t w).1]> ts, (step env t w).2).
Proof.
  intros H. unfold step_at. simpl. rewrite H. by destruct (step env t w).
Qed.

Section Reliable.
Variable h : string → DbIdentifier → Settled bool.

Lemma step_get {A} key (k : option Entry → Task A) w :
  step (reliable h) (await_get key k) w = (k (read key w), w).
Proof. done. Qed.

Lemma step_set {A} key v ex (k : unit → Task A) w :
  step (reliable h) (await_set key v ex k) w = (k tt, write key v ex w).
Proof. done. Qed.

Lemma step_del {A} key (k : unit → Task A) w :
  step (reliable h) (await_del key k) w = (k tt, remove key w).
Proof. done. Qed.

Lemma step_hook {A} id d (k : bool → Task A) w :
  step (reliable h) (await_hook id d k) w
  = (rethrow k (h id d), invoke id d w).
Proof. done. Qed.

(** [markForCancellation] command by command, on an ['active'] entry
    with an identifier and a hook that fulfils. *)
Lemma mark_steps ttl id d b w w1 w2 w3 :
  read (getKey id) w = Some (mkEntry active (Some d)) →
  h id d = Fulfilled b →
  ∃ t1 t2 t3,
    step (reliable h) (markForCancellation ttl id) w = (t1, w) ∧
    step (reliable h) t1 w1
    = (t2, write (getKey id) (mkEntry cancelling (Some d)) ttl w1) ∧
    step (reliable h) t2 w2 = (t3, invoke id d w2) ∧
    step (reliable h) t3 w3
    = (Return tt, write (getKey id) (mkEntry cancelled (Some d)) ttl w3).
Proof.
  intros R Hh. unfold markForCancellation. rewrite step_get, R.
  rewrite decide_True by done. simpl dbIdentifier.
  eexists _, _, _. split; [reflexivity|].
  rewrite step_set. split; [reflexivity|].
  rewrite step_hook, Hh. simpl rethrow. split; [reflexivity|].
  by rewrite step_set.
Qed.

(** [associateDbIdentifier] command by command, on an existing entry. *)
Lemma associate_steps ttl id d e w w1 :
  read (getKey id) w = Some e →
  ∃ t1,
    step (reliable h) (associateDbIdentifier ttl id d) w = (t1, w) ∧
    step (reliable h) t1 w1
    = (Return tt, write (getKey id) (mkEntry (status e) d) ttl w1).
Proof.
  intros R. unfold associateDbIdentifier. rewrite step_get, R.
  eexists. split; [reflexivity|]. by rewrite step_set.
Qed.

End Reliable.

End RaceFacts.

(** ** X7: [markAsFinished] overtaken by a cancellation in flight *)

(** X7: in Redis, when [markAsFinished(id)] deletes the key after a
    [markForCancellation(id)] in flight has invoked the hook and before
    that call writes ['cancelled'], the id reads ['finished'] for a moment
    and then the cancellation's last write stores the entry again: the id
    reads ['cancelled'] and lives for a new [ttl]. *)
Theorem X7_redis_finish_overtaken
    (id : string) (d : DbIdentifier) (b : bool) (ttl : Z) (w : Redis.World)
    (h : string → DbIdentifier → Settled bool) :
  0 < ttl → Redis.read (Redis.getKey id) w = Some (mkEntry active (Some d)) →
  h id d = Fulfilled b →
  let start := ([Redis.markForCancellation ttl id; Redis.markAsFinished id],
                w) in
  let before := Redis.interleave (Redis.reliable h) [0; 0; 0; 1]%nat start in
  let after := Redis.interleave (Redis.reliable h) [0; 0; 0; 1; 0]%nat start in
  Redis.status_of id before.2 = finished ∧
  after.1 = [Redis.Return tt; Redis.Return tt] ∧
  Redis.status_of id after.2 = cancelled ∧
  Redis.expiresAt (Redis.getKey id) after.2 = Some (Redis.now w + ttl).
Proof.
  intros Httl R Hh start before after.
  destruct (RaceFacts.mark_steps h ttl id d b w w
              (Redis.write (Redis.getKey id) (mkEntry cancelling (Some d))
                 ttl w)
              (Redis.remove (Redis.getKey id)
                 (Redis.invoke id d
                    (Redis.write (Redis.getKey id)
                       (mkEntry cancelling (Some d)) ttl w))) R Hh)
    as (t1 & t2 & t3 & S1 & S2 & S3 & S4).
  assert (before = ([t3; Redis.Return tt],
             Redis.remove (Redis.getKey id)
               (Redis.invoke id d
                  (Redis.write (Redis.getKey id)
                     (mkEntry cancelling (Some d)) ttl w)))) as E4.
  { subst before start.
    rewrite !RaceFacts.interleave_cons, RaceFacts.interleave_nil.
    erewrite RaceFacts.step_at_lookup by reflexivity. rewrite S1. simpl.
    erewrite RaceFacts.step_at_lookup by reflexivity. rewrite S2. simpl.
    erewrite RaceFacts.step_at_lookup by reflexivity. rewrite S3. simpl.
    by erewrite RaceFacts.step_at_lookup by reflexivity. }
  assert (after = Redis.step_at (Redis.reliable h) 0 before) as Ea by done.
  rewrite Ea, E4.
  erewrite RaceFacts.step_at_lookup by reflexivity. rewrite S4. simpl.
  repeat apply conj.
  - by rewrite RedisFacts.status_of_remove, decide_True.
  - done.
  - by rewrite RedisFacts.status_of_write, !decide_True.
  - unfold Redis.expiresAt. simpl. rewrite lookup_insert_eq.
    rewrite decide_True; [done|lia].
Qed.

Lemma X7_redis_finish_overtaken_witness :
  Redis.status_of "r1"
    (Redis.interleave (Redis.reliable (resolves true)) [0; 0; 0; 1; 0]%nat
       ([Redis.markForCancellation 3600 "r1"; Redis.markAsFinished "r1"],
        redis_r1)).2 = cancelled.
Proof.
  exact (proj1 (proj2 (proj2 (X7_redis_finish_overtaken "r1" pid42 true 3600
    redis_r1 (resolves true) ltac:(lia) eq_refl eq_refl)))).
Defined.

(** ** X8: [associateDbIdentifier] overtaken by a cancellation *)

(** X8: in Redis, when an [associateDbIdentifier(id, d)] has read the
    ['active'] entry and a whole [markForCancellation(id)] runs before it
    writes, its write stores the status it had read: the id, which read
    ['cancelled'], reads ['active'] again, now with the identifier [d]; the
    hook has run once, for the identifier that was there before. *)
Theorem X8_redis_associate_overtaken
    (id : string) (d0 : DbIdentifier) (d : option DbIdentifier) (b : bool)
    (ttl : Z) (w : Redis.World) (h : string → DbIdentifier → Settled bool) :
  0 < ttl →
  Redis.read (Redis.getKey id) w = Some (mkEntry active (Some d0)) →
  h id d0 = Fulfilled b →
  let start := ([Redis.associateDbIdentifier ttl id d;
                 Redis.markForCancellation ttl id], w) in
  let before :=
    Redis.interleave (Redis.reliable h) [0; 1; 1; 1; 1]%nat start in
  let after :=
    Redis.interleave (Redis.reliable h) [0; 1; 1; 1; 1; 0]%nat start in
  Redis.status_of id before.2 = cancelled ∧
  after.1 = [Redis.Return tt; Redis.Return tt] ∧
  Redis.read (Redis.getKey id) after.2 = Some (mkEntry active d) ∧
  Redis.calls after.2 = Redis.calls w ++ [(id, d0)].
Proof.
  intros Httl R Hh start before after.
  set (w1 := Redis.write (Redis.getKey id) (mkEntry cancelling (Some d0))
               ttl w).
  set (w2 := Redis.invoke id d0 w1).
  set (w3 := Redis.write (Redis.getKey id) (mkEntry cancelled (Some d0))
               ttl w2).
  destruct (RaceFacts.mark_steps h ttl id d0 b w w w1 w2 R Hh)
    as (t1 & t2 & t3 & S1 & S2 & S3 & S4).
  destruct (RaceFacts.associate_steps h ttl id d _ w w3 R) as (a1 & A1 & A2).
  assert (before = ([a1; Redis.Return tt], w3)) as E5.
  { subst before start.
    rewrite !RaceFacts.interleave_cons, RaceFacts.interleave_nil.
    erewrite RaceFacts.step_at_lookup by reflexivity. rewrite A1. simpl.
    erewrite RaceFacts.step_at_lookup by reflexivity. rewrite S1. simpl.
    erewrite RaceFacts.step_at_lookup by reflexivity. rewrite S2. simpl.
    erewrite RaceFacts.step_at_lookup by reflexivity.
    fold w1. rewrite S3. simpl.
    erewrite RaceFacts.step_at_lookup by reflexivity.
    fold w2. by rewrite S4. }
  assert (after = Redis.step_at (Redis.reliable h) 0 before) as Ea by done.
  rewrite Ea, E5.
  erewrite RaceFacts.step_at_lookup by reflexivity. rewrite A2. simpl.
  repeat apply conj.
  - subst w3. by rewrite RedisFacts.status_of_write, !decide_True.
  - done.
  - by apply RedisFacts.read_write_eq.
  - done.
Qed.

Lemma X8_redis_associate_overtaken_witness :
  Redis.status_of "r1"
    (Redis.interleave (Redis.reliable (resolves true)) [0; 1; 1; 1; 1; 0]%nat
       ([Redis.associateDbIdentifier 3600 "r1" (Some (DbNum 7));
         Redis.markForCancellation 3600 "r1"], redis_r1)).2 = active.
Proof.
  pose proof (X8_redis_associate_overtaken "r1" pid42 (Some (DbNum 7)) true
    3600 redis_r1 (resolves true) ltac:(lia) eq_refl eq_refl)
    as (_ & _ & Hr & _).
  unfold Redis.status_of. by rewrite Hr.
Defined.

(** ** X9: what restarts the time to live *)

(** X9: in Redis every write of an entry restarts its time to live:
    after [associateDbIdentifier] on an existing entry, and after
    [markForCancellation] on an ['active'] one however the hook settles,
    the key expires [ttl] after the call; [getStatus] writes nothing. In
    memory the expiry is set by [register] alone: [associateDbIdentifier],
    [markForCancellation] and the settlement of a hook leave the pending
    timeouts of every id as they were. *)
Theorem X9_time_to_live_restarts_on_write
    (id id' : string) (d : option DbIdentifier) (e : Entry)
    (k : nat) (o : Settled bool) (r : InMemory.Registry)
    (ttl : Z) (w : Redis.World) (h : string → DbIdentifier → Settled bool) :
  Redis.read (Redis.getKey id) w = Some e → 0 < ttl →
  Redis.expiresAt (Redis.getKey id)
    (Redis.exec (Redis.reliable h) (Redis.associateDbIdentifier ttl id d)
       w).1 = Some (Redis.now w + ttl) ∧
  (status e = active →
   Redis.expiresAt (Redis.getKey id)
     (Redis.exec (Redis.reliable h) (Redis.markForCancellation ttl id) w).1
   = Some (Redis.now w + ttl)) ∧
  (Redis.exec (Redis.reliable h) (Redis.getStatus id) w).1 = w ∧
  InMemory.expiresAt id'
    (InMemory.step (InMemory.Associate id d) r) = InMemory.expiresAt id' r ∧
  InMemory.expiresAt id' (InMemory.step (InMemory.Mark id) r)
  = InMemory.expiresAt id' r ∧
  InMemory.expiresAt id' (InMemory.step (InMemory.Settle k o) r)
  = InMemory.expiresAt id' r.
Proof.
  intros R Httl. repeat apply conj.
  - rewrite (RedisFacts.exec_associate_found h ttl id d e w R).
    by apply RedisFacts.expiresAt_write.
  - intros Hs. destruct e as [s [x|]]; simpl in Hs; subst s.
    + rewrite (RedisFacts.exec_mark_hook h ttl id x w R).
      destruct (h id x); simpl; unfold Redis.expiresAt; simpl;
        rewrite ?lookup_insert_eq; rewrite decide_True; done || lia.
    + rewrite (RedisFacts.exec_mark_plain h ttl id w R). simpl.
      unfold Redis.expiresAt. simpl. rewrite lookup_insert_eq.
      rewrite decide_True; [done|lia].
  - by rewrite RedisFacts.exec_getStatus.
  - unfold InMemory.expiresAt.
    by destruct (TimingFacts.quiet_fields (InMemory.Associate id d) r I)
      as (_ & _ & -> & _).
  - unfold InMemory.expiresAt.
    by destruct (TimingFacts.quiet_fields (InMemory.Mark id) r I)
      as (_ & _ & -> & _).
  - unfold InMemory.expiresAt.
    by destruct (TimingFacts.quiet_fields (InMemory.Settle k o) r I)
      as (_ & _ & -> & _).
Qed.

Lemma X9_time_to_live_restarts_on_write_witness :
  Redis.expiresAt (Redis.getKey "r1") (Redis.advance 100 redis_r1)
  = Some 3600 ∧
  Redis.expiresAt (Redis.getKey "r1")
    (Redis.exec (Redis.reliable (resolves true))
       (Redis.associateDbIdentifier 3600 "r1" (Some (DbNum 7)))
       (Redis.advance 100 redis_r1)).1 = Some 3700.
Proof.
  split; [reflexivity|].
  exact (proj1 (X9_time_to_live_restarts_on_write "r1" "r1" (Some (DbNum 7))
    (mkEntry active (Some pid42)) 0%nat (Fulfilled true) mem_r1 3600
    (Redis.advance 100 redis_r1) (resolves true) eq_refl ltac:(lia))).
Defined.

(** ** X10: which registry a configuration gives *)

(** X10: [createCancellationRegistry] fails exactly when the type is
    ['redis'] and [redisClient] is not an object with a [set] function
    (with one message when the client is missing or falsy, another when it
    is there but unusable); [get] and [del] are not looked at. For every
    other type it gives the in-memory registry, whatever [redisClient] is.
    [ttlSeconds] defaults to 3600. The first registration in a new
    in-memory registry is due to expire [ttlSeconds * 1000] milliseconds
    after creation when [ttlSeconds] lies between 1 and 2147483; outside
    that range the delay of its timer is 1 millisecond. *)
Theorem X10_registry_construction
    (registry : option Config.RegistryConfig) (id : string) :
  let cfg := default (Config.mkRegistryConfig None None None) registry in
  let made := Config.createCancellationRegistry registry in
  let T := default 3600 (Config.ttlSeconds cfg) in
  ((∃ msg, made = Config.Fails msg) ↔
   Config.type cfg = Some Config.redis ∧
   Config.redisClient cfg ≠ Some (Config.ClientObject true)) ∧
  (Config.type cfg = Some Config.redis →
   Config.falsy (Config.redisClient cfg) = true →
   made = Config.Fails
            "Redis client must be provided when using redis registry type") ∧
  (Config.type cfg = Some Config.redis →
   Config.redisClient cfg = Some (Config.ClientObject true) →
   made = Config.Constructed (Config.RedisInstance T)) ∧
  (Config.type cfg ≠ Some Config.redis →
   made = Config.Constructed
            (Config.InMemoryInstance (InMemory.create (T * 1000))) ∧
   InMemory.expiresAt id
     (InMemory.register id (InMemory.create (T * 1000)))
   = Some (if decide (1 <= T ∧ T <= 2147483) then T * 1000 else 1)).
Proof.
  intros cfg made T.
  assert (InMemory.expiresAt id
            (InMemory.register id (InMemory.create (T * 1000)))
          = Some (if decide (1 <= T ∧ T <= 2147483) then T * 1000 else 1))
    as Hexp.
  { unfold InMemory.expiresAt. simpl. rewrite insert_empty.
    rewrite map_fold_singleton. rewrite decide_True by done. simpl.
    f_equal. unfold InMemory.delay, InMemory.TIMEOUT_MAX.
    repeat case_decide; lia. }
  subst made T. unfold Config.createCancellationRegistry.
  fold cfg.
  destruct (Config.type cfg) as [[|]|] eqn:Ety;
    [|destruct (Config.redisClient cfg) as [[|[|]| |[|]]|] eqn:Ecl|];
    simpl; repeat apply conj;
    first [ done | by intros [? ?] | by (intros; eexists) | by intros ].
Qed.

Lemma X10_registry_construction_witness :
  Config.createCancellationRegistry
    (Some (Config.mkRegistryConfig (Some Config.redis) (Some 60) None))
  = Config.Fails
      "Redis client must be provided when using redis registry type" ∧
  Config.createCancellationRegistry
    (Some (Config.mkRegistryConfig (Some Config.redis) (Some 60)
             (Some (Config.ClientObject true))))
  = Config.Constructed (Config.RedisInstance 60) ∧
  InMemory.expiresAt "r1"
    (InMemory.register "r1" (InMemory.create (3600 * 1000)))
  = Some (3600 * 1000) ∧
  InMemory.expiresAt "r1"
    (InMemory.register "r1" (InMemory.create (3000000 * 1000)))
  = Some 1.
Proof.
  pose proof (X10_registry_construction
    (Some (Config.mkRegistryConfig (Some Config.redis) (Some 60) None)) "r1")
    as (_ & H1 & _).
  pose proof (X10_registry_construction
    (Some (Config.mkRegistryConfig (Some Config.redis) (Some 60)
             (Some (Config.ClientObject true)))) "r1") as (_ & _ & H2 & _).
  pose proof (X10_registry_construction None "r1") as (_ & _ & _ & H3).
  pose proof (X10_registry_construction
    (Some (Config.mkRegistryConfig None (Some 3000000) None)) "r1")
    as (_ & _ & _ & H4).
  split; [exact (H1 eq_refl eq_refl)|].
  split; [exact (H2 eq_refl eq_refl)|].
  split; [exact (proj2 (H3 ltac:(discriminate)))|].
  exact (proj2 (H4 ltac:(discriminate))).
Defined.

(** ** X11: the handler wrappers and an entry that is gone *)

(** X11: over the in-memory registry the Express wrapper (and the Elysia
    one, which runs the same steps) fails to reach the wrapped handler in
    exactly one case: the request id and the identifier are both truthy and
    the id has no entry; [associateDbIdentifier] then throws inside the
    wrapper, whose promise rejects with "No entry found". The Fastify
    wrapper logs that error and calls the handler. Over the Redis registry
    the Express and the Fastify wrapper call the handler. A falsy
    identifier ([undefined], [null], [0], [""]) or request id is never
    associated. *)
Theorem X11_wrapper_and_missing_entry
    (requestId : option string) (d : option DbIdentifier)
    (r : InMemory.Registry) (console : Middleware.Console)
    (env : Redis.Env) (ttl : Z) (w : Redis.World) (e : Exn) :
  let id := default "" requestId in
  let ex := Adapters.express_inMemory requestId d r console in
  let el := Adapters.elysia_inMemory requestId d (Some r) console in
  let fa := Adapters.fastify_inMemory requestId d r console in
  (ex.2 = Adapters.RejectsBeforeHandler e ↔
   Adapters.present requestId = true ∧ Adapters.truthy d = true ∧
   InMemory.get_entry id r = None ∧ e = NoEntryFound id) ∧
  el.2 = ex.2 ∧
  fa.2 = Adapters.CallsHandler ∧
  (Adapters.present requestId = true → Adapters.truthy d = true →
   InMemory.get_entry id r = None →
   fa = (r, console ++ [(Adapters.label_fastify, NoEntryFound id)],
         Adapters.CallsHandler)) ∧
  (Adapters.express_redis env ttl requestId d w console).2
  = Adapters.CallsHandler ∧
  (Adapters.fastify_redis env ttl requestId d w console).2
  = Adapters.CallsHandler ∧
  (Adapters.present requestId && Adapters.truthy d = false →
   ex = (r, console, Adapters.CallsHandler) ∧
   fa = (r, console, Adapters.CallsHandler) ∧
   Adapters.express_redis env ttl requestId d w console
   = (w, console, Adapters.CallsHandler) ∧
   Adapters.fastify_redis env ttl requestId d w console
   = (w, console, Adapters.CallsHandler)).
Proof.
  intros id ex el fa. subst ex el fa.
  unfold Adapters.elysia_inMemory, Adapters.express_inMemory,
    Adapters.fastify_inMemory, Adapters.express_redis,
    Adapters.fastify_redis.
  fold id.
  destruct (Redis.exec env (Redis.associateDbIdentifier ttl id d) w)
    as [w' [[]|err]];
    destruct (Adapters.present requestId) eqn:Hp;
    destruct (Adapters.truthy d) eqn:Ht; simpl;
    try (split; [split; [done|by intros (? & ? & _)]|];
         repeat apply conj; done).
  all: destruct (InMemory.get_entry id r) as [[l x]|] eqn:G;
    [ rewrite (InMemoryFacts.associate_found id d l x r G); simpl;
      (split; [split; [done|by intros (_ & _ & ? & _)]|]);
      repeat apply conj; done
    | rewrite (InMemoryFacts.associate_missing id d r G); simpl;
      (split; [split; [by intros [= <-]|by intros (_ & _ & _ & ->)]|]);
      repeat apply conj; done ].
Qed.

Lemma X11_wrapper_and_missing_entry_witness :
  (Adapters.express_inMemory (Some "gone") (Some pid42) mem_r1 []).2
  = Adapters.RejectsBeforeHandler (NoEntryFound "gone") ∧
  Adapters.fastify_inMemory (Some "gone") (Some pid42) mem_r1 []
  = (mem_r1, [(Adapters.label_fastify, NoEntryFound "gone")],
     Adapters.CallsHandler) ∧
  Adapters.express_inMemory (Some "r1") (Some (DbNum 0)) mem_r1 []
  = (mem_r1, [], Adapters.CallsHandler).
Proof.
  pose proof (X11_wrapper_and_missing_entry (Some "gone") (Some pid42)
    mem_r1 [] (Redis.reliable (resolves true)) 3600 redis_r1
    (NoEntryFound "gone")) as (H1 & _ & _ & H2 & _).
  pose proof (X11_wrapper_and_missing_entry (Some "r1") (Some (DbNum 0))
    mem_r1 [] (Redis.reliable (resolves true)) 3600 redis_r1
    (NoEntryFound "r1")) as (_ & _ & _ & _ & _ & _ & H3).
  split; [exact (proj2 H1 (conj eq_refl (conj eq_refl (conj eq_refl eq_refl))))|].
  split; [exact (H2 eq_refl eq_refl eq_refl)|exact (proj1 (H3 eq_refl))].
Defined.

(** ** X12: the bundled hooks never reject *)

Module HooksFacts.
Import Hooks.

Lemma guarded_fulfils {R} name (query : Z → Settled R) success id d :
  ∃ b, (guarded name query success id d).2 = Fulfilled b.
Proof.
  unfold guarded. destruct (number_in name d) as [n|]; [|by eexists].
  destruct (query n) as [res|err]; [|by eexists].
  destruct (success res) as [[|]|err]; by eexists.
Qed.

Lemma guarded_true {R} name (query : Z → Settled R) success id d :
  (guarded name query success id d).2 = Fulfilled true ↔
  ∃ n res, number_in name d = Some n ∧ query n = Fulfilled res ∧
           success res = Returns true.
Proof.
  unfold guarded. split.
  - destruct (number_in name d) as [n|]; [|done].
    destruct (query n) as [res|err] eqn:Q; [|done].
    destruct (success res) as [[|]|err] eqn:S; try done.
    intros _. by exists n, res.
  - intros (n & res & -> & -> & ->). done.
Qed.

(** A hook that always fulfils takes a cancellation to its end. *)
Lemma mark_completes_redis h ttl id d w :
  (∀ x y, ∃ b, h x y = Fulfilled b) → 0 < ttl →
  Redis.read (Redis.getKey id) w = Some (mkEntry active (Some d)) →
  (Redis.exec (Redis.reliable h) (Redis.markForCancellation ttl id) w).2
  = Fulfilled tt ∧
  Redis.status_of id
    (Redis.exec (Redis.reliable h) (Redis.markForCancellation ttl id) w).1
  = cancelled.
Proof.
  intros Hh Httl R. rewrite (RedisFacts.exec_mark_hook h ttl id d w R).
  destruct (Hh id d) as [b ->]. simpl. split; [done|].
  by rewrite RedisFacts.status_of_write, !decide_True.
Qed.

Lemma mark_completes_inMemory h id l e d r :
  (∀ x y, ∃ b, h x y = Fulfilled b) →
  InMemory.get_entry id r = Some (l, e) → status e = active →
  dbIdentifier e = Some d →
  let r1 := (InMemory.markForCancellation id r).1 in
  let res := InMemory.resume (length (InMemory.awaiting r)) (h id d) r1 in
  res.2 = Some (Fulfilled tt) ∧ InMemory.getStatus id res.1 = cancelled.
Proof.
  intros Hh G Hs Hd r1 res.
  destruct (InMemoryFacts.mark_suspends id l e d r G Hs Hd)
    as (_ & Haw & _ & G1).
  fold r1 in Haw, G1. subst res.
  rewrite (InMemoryFacts.resume_last _ _ _ _ Haw).
  destruct (Hh id d) as [b ->]. simpl. split; [done|].
  rewrite (InMemoryFacts.getStatus_Some id _ l (mkEntry cancelled (Some d)));
    [done|].
  apply (InMemoryFacts.get_entry_set_status id l
           (mkEntry cancelling (Some d)) cancelled).
  apply InMemoryFacts.get_entry_Some in G1 as [? ?].
  by apply InMemoryFacts.get_entry_Some.
Qed.

End HooksFacts.

(** X12: the promise of the PostgreSQL, MySQL and MongoDB hooks is never
    rejected: an invalid identifier, a query that fails and a result that
    cannot be read all give [false]. It is fulfilled with [true] exactly
    when the identifier is an object whose [pid] (resp. [threadId],
    [operationId]) is a number, the query for that number is fulfilled and
    its result reports success. With an identifier that has no numeric
    [operationId] the MongoDB hook's answer does not depend on the
    database. So with any of the three as the hook,
    [markForCancellation] on an ['active'] entry with an identifier is
    always fulfilled and leaves the entry ['cancelled']. *)
Theorem X12_bundled_hooks_never_reject
    (query : Z → Settled Hooks.PgResult)
    (execute : Z → Settled Hooks.MySqlResult)
    (command command' : Z → Settled Hooks.MongoResult)
    (id : string) (d : DbIdentifier)
    (l : nat) (e : Entry) (r : InMemory.Registry)
    (ttl : Z) (w : Redis.World) :
  let pg := Hooks.settlement (Hooks.createPostgresCancellationHook query) in
  let my := Hooks.settlement (Hooks.createMySqlCancellationHook execute) in
  let mo := Hooks.settlement (Hooks.createMongoDbCancellationHook command) in
  ((∃ b, pg id d = Fulfilled b) ∧ (∃ b, my id d = Fulfilled b) ∧
   (∃ b, mo id d = Fulfilled b)) ∧
  (pg id d = Fulfilled true ↔
   ∃ pid rows, Hooks.number_in "pid" d = Some pid ∧
     query pid
     = Fulfilled (Hooks.PgResultWith (Some (Hooks.RowWith true :: rows)))) ∧
  (my id d = Fulfilled true ↔
   ∃ threadId, Hooks.number_in "threadId" d = Some threadId ∧
     execute threadId = Fulfilled (Hooks.MyFirst true)) ∧
  (mo id d = Fulfilled true ↔
   ∃ op, Hooks.number_in "operationId" d = Some op ∧
     command op = Fulfilled (Hooks.MongoWith true)) ∧
  (Hooks.number_in "operationId" d = None →
   Hooks.createMongoDbCancellationHook command id d
   = Hooks.createMongoDbCancellationHook command' id d) ∧
  (∀ hook, hook ∈ [pg; my; mo] → 0 < ttl →
   Redis.read (Redis.getKey id) w = Some (mkEntry active (Some d)) →
   (Redis.exec (Redis.reliable hook) (Redis.markForCancellation ttl id) w).2
   = Fulfilled tt ∧
   Redis.status_of id
     (Redis.exec (Redis.reliable hook) (Redis.markForCancellation ttl id) w).1
   = cancelled) ∧
  (∀ hook, hook ∈ [pg; my; mo] →
   InMemory.get_entry id r = Some (l, e) → status e = active →
   dbIdentifier e = Some d →
   let res := InMemory.resume (length (InMemory.awaiting r)) (hook id d)
                (InMemory.markForCancellation id r).1 in
   res.2 = Some (Fulfilled tt) ∧ InMemory.getStatus id res.1 = cancelled).
Proof.
  intros pg my mo.
  assert (∀ hook, hook ∈ [pg; my; mo] →
            ∀ x y, ∃ b, hook x y = Fulfilled b) as Hall.
  { intros hook Hin x y.
    apply list_elem_of_In in Hin.
    destruct Hin as [<-|[<-|[<-|[]]]]; apply HooksFacts.guarded_fulfils. }
  split; [|split; [|split; [|split; [|split; [|split]]]]].
  - repeat split; apply HooksFacts.guarded_fulfils.
  - subst pg. unfold Hooks.settlement, Hooks.createPostgresCancellationHook.
    rewrite HooksFacts.guarded_true. split.
    + intros (n & res & Hn & Hq & Hres). exists n.
      destruct res as [|[[|[|[|]] rows]|]]; simpl in Hres; try done.
      by exists rows.
    + intros (n & rows & Hn & Hq). by eexists n, _.
  - subst my. unfold Hooks.settlement, Hooks.createMySqlCancellationHook.
    rewrite HooksFacts.guarded_true. split.
    + intros (n & res & Hn & Hq & Hres). exists n.
      by destruct res as [|[|]]; simpl in Hres.
    + intros (n & Hn & Hq). by eexists n, _.
  - subst mo. unfold Hooks.settlement, Hooks.createMongoDbCancellationHook.
    rewrite HooksFacts.guarded_true. split.
    + intros (n & res & Hn & Hq & Hres). exists n.
      by destruct res as [|[|]]; simpl in Hres.
    + intros (n & Hn & Hq). by eexists n, _.
  - intros Hn. unfold Hooks.createMongoDbCancellationHook, Hooks.guarded.
    by rewrite Hn.
  - intros hook Hin Httl R.
    by apply (HooksFacts.mark_completes_redis hook ttl id d w (Hall hook Hin)).
  - intros hook Hin G Hs Hd.
    by apply (HooksFacts.mark_completes_inMemory hook id l e d r
                (Hall hook Hin)).
Qed.

Lemma X12_bundled_hooks_never_reject_witness :
  let down := λ _ : Z, Rejected (External "connection terminated") in
  let pg := Hooks.settlement (Hooks.createPostgresCancellationHook down) in
  pg "r1" pid42 = Fulfilled false ∧
  Redis.status_of "r1"
    (Redis.exec (Redis.reliable pg) (Redis.markForCancellation 3600 "r1")
       redis_r1).1 = cancelled ∧
  Hooks.settlement
    (Hooks.createPostgresCancellationHook
       (λ pid, Fulfilled (Hooks.PgResultWith (Some [Hooks.RowWith true]))))
    "r1" pid42 = Fulfilled true.
Proof.
  intros down pg. split; [reflexivity|].
  pose proof (X12_bundled_hooks_never_reject down
    (λ _, Fulfilled (Hooks.MyFirst true))
    (λ _, Fulfilled Hooks.MongoNullish) (λ _, Fulfilled Hooks.MongoNullish)
    "r1" pid42 0%nat (mkEntry active (Some pid42)) mem_r1 3600 redis_r1)
    as (_ & _ & _ & _ & _ & Hr & _).
  pose proof (X12_bundled_hooks_never_reject
    (λ pid, Fulfilled (Hooks.PgResultWith (Some [Hooks.RowWith true])))
    (λ _, Fulfilled (Hooks.MyFirst true))
    (λ _, Fulfilled Hooks.MongoNullish) (λ _, Fulfilled Hooks.MongoNullish)
    "r1" pid42 0%nat (mkEntry active (Some pid42)) mem_r1 3600 redis_r1)
    as (_ & Ht & _).
  split; [exact (proj2 (Hr _ ltac:(by left) ltac:(lia) eq_refl))|].
  apply Ht. by exists 42, [].
Defined.

(** ** The tracing integration *)

Module OTelFacts.
Import OTel.

Lemma calls_cons c cs i : calls (c :: cs) i = calls cs (call c i).
Proof. done. Qed.

Lemma calls_app cs1 cs2 i : calls (cs1 ++ cs2) i = calls cs2 (calls cs1 i).
Proof. unfold calls. apply foldl_app. Qed.

Lemma no_end_ended_last ops : End ∉ ops → ended_last ops.
Proof.
  intros H k Hk. exfalso. apply H. by apply list_elem_of_lookup_2 in Hk.
Qed.

Lemma ended_last_snoc ops : End ∉ ops → ended_last (ops ++ [End]).
Proof.
  intros H k Hk. rewrite length_app. simpl.
  destruct (decide (k < length ops)%nat) as [Hlt|Hge].
  - rewrite lookup_app_l in Hk by done. exfalso. apply H.
    by apply list_elem_of_lookup_2 in Hk.
  - apply lookup_lt_Some in Hk. rewrite length_app in Hk. simpl in Hk. lia.
Qed.

Lemma final_status_no_end sc err : End ∉ final_status sc err.
Proof.
  unfold final_status. destruct err as [m|].
  - rewrite !not_elem_of_cons. repeat split; try done. apply not_elem_of_nil.
  - destruct sc as [n|]; [case_match|];
      rewrite not_elem_of_cons; (split; [done|apply not_elem_of_nil]).
Qed.

Lemma tidy_create : tidy create.
Proof.
  split; simpl.
  - intros id l H. by rewrite lookup_empty in H.
  - intros id1 id2 l H. by rewrite lookup_empty in H.
  - intros l sp H. by rewrite lookup_nil in H.
Qed.

Lemma tidy_createRequestSpan id m u i :
  tidy i → tidy (createRequestSpan id m u i).
Proof.
  intros [Ht Hi He]. split; simpl.
  - intros id' l. rewrite lookup_insert. case_decide.
    + intros [= <-]. eexists. split.
      * rewrite lookup_app_r by lia. by rewrite Nat.sub_diag.
      * simpl. apply not_elem_of_nil.
    + intros Hl. destruct (Ht _ _ Hl) as (sp & Hsp & Hno).
      exists sp. split; [by apply lookup_app_l_Some|done].
  - intros id1 id2 l. rewrite !lookup_insert.
    repeat case_decide; subst; try done.
    + intros [= <-] Hl. destruct (Ht _ _ Hl) as (sp & Hsp & _).
      apply lookup_lt_Some in Hsp. lia.
    + intros Hl [= <-]. destruct (Ht _ _ Hl) as (sp & Hsp & _).
      apply lookup_lt_Some in Hsp. lia.
    + apply Hi.
  - intros l sp Hl. apply lookup_app_Some in Hl as [Hl|[_ Hl]].
    + by apply (He l).
    + apply list_lookup_singleton_Some in Hl as [_ <-]. simpl.
      apply no_end_ended_last, not_elem_of_nil.
Qed.

(** Telling a tracked span something that is not its end. *)
Lemma tidy_tell id l ops i :
  tidy i → spansByRequestId i !! id = Some l → End ∉ ops →
  tidy (tell l ops i).
Proof.
  intros [Ht Hi He] Hid Hops. split; simpl.
  - intros id' l' Hl'. destruct (Ht _ _ Hl') as (sp & Hsp & Hno).
    rewrite list_lookup_alter. case_decide as E.
    + subst l'. rewrite Hsp. simpl. eexists. split; [done|]. simpl.
      rewrite elem_of_app. by intros [?|?].
    + eauto.
  - done.
  - intros l' sp. rewrite list_lookup_alter. case_decide as E.
    + subst l'. destruct (Ht _ _ Hid) as (sp0 & Hsp0 & Hno).
      rewrite Hsp0. simpl. intros [= <-]. simpl.
      apply no_end_ended_last. rewrite elem_of_app. by intros [?|?].
    + apply He.
Qed.

Lemma tidy_endRequestSpan id sc err i : tidy i → tidy (endRequestSpan id sc err i).
Proof.
  intros T. unfold endRequestSpan.
  destruct (spansByRequestId i !! id) as [l|] eqn:Hid; [|done].
  destruct T as [Ht Hi He]. split; simpl.
  - intros id' l'. rewrite lookup_delete. case_decide as E; [done|].
    intros Hl'. destruct (Ht _ _ Hl') as (sp & Hsp & Hno).
    rewrite list_lookup_alter, decide_False; [by eauto|].
    intros <-. apply E. by apply (Hi id id' l).
  - intros id1 id2 l'. rewrite !lookup_delete.
    repeat case_decide; try done. apply Hi.
  - intros l' sp. rewrite list_lookup_alter. case_decide as E.
    + subst l'. destruct (Ht _ _ Hid) as (sp0 & Hsp0 & Hno).
      rewrite Hsp0. simpl. intros [= <-]. simpl.
      rewrite app_assoc. apply ended_last_snoc.
      rewrite elem_of_app. intros [?|?]; [done|].
      by apply (final_status_no_end sc err).
    + apply He.
Qed.

Lemma event_no_end name attrs : End ∉ [AddEvent name attrs].
Proof. rewrite not_elem_of_cons. split; [done|apply not_elem_of_nil]. Qed.

Lemma tidy_call c i : tidy i → tidy (call c i).
Proof.
  intros T. destruct c as [id m u|id now|id d|id d b|id sc err]; simpl.
  - by apply tidy_createRequestSpan.
  - unfold markRequestCancelled.
    destruct (spansByRequestId i !! id) as [l|] eqn:Hid; [|done].
    apply (tidy_tell id); [done..|apply event_no_end].
  - unfold markDbOperationAssociated.
    destruct (spansByRequestId i !! id) as [l|] eqn:Hid; [|done].
    apply (tidy_tell id); [done..|apply event_no_end].
  - unfold markDbOperationCancelled.
    destruct (spansByRequestId i !! id) as [l|] eqn:Hid; [|done].
    apply (tidy_tell id); [done..|apply event_no_end].
  - by apply tidy_endRequestSpan.
Qed.

Lemma tidy_calls cs i : tidy i → tidy (calls cs i).
Proof.
  revert i. induction cs as [|c cs IH]; intros i T; [done|].
  rewrite calls_cons. by apply IH, tidy_call.
Qed.

(** A span no id tracks is left alone. *)
Lemma untracked_call c l i :
  tidy i → (l < length (spans i))%nat →
  (∀ id, spansByRequestId i !! id ≠ Some l) →
  spans (call c i) !! l = spans i !! l ∧
  (l < length (spans (call c i)))%nat ∧
  (∀ id, spansByRequestId (call c i) !! id ≠ Some l).
Proof.
  intros T Hlt Hun.
  assert (∀ id l' ops, spansByRequestId i !! id = Some l' →
            spans (tell l' ops i) !! l = spans i !! l ∧
            (l < length (spans (tell l' ops i)))%nat) as Htell.
  { intros id l' ops Hid. simpl. rewrite length_alter. split; [|done].
    rewrite list_lookup_alter_ne; [done|]. intros ->. by apply (Hun id). }
  destruct c as [id m u|id now|id d|id d b|id sc err]; simpl.
  - repeat apply conj.
    + by rewrite lookup_app_l.
    + rewrite length_app. lia.
    + intros id'. rewrite lookup_insert. case_decide; [|apply Hun].
      intros [= E]. lia.
  - unfold markRequestCancelled.
    destruct (spansByRequestId i !! id) as [l'|] eqn:Hid; [|done].
    destruct (Htell id l' [AddEvent "request.cancelled"
      [("request.id", AttrText id); ("cancelled.timestamp", AttrNumber now)]]
      Hid). done.
  - unfold markDbOperationAssociated.
    destruct (spansByRequestId i !! id) as [l'|] eqn:Hid; [|done].
    destruct (Htell id l' [AddEvent "db.operation.associated"
      [("request.id", AttrText id); ("db.identifier", AttrJson d)]] Hid).
    done.
  - unfold markDbOperationCancelled.
    destruct (spansByRequestId i !! id) as [l'|] eqn:Hid; [|done].
    destruct (Htell id l' [AddEvent "db.operation.cancellation.attempt"
      [("request.id", AttrText id); ("db.identifier", AttrJson d);
       ("cancellation.success", AttrFlag b)]] Hid).
    done.
  - unfold endRequestSpan.
    destruct (spansByRequestId i !! id) as [l'|] eqn:Hid; [|done].
    destruct (Htell id l' (final_status sc err ++ [End]) Hid) as [H1 H2].
    simpl in *. repeat apply conj; [done|done|].
    intros id'. rewrite lookup_delete. case_decide; [done|apply Hun].
Qed.

Lemma untracked_calls cs l i :
  tidy i → (l < length (spans i))%nat →
  (∀ id, spansByRequestId i !! id ≠ Some l) →
  spans (calls cs i) !! l = spans i !! l.
Proof.
  revert i. induction cs as [|c cs IH]; intros i T Hlt Hun; [done|].
  rewrite calls_cons.
  destruct (untracked_call c l i T Hlt Hun) as (H1 & H2 & H3).
  rewrite IH; [done|by apply tidy_call|done..].
Qed.

End OTelFacts.

(** ** X13: a span is ended once, and last *)

(** X13: whatever methods of the tracing integration are called, in
    whatever order, a span it tracks under a request id has not been ended,
    and in every span it started [end()] comes at most once and after
    everything else the span was asked: no event is added to, and no status
    set on, a span that has been ended. *)
Theorem X13_spans_end_once_and_last (cs : list OTel.Call) :
  let i := OTel.calls cs OTel.create in
  (∀ id l, OTel.spansByRequestId i !! id = Some l →
     ∃ sp, OTel.spans i !! l = Some sp ∧ OTel.End ∉ OTel.span_ops sp) ∧
  (∀ l sp k, OTel.spans i !! l = Some sp →
     OTel.span_ops sp !! k = Some OTel.End →
     S k = length (OTel.span_ops sp)).
Proof.
  intros i.
  destruct (OTelFacts.tidy_calls cs OTel.create OTelFacts.tidy_create)
    as [Ht _ He].
  split; [exact Ht|]. intros l sp k Hl. by apply (He l sp).
Qed.

Lemma X13_spans_end_once_and_last_witness :
  let i := OTel.calls
             [OTel.CreateRequestSpan "r1" "GET" "/test";
              OTel.MarkRequestCancelled "r1" 1000;
              OTel.EndRequestSpan "r1" (Some 200) None;
              OTel.MarkRequestCancelled "r1" 2000;
              OTel.EndRequestSpan "r1" (Some 500) None] OTel.create in
  ∃ sp, OTel.spans i !! 0%nat = Some sp ∧
        OTel.span_ops sp !! 2%nat = Some OTel.End ∧
        length (OTel.span_ops sp) = 3%nat.
Proof.
  intros i. eexists. split; [reflexivity|]. split; [reflexivity|].
  symmetry.
  exact (proj2 (X13_spans_end_once_and_last
    [OTel.CreateRequestSpan "r1" "GET" "/test";
     OTel.MarkRequestCancelled "r1" 1000;
     OTel.EndRequestSpan "r1" (Some 200) None;
     OTel.MarkRequestCancelled "r1" 2000;
     OTel.EndRequestSpan "r1" (Some 500) None]) 0%nat _ 2%nat
    eq_refl eq_refl).
Defined.

(** ** X14: how a span is ended *)

(** X14: [endRequestSpan] sets the status OK exactly when no error is
    given and the status code is absent or below 400 (0 included);
    otherwise it sets ERROR. It stops tracking the id: every later
    notification for the id, and a second [endRequestSpan], leave the
    integration as it is, until a span is created for the id again. *)
Theorem X14_end_of_a_request_span
    (id : string) (sc sc' : option Z) (err err' : option string)
    (now : Z) (d : option DbIdentifier) (b : bool) (i : OTel.Integration) :
  let i' := OTel.endRequestSpan id sc err i in
  (OTel.final_status sc err = [OTel.SetStatus OTel.StatusOk] ↔
   err = None ∧ ∀ n, sc = Some n → n < 400) ∧
  OTel.spansByRequestId i' !! id = None ∧
  OTel.markRequestCancelled id now i' = i' ∧
  OTel.markDbOperationAssociated id d i' = i' ∧
  OTel.markDbOperationCancelled id d b i' = i' ∧
  OTel.endRequestSpan id sc' err' i' = i'.
Proof.
  intros i'.
  assert (OTel.spansByRequestId i' !! id = None) as Hid.
  { subst i'. unfold OTel.endRequestSpan.
    destruct (OTel.spansByRequestId i !! id) eqn:E; [|done].
    simpl. apply lookup_delete_eq. }
  split; [|split; [done|]].
  - unfold OTel.final_status. destruct err as [m|].
    + split; [done|by intros [? _]].
    + destruct sc as [n|].
      * destruct (negb (n =? 0) && (400 <=? n)) eqn:E.
        -- split; [done|]. intros [_ Hn]. specialize (Hn n eq_refl).
           apply andb_true_iff in E as [_ E]. apply Z.leb_le in E. lia.
        -- split; [|done]. intros _. split; [done|]. intros ? [= <-].
           apply andb_false_iff in E as [E|E].
           ++ apply negb_false_iff, Z.eqb_eq in E. lia.
           ++ apply Z.leb_gt in E. lia.
      * split; [|done]. intros _. split; [done|]. by intros.
  - unfold OTel.markRequestCancelled, OTel.markDbOperationAssociated,
      OTel.markDbOperationCancelled. unfold OTel.endRequestSpan at 1.
    by rewrite Hid.
Qed.

Lemma X14_end_of_a_request_span_witness :
  OTel.final_status (Some 399) None = [OTel.SetStatus OTel.StatusOk] ∧
  OTel.final_status (Some 404) None
  = [OTel.SetStatus (OTel.StatusError "HTTP status code 404")].
Proof.
  pose proof (X14_end_of_a_request_span "r1" (Some 399) None None None 0
    None true OTel.create) as [H _].
  split; [|reflexivity].
  apply H. split; [done|]. intros n [= <-]. lia.
Defined.

(** ** X15: a second span for the same request id *)

(** X15: [createRequestSpan] for an id that already has a span starts a
    new span and tracks that one; the span tracked before is never touched
    again, whatever is called afterwards, so it is never ended. *)
Theorem X15_replaced_span_is_never_ended
    (history cs : list OTel.Call) (id method url : string) (l : nat) :
  let i := OTel.calls history OTel.create in
  OTel.spansByRequestId i !! id = Some l →
  let i' := OTel.calls cs (OTel.createRequestSpan id method url i) in
  OTel.spans i' !! l = OTel.spans i !! l ∧
  ∃ sp, OTel.spans i' !! l = Some sp ∧ OTel.End ∉ OTel.span_ops sp.
Proof.
  intros i Hid i'.
  pose proof (OTelFacts.tidy_calls history OTel.create OTelFacts.tidy_create)
    as T. fold i in T.
  destruct (OTel.tidy_tracked i T id l Hid) as (sp & Hsp & Hno).
  assert (OTel.spans i' !! l = OTel.spans i !! l) as E.
  { subst i'. rewrite OTelFacts.untracked_calls.
    - simpl. by rewrite (lookup_app_l_Some _ _ _ _ Hsp).
    - by apply OTelFacts.tidy_createRequestSpan.
    - simpl. rewrite length_app. apply lookup_lt_Some in Hsp. lia.
    - intros id'. simpl. rewrite lookup_insert. case_decide.
      + intros [= E]. apply lookup_lt_Some in Hsp. lia.
      + intros Hl'. by pose proof (OTel.tidy_inj i T id id' l Hid Hl'). }
  split; [done|]. exists sp. by rewrite E.
Qed.

Lemma X15_replaced_span_is_never_ended_witness :
  let i' := OTel.calls
              [OTel.CreateRequestSpan "r1" "GET" "/a";
               OTel.CreateRequestSpan "r1" "GET" "/b";
               OTel.EndRequestSpan "r1" (Some 200) None;
               OTel.EndRequestSpan "r1" (Some 200) None] OTel.create in
  ∃ sp, OTel.spans i' !! 0%nat = Some sp ∧ OTel.End ∉ OTel.span_ops sp.
Proof.
  exact (proj2 (X15_replaced_span_is_never_ended
    [OTel.CreateRequestSpan "r1" "GET" "/a"]
    [OTel.EndRequestSpan "r1" (Some 200) None;
     OTel.EndRequestSpan "r1" (Some 200) None] "r1" "GET" "/b" 0%nat
    eq_refl)).
Defined.

(** ** The Express middleware *)

Module ExpressFacts.
Import Express.

Lemma untracked_markRequestCancelled id now i :
  OTel.spansByRequestId i !! id = None →
  OTel.markRequestCancelled id now i = i.
Proof. unfold OTel.markRequestCancelled. by intros ->. Qed.

Lemma endRequestSpan_untracks id sc err i :
  OTel.spansByRequestId (OTel.endRequestSpan id sc err i) !! id = None.
Proof.
  unfold OTel.endRequestSpan.
  destruct (OTel.spansByRequestId i !! id) eqn:E; [|done].
  simpl. apply lookup_delete_eq.
Qed.

Lemma choose_header name uuid req v :
  headers req !! toLowerCase name = Some v → v ≠ "" →
  choose name uuid req = v.
Proof.
  intros H Hv. unfold choose. rewrite H.
  destruct (String.eqb_spec v ""); done.
Qed.

Lemma choose_uuid name uuid req :
  headers req !! toLowerCase name = None ∨
  headers req !! toLowerCase name = Some "" →
  choose name uuid req = uuid.
Proof. unfold choose. by intros [-> | ->]. Qed.

Lemma on_close_absent id now s :
  (∀ i, otel s = Some i → OTel.spansByRequestId i !! id = None) →
  InMemory.getStatus id (registry s) ≠ active →
  on_close id now s = s.
Proof.
  intros Ho Hs. unfold on_close.
  rewrite (InMemoryFacts.mark_noop id (registry s) Hs). simpl.
  destruct s as [r o c]. simpl in *. f_equal.
  destruct o as [i|]; [|done].
  simpl. by rewrite untracked_markRequestCancelled by by apply Ho.
Qed.

End ExpressFacts.

(** ** X16: a close after the response has finished *)

(** X16: once the listener of the response's ['finish'] has run for a
    request id, the listener of the request's ['close'] for that id changes
    nothing at all: the registry, the hook's log, the spans and the console
    are as they were. In the other order the entry is removed all the same:
    after ['finish'] the id reads ['finished'] whether or not ['close'] came
    first. *)
Theorem X16_close_after_finish_changes_nothing
    (id : string) (statusCode now : Z) (s : Express.Server) :
  Express.on_close id now (Express.on_finish id statusCode s)
  = Express.on_finish id statusCode s ∧
  InMemory.getStatus id
    (Express.registry (Express.on_finish id statusCode s)) = finished ∧
  InMemory.getStatus id
    (Express.registry
       (Express.on_finish id statusCode (Express.on_close id now s)))
  = finished.
Proof.
  assert (∀ s', InMemory.getStatus id
                  (Express.registry (Express.on_finish id statusCode s'))
                = finished) as Hfin.
  { intros s'. simpl.
    apply InMemoryFacts.getStatus_None, InMemoryFacts.get_entry_finish. }
  repeat apply conj; [|apply Hfin..].
  apply ExpressFacts.on_close_absent.
  - simpl. intros i Hi. destruct (Express.otel s) as [j|]; [|done].
    simpl in Hi. injection Hi as <-.
    apply ExpressFacts.endRequestSpan_untracks.
  - by rewrite Hfin.
Qed.

(** ** X17: two requests that carry the same request id *)

(** X17: the middleware takes the id from the request header when it is
    there and not empty, so two requests may carry the same id; they then
    share one entry. When the second arrives, the entry is replaced by a
    fresh ['active'] one without identifier: a disconnect then cancels the
    shared entry without invoking the hook for the identifier the first
    request had associated. When one of the two finishes, the id reads
    ['finished'] and an [associateDbIdentifier] by the other throws. *)
Theorem X17_requests_sharing_an_id
    (name : option string) (uuid1 uuid2 v : string) (d : DbIdentifier)
    (req1 req2 : Express.Request) (now statusCode : Z) (s : Express.Server) :
  let header := Express.toLowerCase (default "x-request-id" name) in
  Express.headers req1 !! header = Some v →
  Express.headers req2 !! header = Some v → v ≠ "" →
  let first := Express.cancellationMiddleware name uuid1 req1 s in
  let associated :=
    Express.mkServer
      (InMemory.associateDbIdentifier v (Some d)
         (Express.registry first.1)).1
      (Express.otel first.1) (Express.console first.1) in
  let second := Express.cancellationMiddleware name uuid2 req2 associated in
  let closed := Express.on_close v now second.1 in
  let finished_one := Express.on_finish v statusCode second.1 in
  (Express.requestId first.2 = v ∧ Express.requestId second.2 = v) ∧
  (InMemory.get_entry v (Express.registry associated)
   = Some (length (InMemory.objects (Express.registry s)),
           mkEntry active (Some d)) ∧
   ∃ l, InMemory.get_entry v (Express.registry second.1)
        = Some (l, mkEntry active None)) ∧
  (InMemory.calls (Express.registry closed)
   = InMemory.calls (Express.registry s) ∧
   InMemory.getStatus v (Express.registry closed) = cancelled) ∧
  (InMemory.getStatus v (Express.registry finished_one) = finished ∧
   (InMemory.associateDbIdentifier v (Some d)
      (Express.registry finished_one)).2 = Throws (NoEntryFound v)).
Proof.
  intros header H1 H2 Hv first associated second closed finished_one.
  assert (Express.registry first.1 = InMemory.register v (Express.registry s))
    as E1.
  { subst first. unfold Express.cancellationMiddleware. simpl.
    by rewrite (ExpressFacts.choose_header _ _ _ _ H1 Hv). }
  pose proof (InMemoryFacts.get_entry_register v (Express.registry s)) as G1.
  rewrite <- E1 in G1.
  assert (Express.registry associated
          = InMemory.set_dbIdentifier
              (length (InMemory.objects (Express.registry s))) (Some d)
              (Express.registry first.1)) as Ea.
  { subst associated. cbn [Express.registry].
    by rewrite (InMemoryFacts.associate_found v (Some d) _ _ _ G1). }
  assert (Express.registry second.1
          = InMemory.register v (Express.registry associated)) as E2.
  { subst second. unfold Express.cancellationMiddleware. simpl.
    by rewrite (ExpressFacts.choose_header _ _ _ _ H2 Hv). }
  pose proof (InMemoryFacts.get_entry_register v (Express.registry associated))
    as G2.
  rewrite <- E2 in G2.
  assert (InMemory.calls (Express.registry second.1)
          = InMemory.calls (Express.registry s)) as Ec.
  { by rewrite E2, Ea, E1. }
  split; [|split; [|split]].
  - subst first second. unfold Express.cancellationMiddleware. simpl.
    by rewrite (ExpressFacts.choose_header _ _ _ _ H1 Hv),
      (ExpressFacts.choose_header _ _ _ _ H2 Hv).
  - split; [|by eexists].
    rewrite Ea.
    exact (InMemoryFacts.get_entry_set_dbIdentifier v _
             (mkEntry active None) (Some d) _ G1).
  - subst closed. unfold Express.on_close.
    rewrite (InMemoryFacts.mark_plain v _ _ _ G2 eq_refl eq_refl).
    cbn [Express.registry].
    split; [exact Ec|].
    pose proof (InMemoryFacts.get_entry_set_status v _ _ cancelling _ G2)
      as G3.
    pose proof (InMemoryFacts.get_entry_set_status v _ _ cancelled _ G3)
      as G4.
    by rewrite (InMemoryFacts.getStatus_Some v _ _ _ G4).
  - subst finished_one. cbn [Express.on_finish Express.registry].
    pose proof (InMemoryFacts.get_entry_finish v (Express.registry second.1))
      as Gf.
    split; [by apply InMemoryFacts.getStatus_None|].
    by rewrite (InMemoryFacts.associate_missing v (Some d) _ Gf).
Qed.

Lemma X17_requests_sharing_an_id_witness :
  let req := Express.mkRequest {["x-request-id" := "abc"]} "GET" "/slow" in
  let s := Express.mkServer (InMemory.create 3600000) None [] in
  let first := Express.cancellationMiddleware None "uuid-1" req s in
  let associated :=
    Express.mkServer
      (InMemory.associateDbIdentifier "abc" (Some pid42)
         (Express.registry first.1)).1 None [] in
  let second :=
    Express.cancellationMiddleware None "uuid-2" req associated in
  InMemory.calls (Express.registry (Express.on_close "abc" 0 second.1)) = [] ∧
  InMemory.getStatus "abc"
    (Express.registry (Express.on_close "abc" 0 second.1)) = cancelled.
Proof.
  intros req s first associated second.
  pose proof (X17_requests_sharing_an_id None "uuid-1" "uuid-2" "abc" pid42
    req req 0 200 s eq_refl eq_refl ltac:(discriminate))
    as (_ & _ & H & _).
  exact H.
Defined.

(** ** X18: one request through the middleware *)

(** X18: after the middleware has run, the request's id (the header value,
    or the generated one when the header is missing or empty) is on the
    request, in the response header under the configured name, and reads
    ['active']. When an identifier has been associated and the client
    disconnects, the hook is invoked once with that id and identifier. If
    it is fulfilled the entry ends ['cancelled'] and nothing is logged; if
    it rejects, the error is written to the console under "Failed to mark
    request for cancellation:" and the entry stays ['cancelling']. Either
    way the listener of ['finish'] then removes the entry. *)
Theorem X18_one_request_through_the_middleware
    (name : option string) (uuid : string) (req : Express.Request)
    (d : DbIdentifier) (now statusCode : Z) (outcome : Settled bool)
    (s : Express.Server) :
  let header := Express.toLowerCase (default "x-request-id" name) in
  let arrived := Express.cancellationMiddleware name uuid req s in
  let id := Express.requestId arrived.2 in
  let associated :=
    Express.mkServer
      (InMemory.associateDbIdentifier id (Some d)
         (Express.registry arrived.1)).1
      (Express.otel arrived.1) (Express.console arrived.1) in
  let closed := Express.on_close id now associated in
  let k := length (InMemory.awaiting (Express.registry s)) in
  let settled := Express.on_settle k outcome closed in
  ((∀ v, Express.headers req !! header = Some v → v ≠ "" → id = v) ∧
   (Express.headers req !! header = None ∨
    Express.headers req !! header = Some "" → id = uuid) ∧
   Express.response_header arrived.2 = (default "x-request-id" name, id) ∧
   InMemory.getStatus id (Express.registry arrived.1) = active ∧
   Express.console arrived.1 = Express.console s) ∧
  (InMemory.calls (Express.registry closed)
   = InMemory.calls (Express.registry s) ++ [(id, d)] ∧
   InMemory.getStatus id (Express.registry closed) = cancelling ∧
   Express.console closed = Express.console s) ∧
  match outcome with
  | Fulfilled _ =>
      InMemory.getStatus id (Express.registry settled) = cancelled ∧
      Express.console settled = Express.console s
  | Rejected err =>
      InMemory.getStatus id (Express.registry settled) = cancelling ∧
      Express.console settled
      = Express.console s
        ++ [("Failed to mark request for cancellation:", err)]
  end ∧
  InMemory.calls (Express.registry settled)
  = InMemory.calls (Express.registry s) ++ [(id, d)] ∧
  InMemory.getStatus id
    (Express.registry (Express.on_finish id statusCode settled)) = finished.
Proof.
  intros header arrived id associated closed k settled.
  assert (Express.registry arrived.1
          = InMemory.register id (Express.registry s)) as E1 by done.
  assert (Express.console arrived.1 = Express.console s) as Ec1 by done.
  pose proof (InMemoryFacts.get_entry_register id (Express.registry s)) as G1.
  rewrite <- E1 in G1.
  set (l := length (InMemory.objects (Express.registry s))) in *.
  assert (Express.registry associated
          = InMemory.set_dbIdentifier l (Some d) (Express.registry arrived.1))
    as Ea.
  { subst associated. cbn [Express.registry].
    by rewrite (InMemoryFacts.associate_found id (Some d) _ _ _ G1). }
  pose proof (InMemoryFacts.get_entry_set_dbIdentifier id l _ (Some d) _ G1)
    as Ga.
  rewrite <- Ea in Ga. cbn [status] in Ga.
  pose proof (InMemoryFacts.mark_suspends id l _ d _ Ga eq_refl eq_refl)
    as Hm.
  cbv zeta in Hm. destruct Hm as (Hnone & Haw & Hcalls & Gc).
  assert (Express.registry closed
          = (InMemory.markForCancellation id (Express.registry associated)).1
          ∧ Express.console closed = Express.console s) as [Ecl Ecc].
  { subst closed. unfold Express.on_close.
    destruct (InMemory.markForCancellation id (Express.registry associated))
      as [r' res].
    simpl in Hnone. subst res. done. }
  rewrite <- Ecl in Haw, Hcalls, Gc.
  assert (InMemory.calls (Express.registry associated)
          = InMemory.calls (Express.registry s)) as Hc0 by by rewrite Ea, E1.
  assert (InMemory.awaiting (Express.registry associated)
          = InMemory.awaiting (Express.registry s)) as Ha0 by by rewrite Ea, E1.
  rewrite Hc0 in Hcalls. rewrite Ha0 in Haw.
  pose proof (InMemoryFacts.resume_last _ outcome _ _ Haw) as Hres.
  fold k in Hres.
  split; [|split; [|split; [|split]]].
  - repeat apply conj; try done.
    + intros v Hv Hne. by apply ExpressFacts.choose_header.
    + apply ExpressFacts.choose_uuid.
    + rewrite E1. apply InMemoryFacts.getStatus_register.
  - repeat apply conj; try done.
    by rewrite (InMemoryFacts.getStatus_Some _ _ _ _ Gc).
  - subst settled. unfold Express.on_settle. rewrite Hres.
    destruct outcome as [b|err]; simpl; rewrite Ecc; (split; [|done]).
    + rewrite (InMemoryFacts.getStatus_Some id _ l
                 (mkEntry cancelled (Some d))); [done|].
      apply (InMemoryFacts.get_entry_set_status id l
               (mkEntry cancelling (Some d)) cancelled).
      apply InMemoryFacts.get_entry_Some in Gc as [? ?].
      by apply InMemoryFacts.get_entry_Some.
    + rewrite (InMemoryFacts.getStatus_Some id _ l
                 (mkEntry cancelling (Some d))); [done|].
      apply InMemoryFacts.get_entry_Some in Gc as [? ?].
      by apply InMemoryFacts.get_entry_Some.
  - subst settled. unfold Express.on_settle. rewrite Hres.
    by destruct outcome.
  - simpl. apply InMemoryFacts.getStatus_None, InMemoryFacts.get_entry_finish.
Qed.

Lemma X18_one_request_through_the_middleware_witness :
  let req := Express.mkRequest {["x-request-id" := "abc"]} "GET" "/slow" in
  let s := Express.mkServer (InMemory.create 3600000) None [] in
  let arrived :=
    Express.cancellationMiddleware (Some "X-Request-Id") "uuid-1" req s in
  Express.requestId arrived.2 = "abc" ∧
  Express.response_header arrived.2
  = ("X-Request-Id", Express.requestId arrived.2).
Proof.
  intros req s arrived.
  pose proof (X18_one_request_through_the_middleware (Some "X-Request-Id")
    "uuid-1" req pid42 0 200 (Fulfilled true) s) as ((H1 & _ & H3 & _) & _).
  split; [|exact H3].
  apply (H1 "abc"); [reflexivity|discriminate].
Defined.
